(** * node-spf-check: the SPF [check_host()] engine of [index.js]

    A shallow embedding of the classes [SPFResult] and [SPF] of [index.js]
    and the properties of the DNS gateway, the mechanism resolver, the
    evaluator and the include searcher.

    Modelling choices, all following the source:
    - JavaScript strings are [string]; [undefined] is [None] of an option.
    - The instance fields mutated during a check ([queryDNSCount],
      [warnings]) are threaded through a state-and-exception monad [M];
      the state also keeps a log of what happened: every call that
      reaches [dns.resolve], every call refused by the budget check and
      every [throw new ...] (or rejection) of the source.
    - A thrown value is either an [SPFResult] (typed) or a plain [Error]
      (untyped); [try/catch] is [try_catch]. An exception thrown inside
      the callback handed to [dns.resolve] is outside every [try] and
      every promise: the call is left [Unsettled].
    - The recursion between [resolveSPF], [evaluate] and [evaluateInclude]
      is bounded by fuel; running out of fuel is an outcome of the model
      alone, distinct from returning, from throwing and from being left
      unsettled, that no [catch] intercepts. *)

From Stdlib Require Import String Ascii List Arith Bool Lia DecimalString.
From Stdlib Require Import Sorted Permutation.
Import ListNotations.
Open Scope string_scope.

Set Implicit Arguments.

(** ** Results *)

(** The keys of [messages] (and of [results]). *)
Inductive ResultName : Type :=
  | RNone | Neutral | Pass | Fail | SoftFail | TempError | PermError.

Definition ResultName_eqb (a b : ResultName) : bool :=
  match a, b with
  | RNone, RNone | Neutral, Neutral | Pass, Pass | Fail, Fail
  | SoftFail, SoftFail | TempError, TempError | PermError, PermError => true
  | _, _ => false
  end.

(** [messages[result]]. *)
Definition messages (r : ResultName) : string :=
  match r with
  | RNone => "Cannot assert whether or not the client host is authorized"
  | Neutral => "Domain owner has explicitly stated that he cannot or does not want to assert whether or not the IP address is authorized"
  | Pass => "Client is authorized to inject mail with the given identity"
  | Fail => "Client is *not* authorized to use the domain in the given identity"
  | SoftFail => "Domain believes the host is not authorized but is not willing to make that strong of a statement"
  | TempError => "Encountered a transient error while performing the check"
  | PermError => "Domain's published records could not be correctly interpreted"
  end.

(** [results] maps every key of [messages] to itself; [results_key] is the
    lookup [_.has(results, name)] together with the value found, for a
    name that lodash reads as a key: one that holds neither a dot nor an
    opening bracket ([plain_key] below). A name with one of them is read
    as a path, and a path into the characters of a key, as [Pass.length],
    passes the test of lodash; the model does not cover such names. *)
Definition results_key (name : string) : option ResultName :=
  if name =? "None" then Some RNone
  else if name =? "Neutral" then Some Neutral
  else if name =? "Pass" then Some Pass
  else if name =? "Fail" then Some Fail
  else if name =? "SoftFail" then Some SoftFail
  else if name =? "TempError" then Some TempError
  else if name =? "PermError" then Some PermError
  else None.

Definition result_name (r : ResultName) : string :=
  match r with
  | RNone => "None" | Neutral => "Neutral" | Pass => "Pass" | Fail => "Fail"
  | SoftFail => "SoftFail" | TempError => "TempError" | PermError => "PermError"
  end.

Record SPFResult : Type := mkSPFResult {
  result : ResultName;
  message : string;
  mechanism : string;       (* last matched mechanism or "default" *)
  matched : list string     (* list of matched mechanisms *)
}.

(** [new SPFResult(results.X, message)] for a key known to exist: a message
    that is not a string or is empty is replaced by [messages[result]]. *)
Definition newSPFResult (r : ResultName) (msg : option string) : SPFResult :=
  let m := match msg with
           | Some s => if s =? EmptyString then messages r else s
           | None => messages r
           end in
  mkSPFResult r m "default" [].

(** ** Thrown values, state and the monad *)

Inductive Thrown : Type :=
  | ThrownResult (r : SPFResult)     (* err instanceof SPFResult *)
  | ThrownError (msg : string).      (* any other Error, with err.message *)

Inductive AddrType : Type := A | AAAA.
Inductive RRType : Type := ADDR (f : AddrType) | MX | TXT.

Record MxRecord : Type := mkMx { priority : nat; exchange : string }.

(** What [dns.resolve] hands to its callback, by record type. *)
Definition raw_records (t : RRType) : Type :=
  match t with
  | TXT => list (list string)
  | MX => list MxRecord
  | ADDR _ => list string
  end.

Inductive DnsReply (t : RRType) : Type :=
  | DnsOk (records : raw_records t)
  | DnsErr (err_message : string).
Arguments DnsOk {t} records.
Arguments DnsErr {t} err_message.

(** What [resolveDNS] resolves to: TXT segments are joined. *)
Definition resolved_records (t : RRType) : Type :=
  match t with
  | TXT => list string
  | MX => list MxRecord
  | ADDR _ => list string
  end.

(** An entry of the log: a call of [dns.resolve]; a call of [resolveDNS]
    turned down by the budget check before any query; a value thrown by a
    [throw new ...], a [reject(new ...)] or the JavaScript engine. *)
Inductive Event : Type :=
  | Issued (hostname : string) (rrtype : RRType)
  | Refused (hostname : option string) (rrtype : RRType)
  | Raised (e : Thrown).

Record State : Type := mkState {
  queryDNSCount : nat;
  warnings : list string;
  log : list Event                   (* oldest first *)
}.

Definition is_refused (e : Event) : bool :=
  match e with Refused _ _ => true | _ => false end.

(** The calls of [dns.resolve] made so far. *)
Fixpoint issued (l : list Event) : list (string * RRType) :=
  match l with
  | [] => []
  | Issued h t :: l' => (h, t) :: issued l'
  | _ :: l' => issued l'
  end.

Definition lookups (st : State) : list (string * RRType) := issued (log st).

Definition initial_state : State := mkState 0 [] [].

(** How a call ends. [Unsettled]: an exception was thrown inside the
    callback handed to [dns.resolve], outside every [try] and every
    promise; the promise of [resolveDNS] is never settled and nothing that
    awaits it resumes. [OutOfFuel] belongs to the model alone. *)
Inductive Outcome (T : Type) : Type :=
  | Returned (v : T)
  | Threw (e : Thrown)
  | Unsettled
  | OutOfFuel.
Arguments Returned {T} v.
Arguments Threw {T} e.
Arguments Unsettled {T}.
Arguments OutOfFuel {T}.

Definition M (T : Type) : Type := State -> Outcome T * State.

Definition ret {T} (v : T) : M T := fun st => (Returned v, st).
(** [throw err] of a value caught before: nothing new is raised. *)
Definition throw {T} (e : Thrown) : M T := fun st => (Threw e, st).
(** [throw new ...]: the value is raised here, and logged. *)
Definition raise {T} (e : Thrown) : M T :=
  fun st => (Threw e,
             mkState (queryDNSCount st) (warnings st) (log st ++ [Raised e])%list).
Definition out_of_fuel {T} : M T := fun st => (OutOfFuel, st).
(** An exception thrown where nothing can catch it. *)
Definition unsettled {T} : M T := fun st => (Unsettled, st).

Definition bind {T U} (m : M T) (k : T -> M U) : M U :=
  fun st =>
    match m st with
    | (Returned v, st') => k v st'
    | (Threw e, st') => (Threw e, st')
    | (Unsettled, st') => (Unsettled, st')
    | (OutOfFuel, st') => (OutOfFuel, st')
    end.

Definition try_catch {T} (m : M T) (handler : Thrown -> M T) : M T :=
  fun st =>
    match m st with
    | (Threw e, st') => handler e st'
    | other => other
    end.

Notation "x <- m ;; k" := (bind m (fun x => k))
  (at level 61, m at next level, right associativity).

Definition throw_result {T} (r : ResultName) (msg : string) : M T :=
  raise (ThrownResult (newSPFResult r (Some msg))).

(** ** External collaborators

    [ipaddr.js], [tldjs], [spf-parse] and the regular-expression engine are
    not part of the repository; the engine is parametric in them. *)

Inductive IpKind : Type := ipv4 | ipv6.

Definition IpKind_eqb (a b : IpKind) : bool :=
  match a, b with ipv4, ipv4 | ipv6, ipv6 => true | _, _ => false end.

(** One entry of [parsed.mechanisms] as [spf-parse] produces it. *)
Record ParsedMechanism : Type := mkParsed {
  p_type : string;
  p_value : option string;
  p_prefixdesc : option string
}.

Record ParseMessage : Type := mkMessage {
  msg_type : string;
  msg_message : string
}.

Record Parsed : Type := mkParsedRecord {
  valid : bool;
  parse_messages : option (list ParseMessage);   (* _.has(parsed, 'messages') *)
  mechanisms : list ParsedMechanism
}.

Record Externals : Type := mkExternals {
  Addr : Type;                                   (* ipaddr.IPv4 | ipaddr.IPv6 *)
  Cidr : Type;                                   (* [address, prefixLength] *)
  ipaddr_isValid : string -> bool;
  ipaddr_parse : string -> Addr;
  addr_kind : Addr -> IpKind;
  addr_toString : Addr -> string;
  ipaddr_parseCIDR : string -> option Cidr;      (* None: parseCIDR throws *)
  cidr_kind : Cidr -> IpKind;                    (* mechanism.address[0].kind() *)
  addr_match : Addr -> Cidr -> bool;
  tldjs_isValid : string -> bool;
  spfParse : string -> Parsed;
  RegExp_test : string -> string -> option bool
    (* new RegExp(source).test(s); None: [source] is not a regular
       expression and the constructor throws a SyntaxError *)
}.

Record SPFOptions : Type := mkOptions {
  version : nat;
  prefetch : bool;
  maxDNS : nat
}.

Definition default_options : SPFOptions := mkOptions 1 false 10.

(** ** Mechanisms at run time *)

Record Exchange : Type := mkExchange {
  ex_priority : nat;
  ex_exchange : string;
  ex_records : list string
}.

(** The closure stored in [mechanism.resolve], with the variables it
    captures: the name it will look up and the address record type. *)
Inductive Resolver : Type :=
  | ResolveA (host : option string) (rrtype : AddrType)
  | ResolveMX (host : option string) (rrtype : AddrType)
  | ResolveInclude (value : option string) (rrtype : AddrType).

Section Mechanisms.
Variable C : Type.   (* the parsed CIDR stored in mechanism.address *)

#[warnings="-register-all"]
Inductive Mechanism : Type := mkMechanism {
  m_type : string;
  m_value : option string;
  m_prefixdesc : option string;
  m_resolve : option Resolver;
  m_address : option C;
  m_records : option (list string);
  m_exchanges : option (list Exchange);
  m_includes : option (list Mechanism);
  m_evaluated : option SPFResult
}.

Definition of_parsed (p : ParsedMechanism) : Mechanism :=
  mkMechanism (p_type p) (p_value p) (p_prefixdesc p)
              None None None None None None.

Definition set_value (m : Mechanism) (v : option string) : Mechanism :=
  mkMechanism (m_type m) v (m_prefixdesc m) (m_resolve m) (m_address m)
              (m_records m) (m_exchanges m) (m_includes m) (m_evaluated m).
Definition set_resolve (m : Mechanism) (r : Resolver) : Mechanism :=
  mkMechanism (m_type m) (m_value m) (m_prefixdesc m) (Some r) (m_address m)
              (m_records m) (m_exchanges m) (m_includes m) (m_evaluated m).
Definition set_address (m : Mechanism) (a : C) : Mechanism :=
  mkMechanism (m_type m) (m_value m) (m_prefixdesc m) (m_resolve m) (Some a)
              (m_records m) (m_exchanges m) (m_includes m) (m_evaluated m).
Definition set_records (m : Mechanism) (r : list string) : Mechanism :=
  mkMechanism (m_type m) (m_value m) (m_prefixdesc m) (m_resolve m) (m_address m)
              (Some r) (m_exchanges m) (m_includes m) (m_evaluated m).
Definition set_exchanges (m : Mechanism) (e : list Exchange) : Mechanism :=
  mkMechanism (m_type m) (m_value m) (m_prefixdesc m) (m_resolve m) (m_address m)
              (m_records m) (Some e) (m_includes m) (m_evaluated m).
Definition set_includes (m : Mechanism) (i : list Mechanism) : Mechanism :=
  mkMechanism (m_type m) (m_value m) (m_prefixdesc m) (m_resolve m) (m_address m)
              (m_records m) (m_exchanges m) (Some i) (m_evaluated m).
Definition set_evaluated (m : Mechanism) (r : SPFResult) : Mechanism :=
  mkMechanism (m_type m) (m_value m) (m_prefixdesc m) (m_resolve m) (m_address m)
              (m_records m) (m_exchanges m) (m_includes m) (Some r).

(** What a call of [mechanism.resolve()] resolves to; [_.assign] copies
    its single property onto the mechanism. *)
Inductive Resolution : Type :=
  | Records (records : list string)
  | Exchanges (exchanges : list Exchange)
  | Includes (includes : list Mechanism).

(** No mechanism of type [redirect], at any depth of the resolved
    includes. *)
Fixpoint redirect_free (m : Mechanism) : bool :=
  negb (m_type m =? "redirect")
  && match m_includes m with
     | Some l => forallb redirect_free l
     | None => true
     end.

(** The depth of the resolved includes below a mechanism. *)
Fixpoint height (m : Mechanism) : nat :=
  S (match m_includes m with
     | Some l => list_max (map height l)
     | None => 0
     end).

Definition heights (l : list Mechanism) : nat := list_max (map height l).

Definition heights_opt (l : option (list Mechanism)) : nat :=
  match l with
  | Some l => heights l
  | None => 0
  end.

(** The number of mechanisms in a list and, recursively, in their
    resolved includes. *)
Fixpoint weight (m : Mechanism) : nat :=
  S (match m_includes m with
     | Some l => list_sum (map weight l)
     | None => 0
     end).

Definition weights (l : list Mechanism) : nat := list_sum (map weight l).

(** A mechanism as [resolveSPF] leaves it without [prefetch]: nothing
    resolved yet, and an [include] carries its [resolve] closure. *)
Definition lazy_form (m : Mechanism) : Prop :=
  m_includes m = None /\ (m_type m = "include" -> m_resolve m <> None).

(** An [include] that is still to be resolved by its closure. *)
Definition pending (m : Mechanism) : Prop :=
  m_type m = "include" /\ m_includes m = None /\ m_resolve m <> None.

Definition assign (m : Mechanism) (r : Resolution) : Mechanism :=
  match r with
  | Records l => set_records m l
  | Exchanges l => set_exchanges m l
  | Includes l => set_includes m l
  end.
End Mechanisms.

Arguments of_parsed {C} p.
Arguments Includes {C} includes.
Arguments Records {C} records.
Arguments Exchanges {C} exchanges.

(** ** String helpers for the JavaScript and lodash calls of the source *)

Definition dquote : string := String (ascii_of_nat 34) EmptyString.

(** [String(n)] for a non-negative integer. *)
Definition string_of_nat (n : nat) : string :=
  NilEmpty.string_of_uint (Nat.to_uint n).

(** [_.join(record, '')]. *)
Definition join (segments : list string) : string :=
  fold_right append EmptyString segments.

(** [_.startsWith(s, p)]. *)
Definition startsWith (s p : string) : bool := prefix p s.

(** [/[^\x00-\x7f]/.test(s)]. *)
Fixpoint has_non_ascii (s : string) : bool :=
  match s with
  | EmptyString => false
  | String c s' => (127 <? nat_of_ascii c)%nat || has_non_ascii s'
  end.

(** [s.indexOf('/') === -1]. *)
Fixpoint has_slash (s : string) : bool :=
  match s with
  | EmptyString => false
  | String c s' => (nat_of_ascii c =? 47)%nat || has_slash s'
  end.

(** [s.toLowerCase()] on ASCII text: the letters A-Z are lowered and every
    other character is kept. JavaScript lowers letters outside ASCII too;
    the model agrees with it on the ASCII text of a domain name. *)
Definition lower_ascii (c : ascii) : ascii :=
  let n := nat_of_ascii c in
  if ((65 <=? n) && (n <=? 90))%nat then ascii_of_nat (n + 32) else c.

Fixpoint toLowerCase (s : string) : string :=
  match s with
  | EmptyString => EmptyString
  | String c s' => String (lower_ascii c) (toLowerCase s')
  end.

(** [_.merge(dst, src)] on two arrays of strings: the entries of [src]
    overwrite those of [dst] index by index, the rest of [dst] is kept. *)
Fixpoint merge (dst src : list string) : list string :=
  match dst, src with
  | _, [] => dst
  | [], _ => src
  | _ :: dst', s :: src' => s :: merge dst' src'
  end.

(** [_.sortBy(exchanges, 'priority')]: a stable sort, ascending; an
    exchange is inserted before the first one of the same or a higher
    priority among those that followed it. *)
Fixpoint insert_by_priority (e : Exchange) (l : list Exchange) : list Exchange :=
  match l with
  | [] => [e]
  | x :: l' =>
      if (ex_priority e <=? ex_priority x)%nat then e :: l
      else x :: insert_by_priority e l'
  end.

Definition sortBy_priority (l : list Exchange) : list Exchange :=
  fold_right insert_by_priority [] l.

(** Messages of the [TypeError]s the JavaScript engine raises where the
    source dereferences [undefined]. *)
Definition err_invalid_name : string :=
  "The " ++ dquote ++ "name" ++ dquote ++ " argument must be of type string. Received undefined".
Definition err_undefined (prop : string) : string :=
  "Cannot read properties of undefined (reading '" ++ prop ++ "')".

(** ** The SPF class *)

Unset Implicit Arguments.

Section Engine.
Variable lib : Externals.
(** The DNS fixture: what [dns.resolve(hostname, rrtype, callback)] hands
    to its callback. *)
Variable dns_resolve : string -> forall t : RRType, DnsReply t.
Variable options : SPFOptions.      (* this.options *)
Variable domain : string.           (* this.domain *)

Abbreviation Mech := (Mechanism (Cidr lib)).

Definition count_lookup (lookupLimit : bool) (h : string) (t : RRType)
    (st : State) : State :=
  mkState (if lookupLimit then S (queryDNSCount st) else queryDNSCount st)
          (warnings st)
          (log st ++ [Issued h t])%list.

Definition refuse_lookup (h : option string) (t : RRType) (st : State)
    : State :=
  mkState (queryDNSCount st) (warnings st) (log st ++ [Refused h t])%list.

Definition not_found_pattern (hostname : string) : string :=
  "queryTxt (ENOTFOUND|ENODATA) " ++ hostname.

Definition deliver (t : RRType) : raw_records t -> resolved_records t :=
  match t with
  | TXT => fun records => map join records
  | MX => fun records => records
  | ADDR _ => fun records => records
  end.

(** [resolveDNS(hostname, rrtype, lookupLimit)]; [dns.resolve] throws
    synchronously, before any query, on a name that is not a string. The
    pattern of the error test is built from the hostname as it is, inside
    the callback: when it is not a regular expression the [SyntaxError] is
    thrown there, after the counter was incremented, and neither [resolve]
    nor [reject] is ever called. *)
Definition resolveDNS (hostname : option string) (rrtype : RRType)
    (lookupLimit : option bool) : M (resolved_records rrtype) :=
  fun st =>
    let lookupLimit := match lookupLimit with
                       | None => true
                       | Some b => b
                       end in
    if lookupLimit && (maxDNS options <=? queryDNSCount st)%nat then
      throw (ThrownResult
               (newSPFResult PermError (Some "Limit of DNS lookups reached")))
            (refuse_lookup hostname rrtype st)
    else
      match hostname with
      | None => raise (ThrownError err_invalid_name) st
      | Some h =>
          let st' := count_lookup lookupLimit h rrtype st in
          match dns_resolve h rrtype with
          | DnsErr msg =>
              match RegExp_test lib (not_found_pattern h) msg with
              | Some true =>
                  throw_result RNone "Domain does not exists" st'
              | Some false =>
                  raise (ThrownResult (newSPFResult TempError (Some msg))) st'
              | None => unsettled st'
              end
          | DnsOk records => ret (deliver rrtype records) st'
          end
      end.

(** The loop of [resolveMX] over the exchanges. *)
Fixpoint resolve_exchanges (exchanges : list MxRecord) (rrtype : AddrType)
    : M (list Exchange) :=
  match exchanges with
  | [] => ret []
  | e :: rest =>
      records <- resolveDNS (Some (exchange e)) (ADDR rrtype) (Some false) ;;
      rest' <- resolve_exchanges rest rrtype ;;
      ret (mkExchange (priority e) (exchange e) records :: rest')
  end.

Definition resolveMX (hostname : option string) (rrtype : AddrType)
    : M (list Exchange) :=
  exchanges <- resolveDNS hostname MX None ;;
  if (maxDNS options <=? List.length exchanges)%nat then
    throw_result PermError
      "Limit of DNS lookups reached when processing MX mechanism"
  else
    resolved <- resolve_exchanges exchanges rrtype ;;
    ret (sortBy_priority resolved).

(** [mechanism.value || hostname]: an undefined or empty value yields the
    hostname. *)
Definition value_or (value hostname : option string) : option string :=
  match value with
  | Some v => if v =? EmptyString then hostname else Some v
  | None => hostname
  end.

Definition version_tag : string :=
  "v=spf" ++ string_of_nat (version options) ++ " ".

(** [mechanism.resolve()], given [this.resolveSPF]. *)
Definition run_resolver
    (resolveSPF : option string -> AddrType -> M (list Mech))
    (r : Resolver) : M (Resolution (Cidr lib)) :=
  match r with
  | ResolveA host rrtype =>
      records <- resolveDNS host (ADDR rrtype) None ;;
      ret (Records records)
  | ResolveMX host rrtype =>
      exchanges <- resolveMX host rrtype ;;
      ret (Exchanges exchanges)
  | ResolveInclude value rrtype =>
      includes <- resolveSPF value rrtype ;;
      ret (Includes includes)
  end.

(** The part of the loop body of [resolveSPF] that attaches [resolve]
    closures and parses [ip4]/[ip6] networks. *)
Definition attach (hostname : option string) (rrtype : AddrType)
    (mechanism : Mech) : M Mech :=
  let mechanism :=
    if m_type mechanism =? "a" then
      set_resolve mechanism (ResolveA (value_or (m_value mechanism) hostname) rrtype)
    else mechanism in
  let mechanism :=
    if m_type mechanism =? "mx" then
      set_resolve mechanism (ResolveMX (value_or (m_value mechanism) hostname) rrtype)
    else mechanism in
  mechanism <-
    (if (m_type mechanism =? "ip4") || (m_type mechanism =? "ip6") then
       match m_value mechanism with
       | None => raise (ThrownError (err_undefined "indexOf"))
       | Some v =>
           let v := if has_slash v then v
                    else v ++ (if m_type mechanism =? "ip4" then "/32" else "/128") in
           let mechanism := set_value mechanism (Some v) in
           match ipaddr_parseCIDR lib v with
           | Some address => ret (set_address mechanism address)
           | None =>
               throw_result PermError
                 ("Malformed " ++ dquote ++ m_type mechanism ++ dquote ++ " address")
           end
       end
     else ret mechanism) ;;
  ret (if m_type mechanism =? "include" then
         set_resolve mechanism (ResolveInclude (m_value mechanism) rrtype)
       else mechanism).

(** The [for] loop of [resolveSPF]: [todo] are the entries of
    [parsed.mechanisms] from index [i] on, [resolved] the list built so
    far. *)
Fixpoint resolve_loop
    (resolveSPF : option string -> AddrType -> M (list Mech))
    (hostname : option string) (rrtype : AddrType) (catchAll : bool)
    (todo : list ParsedMechanism) (resolved : list Mech) : M (list Mech) :=
  match todo with
  | [] => ret resolved
  | parsed :: rest =>
      let mechanism : Mech := of_parsed parsed in
      if m_type mechanism =? "redirect" then
        resolved <-
          (if negb catchAll then
             target <- resolveSPF (m_value mechanism) rrtype ;;
             ret (resolved ++ target)%list
           else ret resolved) ;;
        resolve_loop resolveSPF hostname rrtype catchAll rest resolved
      else
        mechanism <- attach hostname rrtype mechanism ;;
        mechanism <-
          (match m_resolve mechanism with
           | Some r =>
               if prefetch options then
                 resolution <- run_resolver resolveSPF r ;;
                 ret (assign mechanism resolution)
               else ret mechanism
           | None => ret mechanism
           end) ;;
        let resolved := (resolved ++ [mechanism])%list in
        if m_type mechanism =? "all" then ret resolved
        else resolve_loop resolveSPF hostname rrtype catchAll rest resolved
  end.

(** [_.some(parsed.mechanisms, ['type', 'all'])]. *)
Definition catch_all (parsed_mechanisms : list ParsedMechanism) : bool :=
  existsb (fun p => p_type p =? "all") parsed_mechanisms.

(** The loop of [resolveSPF] started on a parsed policy, with its
    [catchAll] flag and an empty [resolved]. *)
Definition resolve_policy
    (resolveSPF : option string -> AddrType -> M (list Mech))
    (hostname : option string) (rrtype : AddrType)
    (parsed_mechanisms : list ParsedMechanism) : M (list Mech) :=
  resolve_loop resolveSPF hostname rrtype (catch_all parsed_mechanisms)
               parsed_mechanisms [].

Definition is_message (kind : string) (m : ParseMessage) : bool :=
  msg_type m =? kind.

Definition add_warnings (w : list string) : M unit :=
  fun st => (Returned tt,
             mkState (queryDNSCount st) (warnings st ++ w)%list (log st)).

(** The body of [resolveSPF], with the recursive call abstracted. *)
Definition resolveSPF_body
    (resolveSPF : option string -> AddrType -> M (list Mech))
    (hostname : option string) (rrtype : AddrType) : M (list Mech) :=
  txt <- resolveDNS hostname TXT None ;;
  let records := filter (fun record => startsWith record version_tag) txt in
  match records with
  | [] =>
      throw_result RNone "Assume that the domain makes no SPF declarations"
  | _ :: _ :: _ =>
      throw_result PermError "There should be exactly one record remaining"
  | [record] =>
      if has_non_ascii record then
        throw_result PermError
          "Character content of the record should be encoded as US-ASCII"
      else
        let parsed := spfParse lib record in
        if negb (valid parsed) then
          throw_result PermError "There shouldn't be any syntax errors"
        else
          _ <- (match parse_messages parsed with
                | Some msgs =>
                    match filter (is_message "error") msgs with
                    | e :: _ =>
                        raise (ThrownResult
                                 (newSPFResult PermError (Some (msg_message e))))
                    | [] =>
                        add_warnings
                          (map msg_message (filter (is_message "warning") msgs))
                    end
                | None => ret tt
                end) ;;
          resolve_policy resolveSPF hostname rrtype (mechanisms parsed)
  end.

Fixpoint resolveSPF (fuel : nat) (hostname : option string)
    (rrtype : AddrType) : M (list Mech) :=
  match fuel with
  | O => out_of_fuel
  | S fuel' => resolveSPF_body (resolveSPF fuel') hostname rrtype
  end.

(** Fuel for the calls of [resolveSPF]: every call starts with a budgeted
    TXT lookup, so [maxDNS + 1] nested calls cannot all pass the budget
    check ([total_resolveSPF] below). *)
Definition resolve_fuel : nat := S (maxDNS options).

Definition getMechanisms (rrtype : AddrType) : M (list Mech) :=
  mechanisms <-
    try_catch (resolveSPF resolve_fuel (Some domain) rrtype)
      (fun err =>
         match err with
         | ThrownResult _ => throw err
         | ThrownError msg =>
             raise (ThrownResult (newSPFResult TempError (Some msg)))
         end) ;;
  match mechanisms with
  | [] => throw_result TempError "No mechanisms found"
  | _ => ret mechanisms
  end.

(** ['...' + value + '...'] with a possibly undefined value. *)
Definition show (value : option string) : string :=
  match value with
  | Some v => v
  | None => "undefined"
  end.

Definition includes_string (l : option (list string)) (s : string) : bool :=
  match l with
  | Some l => existsb (String.eqb s) l
  | None => false
  end.

(** The loop of the [mx] case of [match]. *)
Fixpoint match_exchanges (exchanges : list Exchange) (addr : option (Addr lib))
    : M bool :=
  match exchanges with
  | [] => ret false
  | e :: rest =>
      match addr with
      | None => raise (ThrownError (err_undefined "toString"))
      | Some a =>
          if includes_string (Some (ex_records e)) (addr_toString lib a)
          then ret true
          else match_exchanges rest addr
      end
  end.

Definition validation_missed (value : option string) : string :=
  "Validation for " ++ dquote ++ "include:" ++ show value ++ dquote ++ " missed".

(** [match(mechanism, addr)]; [evaluateInclude] calls it without [addr]. *)
Definition match_ (mechanism : Mech) (addr : option (Addr lib)) : M bool :=
  let type := m_type mechanism in
  if type =? "version" then
    if match m_value mechanism with
       | Some v => v =? "spf" ++ string_of_nat (version options)
       | None => false
       end
    then ret false
    else throw_result PermError
           ("Version " ++ dquote ++ show (m_value mechanism) ++ dquote ++ " not supported")
  else if type =? "a" then
    match addr with
    | None => raise (ThrownError (err_undefined "toString"))
    | Some a => ret (includes_string (m_records mechanism) (addr_toString lib a))
    end
  else if type =? "mx" then
    match m_exchanges mechanism with
    | None => raise (ThrownError (err_undefined "length"))
    | Some exchanges => match_exchanges exchanges addr
    end
  else if (type =? "ip4") || (type =? "ip6") then
    match addr with
    | None => raise (ThrownError (err_undefined "kind"))
    | Some a =>
        match m_address mechanism with
        | None => raise (ThrownError (err_undefined "0"))
        | Some address =>
            if negb (IpKind_eqb (addr_kind lib a) (cidr_kind lib address))
            then ret false
            else ret (addr_match lib a address)
        end
    end
  else if type =? "include" then
    match m_evaluated mechanism with
    | None => raise (ThrownError (err_undefined "result"))
    | Some evaluated =>
        if ResultName_eqb (result evaluated) RNone then
          throw_result PermError (validation_missed (m_value mechanism))
        else ret (ResultName_eqb (result evaluated) Pass)
    end
  else if type =? "all" then ret true
  else throw_result PermError
         ("Mechanism " ++ dquote ++ type ++ dquote ++ " not supported").

(** [new SPFResult(mechanism.prefixdesc)]: the constructor throws a
    [TypeError] when the name is not a key of [results]. *)
Definition result_of_prefixdesc (name : option string) : M SPFResult :=
  match name with
  | Some n =>
      match results_key n with
      | Some r => ret (newSPFResult r None)
      | None =>
          raise (ThrownError ("Result " ++ dquote ++ n ++ dquote ++ " not found"))
      end
  | None =>
      raise (ThrownError
               ("Result " ++ dquote ++ "undefined" ++ dquote ++ " not found"))
  end.

(** The block shared by [evaluate] and [evaluateInclude] that builds the
    result of a matching mechanism. *)
Definition matched_result (mechanism : Mech) : M SPFResult :=
  r <- result_of_prefixdesc (m_prefixdesc mechanism) ;;
  let type := m_type mechanism in
  if type =? "include" then
    match m_evaluated mechanism with
    | Some evaluated =>
        ret (mkSPFResult (result r) (message r) type
                         (merge [type] (matched evaluated)))
    | None => raise (ThrownError (err_undefined "matched"))
    end
  else ret (mkSPFResult (result r) (message r) type [type]).

(** [if (!this.options.prefetch && mechanism.resolve) _.assign(...)]. *)
Definition resolve_lazily (mechanism : Mech) : M Mech :=
  match m_resolve mechanism with
  | Some r =>
      if negb (prefetch options) then
        resolution <- run_resolver (resolveSPF resolve_fuel) r ;;
        ret (assign mechanism resolution)
      else ret mechanism
  | None => ret mechanism
  end.

(** The [for] loop of [evaluate], with the recursive call abstracted. *)
Fixpoint evaluate_loop
    (evaluate : option (list Mech) -> Addr lib -> M SPFResult)
    (mechanisms : list Mech) (addr : Addr lib) : M SPFResult :=
  match mechanisms with
  | [] => ret (newSPFResult Neutral None)
  | mechanism :: rest =>
      mechanism <- resolve_lazily mechanism ;;
      mechanism <-
        (if m_type mechanism =? "include" then
           evaluated <- evaluate (m_includes mechanism) addr ;;
           ret (set_evaluated mechanism evaluated)
         else ret mechanism) ;;
      hit <- match_ mechanism (Some addr) ;;
      if hit then matched_result mechanism
      else evaluate_loop evaluate rest addr
  end.

(** [evaluate(mechanisms, addr)]; [mechanisms.length] on [undefined]
    throws. *)
Fixpoint evaluate (fuel : nat) (mechanisms : option (list Mech))
    (addr : Addr lib) : M SPFResult :=
  match fuel with
  | O => out_of_fuel
  | S fuel' =>
      match mechanisms with
      | None => raise (ThrownError (err_undefined "length"))
      | Some l => evaluate_loop (evaluate fuel') l addr
      end
  end.

(** The [catch] block of [check] and [checkInclude]. *)
Definition result_of_thrown (err : Thrown) : M SPFResult :=
  match err with
  | ThrownResult r => ret r
  | ThrownError msg => ret (newSPFResult PermError (Some msg))
  end.

Definition rrtype_of (k : IpKind) : AddrType :=
  match k with ipv4 => A | ipv6 => AAAA end.

Definition check (fuel : nat) (ip : string) : M SPFResult :=
  if negb (ipaddr_isValid lib ip) then
    ret (newSPFResult RNone (Some "Malformed IP for comparison"))
  else if negb (tldjs_isValid lib domain) then
    ret (newSPFResult RNone
           (Some "No SPF record can be found on malformed domain"))
  else
    let addr := ipaddr_parse lib ip in
    try_catch
      (mechanisms <- getMechanisms (rrtype_of (addr_kind lib addr)) ;;
       evaluate fuel (Some mechanisms) addr)
      result_of_thrown.

(** ** The include searcher *)

Definition is_include (m : Mech) : bool := m_type m =? "include".

(** The test of the first loop of [evaluateInclude]. *)
Definition names_domain (requiredDomain : string) (m : Mech) : bool :=
  match m_value m with
  | Some v =>
      negb (v =? EmptyString) && (toLowerCase v =? toLowerCase requiredDomain)
  | None => false
  end.

(** What the [try/catch] around [mechanism.resolve()] leaves behind. *)
Inductive Attempt : Type :=
  | Resolved (mechanism : Mech)   (* resolved, or nothing to resolve *)
  | Skipped                       (* resolution threw None: continue *)
  | Swallowed.                    (* an untyped error, silently dropped *)

Definition attempt_resolve (mechanism : Mech) : M Attempt :=
  match m_resolve mechanism with
  | Some r =>
      if negb (prefetch options) then
        try_catch
          (resolution <- run_resolver (resolveSPF resolve_fuel) r ;;
           ret (Resolved (assign mechanism resolution)))
          (fun err =>
             match err with
             | ThrownResult e =>
                 if ResultName_eqb (result e) RNone then ret Skipped
                 else throw err
             | ThrownError _ => ret Swallowed
             end)
      else ret (Resolved mechanism)
  | None => ret (Resolved mechanism)
  end.

(** [includeMechanisms.slice(i + 1)]. *)
Definition slice_from (i : nat) (l : list Mech) : list Mech := skipn i l.

Definition included (mechanisms : list Mech) : list Mech :=
  filter is_include mechanisms.

(** [evaluateInclude(mechanisms, domain, includeMechanisms)] and its
    second loop, from index [i] on the array [includeMechanisms].

    The array handed to the recursive call is the one the caller keeps in
    its variable, so the entries the callee pushes on entry are in the
    caller's array when the call returns: the loop continues on
    [slice ++ included(mechanism.includes)].

    The mechanisms themselves are passed by value. A mechanism object is
    mutated only by [_.assign] from its own [resolve] and by the write of
    [evaluated]. [evaluated] is written before it is read at every visit.
    [includes] is read as an earlier visit left it only when [resolve]
    threw an untyped error that the [catch] dropped; the DNS fixture being
    a function, an earlier visit, which had at least as much budget left,
    met the same error and assigned nothing either. *)
Fixpoint evaluateInclude (fuel : nat) (mechanisms : option (list Mech))
    (requiredDomain : string) (includeMechanisms : option (list Mech))
    {struct fuel} : M SPFResult :=
  match fuel with
  | O => out_of_fuel
  | S fuel' =>
      let includeMechanisms :=
        match includeMechanisms with
        | Some l => l
        | None => []
        end in
      match mechanisms with
      | None => raise (ThrownError (err_undefined "filter"))
      | Some mechanisms =>
          let includeMechanisms :=
            (includeMechanisms ++ included mechanisms)%list in
          match includeMechanisms with
          | [] => ret (newSPFResult Fail None)
          | _ =>
              if existsb (names_domain requiredDomain) includeMechanisms
              then ret (newSPFResult Pass None)
              else include_loop fuel' requiredDomain includeMechanisms 0
          end
      end
  end
with include_loop (fuel : nat) (requiredDomain : string)
    (includeMechanisms : list Mech) (i : nat) {struct fuel} : M SPFResult :=
  match fuel with
  | O => out_of_fuel
  | S fuel' =>
      match nth_error includeMechanisms i with
      | None => ret (newSPFResult Fail None)
      | Some mechanism =>
          attempt <- attempt_resolve mechanism ;;
          match attempt with
          | Skipped =>
              include_loop fuel' requiredDomain includeMechanisms (S i)
          | other =>
              let mechanism :=
                match other with
                | Resolved m => m
                | _ => mechanism
                end in
              state <-
                (if m_type mechanism =? "include" then
                   let rest := slice_from (S i) includeMechanisms in
                   evaluated <- evaluateInclude fuel' (m_includes mechanism)
                                  requiredDomain (Some rest) ;;
                   ret (set_evaluated mechanism evaluated,
                        (rest ++ included
                                   (match m_includes mechanism with
                                    | Some l => l
                                    | None => []
                                    end))%list)
                 else ret (mechanism, includeMechanisms)) ;;
              let (mechanism, includeMechanisms) := state in
              match m_evaluated mechanism with
              | None => raise (ThrownError (err_undefined "result"))
              | Some evaluated =>
                  if ResultName_eqb (result evaluated) RNone then
                    throw_result PermError
                      (validation_missed (m_value mechanism))
                  else
                    hit <- match_ mechanism None ;;
                    if hit then matched_result mechanism
                    else include_loop fuel' requiredDomain
                                      includeMechanisms (S i)
              end
          end
      end
  end.

Definition checkInclude (fuel : nat) (requiredDomain : string)
    : M SPFResult :=
  if negb (tldjs_isValid lib domain) then
    ret (newSPFResult RNone
           (Some "No SPF record can be found on malformed domain"))
  else
    try_catch
      (mechanisms <- getMechanisms A ;;
       evaluateInclude fuel (Some mechanisms) requiredDomain None)
      result_of_thrown.

End Engine.

(** ** A concrete fixture

    Small stand-ins for the external libraries and a table-driven DNS, used
    to run the engine on concrete inputs. *)
Module Fixture.

(** A regular expression made of literal characters and [.], searched
    anywhere in the subject; [.] matches any character but a line
    terminator. *)
Fixpoint match_here (pattern s : string) : bool :=
  match pattern, s with
  | EmptyString, _ => true
  | String _ _, EmptyString => false
  | String p pattern', String c s' =>
      (if Ascii.eqb p "."
       then negb (Ascii.eqb c "010" || Ascii.eqb c "013")
       else Ascii.eqb p c)
      && match_here pattern' s'
  end.

Fixpoint search (pattern s : string) : bool :=
  match_here pattern s
  || match s with
     | EmptyString => false
     | String _ s' => search pattern s'
     end.

Definition alternation : string := "queryTxt (ENOTFOUND|ENODATA) ".

Fixpoint contains_char (c : ascii) (s : string) : bool :=
  match s with
  | EmptyString => false
  | String d s' => Ascii.eqb c d || contains_char c s'
  end.

(** [new RegExp(source).test(s)] for the sources the engine builds:
    the alternation followed by a name made of letters, digits, [-], [_],
    [.] and the opening bracket. A bracket in such a name opens a
    character class that nothing closes: the constructor throws. *)
Definition regexp_test (source s : string) : option bool :=
  if prefix alternation source then
    let name := substring (String.length alternation)
                          (String.length source - String.length alternation)
                          source in
    if contains_char "[" name then None
    else Some (search ("queryTxt ENOTFOUND " ++ name) s
               || search ("queryTxt ENODATA " ++ name) s)
  else Some false.

(** Addresses are kept as their text; a network is the text of its
    address and its prefix length, and only host networks (/32, /128)
    are told apart. *)
Definition kind_of (ip : string) : IpKind :=
  if contains_char ":" ip then ipv6 else ipv4.

Definition valid_ips : list string :=
  ["127.0.0.1"; "192.168.0.1"; "192.168.0.7"; "2001:db8::cb01"].

Definition parse_cidr (s : string) : option (string * nat) :=
  if s =? "127.0.0.1/32" then Some ("127.0.0.1", 32)
  else if s =? "192.168.0.1/32" then Some ("192.168.0.1", 32)
  else if s =? "2001:db8::cb01/128" then Some ("2001:db8::cb01", 128)
  else None.

Definition valid_domain (d : string) : bool :=
  negb (d =? EmptyString) && negb (contains_char "<" d)
  && negb (contains_char " " d).

Definition prefix_desc (qualifier : string) : option string :=
  if qualifier =? "+" then Some "Pass"
  else if qualifier =? "-" then Some "Fail"
  else if qualifier =? "~" then Some "SoftFail"
  else if qualifier =? "?" then Some "Neutral"
  else None.

Definition mech (qualifier type : string) (value : option string)
    : ParsedMechanism :=
  mkParsed type value (prefix_desc qualifier).

Definition v1 : ParsedMechanism := mkParsed "version" (Some "spf1") None.

Definition policy (l : list ParsedMechanism) : Parsed :=
  mkParsedRecord true None l.

(** The records the fixture's parser knows, as [spf-parse] reads them. *)
Definition parse (record : string) : Parsed :=
  if record =? "v=spf1 ip4:127.0.0.1" then
    policy [v1; mech "+" "ip4" (Some "127.0.0.1")]
  else if record =? "v=spf1 a" then
    policy [v1; mech "+" "a" None]
  else if record =? "v=spf1 +all" then
    policy [v1; mech "+" "all" None]
  else if record =? "v=spf1 include:_spf.example.com" then
    policy [v1; mech "+" "include" (Some "_spf.example.com")]
  else if record =? "v=spf1 include:_spf1.example.com" then
    policy [v1; mech "+" "include" (Some "_spf1.example.com")]
  else if record =? "v=spf1 ~include:_spf1.example.com" then
    policy [v1; mech "~" "include" (Some "_spf1.example.com")]
  else if record =? "v=spf1 include:_spf2.example.com" then
    policy [v1; mech "+" "include" (Some "_spf2.example.com")]
  else if record =? "v=spf1 include:missing.example.com" then
    policy [v1; mech "+" "include" (Some "missing.example.com")]
  else if record =? "v=spf1 -all redirect=_spf.example.com a" then
    policy [v1; mech "-" "all" None;
            mech "+" "redirect" (Some "_spf.example.com");
            mech "+" "a" None]
  else if record =? "v=spf1 redirect=_spf.example.com" then
    policy [v1; mech "+" "redirect" (Some "_spf.example.com")]
  else if record =? "v=spf1 a -all" then
    policy [v1; mech "+" "a" None; mech "-" "all" None]
  else if record =? "v=spf1 include:a.example.com include:b.example.com include:c.example.com include:d.example.com include:e.example.com" then
    policy [v1; mech "+" "include" (Some "a.example.com");
            mech "+" "include" (Some "b.example.com");
            mech "+" "include" (Some "c.example.com");
            mech "+" "include" (Some "d.example.com");
            mech "+" "include" (Some "e.example.com")]
  else mkParsedRecord false None [].

Definition lib : Externals :=
  {| Addr := string;
     Cidr := string * nat;
     ipaddr_isValid := fun ip => existsb (String.eqb ip) valid_ips;
     ipaddr_parse := fun ip => ip;
     addr_kind := kind_of;
     addr_toString := fun a => a;
     ipaddr_parseCIDR := parse_cidr;
     cidr_kind := fun c => kind_of (fst c);
     addr_match := fun a c => a =? fst c;
     tldjs_isValid := valid_domain;
     spfParse := parse;
     RegExp_test := regexp_test |}.

Fixpoint lookup {T} (name : string) (table : list (string * T)) : option T :=
  match table with
  | [] => None
  | (n, v) :: rest => if n =? name then Some v else lookup name rest
  end.

Definition syscall (t : RRType) : string :=
  match t with
  | TXT => "queryTxt"
  | MX => "queryMx"
  | ADDR A => "queryA"
  | ADDR AAAA => "queryAaaa"
  end.

(** A DNS with TXT and A records only; a name without an entry fails the
    way Node reports it: [<syscall> ENOTFOUND <name>]. *)
Definition dns (txt : list (string * list (list string)))
    (a : list (string * list string)) (name : string) (t : RRType)
    : DnsReply t :=
  match t return DnsReply t with
  | TXT =>
      match lookup name txt with
      | Some records => @DnsOk TXT records
      | None => DnsErr (syscall TXT ++ " ENOTFOUND " ++ name)
      end
  | ADDR f =>
      match f, lookup name a with
      | A, Some records => @DnsOk (ADDR f) records
      | _, _ => DnsErr (syscall (ADDR f) ++ " ENOTFOUND " ++ name)
      end
  | MX => DnsErr (syscall MX ++ " ENOTFOUND " ++ name)
  end.

(** The DNS zones of the scenarios below. *)
Definition no_records : string -> forall t : RRType, DnsReply t :=
  dns [] [].

Definition zone_include : string -> forall t : RRType, DnsReply t :=
  dns [("example.com", [["v=spf1 include:_spf.example.com"]]);
       ("_spf.example.com", [["v=spf1 +all"]])] [].

Definition zone_chain : string -> forall t : RRType, DnsReply t :=
  dns [("example.com", [["v=spf1 include:_spf1.example.com"]]);
       ("_spf1.example.com", [["v=spf1 include:_spf2.example.com"]]);
       ("_spf2.example.com", [["v=spf1 ip4:127.0.0.1"]])] [].

Definition zone_soft_chain : string -> forall t : RRType, DnsReply t :=
  dns [("example.com", [["v=spf1 ~include:_spf1.example.com"]]);
       ("_spf1.example.com", [["v=spf1 include:_spf2.example.com"]]);
       ("_spf2.example.com", [["v=spf1 ip4:127.0.0.1"]])] [].

Definition zone_missing_include : string -> forall t : RRType, DnsReply t :=
  dns [("example.com", [["v=spf1 include:missing.example.com"]])] [].

Definition zone_no_spf : string -> forall t : RRType, DnsReply t :=
  dns [("example.com", [["google-site-verification=abc"]])] [].

Definition zone_two_spf : string -> forall t : RRType, DnsReply t :=
  dns [("example.com", [["v=spf1 ip4:127.0.0.1"]; ["v=spf1 "; "a"]])] [].

Definition zone_all_redirect : string -> forall t : RRType, DnsReply t :=
  dns [("example.com", [["v=spf1 -all redirect=_spf.example.com a"]]);
       ("_spf.example.com", [["v=spf1 +all"]])] [].

Definition zone_redirect : string -> forall t : RRType, DnsReply t :=
  dns [("example.com", [["v=spf1 redirect=_spf.example.com"]]);
       ("_spf.example.com", [["v=spf1 +all"]])] [].

(** Five sibling includes, each a policy without includes. *)
Definition zone_five_includes : string -> forall t : RRType, DnsReply t :=
  dns [("example.com",
        [["v=spf1 include:a.example.com include:b.example.com include:c.example.com include:d.example.com include:e.example.com"]]);
       ("a.example.com", [["v=spf1 ip4:127.0.0.1"]]);
       ("b.example.com", [["v=spf1 ip4:127.0.0.1"]]);
       ("c.example.com", [["v=spf1 ip4:127.0.0.1"]]);
       ("d.example.com", [["v=spf1 ip4:127.0.0.1"]]);
       ("e.example.com", [["v=spf1 ip4:127.0.0.1"]])] [].

(** A budget of a single lookup. *)
Definition one_lookup : SPFOptions := mkOptions 1 false 1.

End Fixture.

(** ** Vocabulary of the properties *)

(** The result thrown by the budget check of [resolveDNS]. *)
Definition limit_reached : SPFResult :=
  newSPFResult PermError (Some "Limit of DNS lookups reached").

(** The value a failure event sends up the call stack. *)
Definition thrown_of (ev : Event) : option Thrown :=
  match ev with
  | Issued _ _ => None
  | Refused _ _ => Some (ThrownResult limit_reached)
  | Raised e => Some e
  end.

(** What the [catch] of [check] and [checkInclude] makes of a thrown
    value. *)
Definition caught_result (e : Thrown) : SPFResult :=
  match e with
  | ThrownResult r => r
  | ThrownError msg => newSPFResult PermError (Some msg)
  end.

(** Kinds of failure events. *)
Definition is_failure (ev : Event) : bool :=
  match ev with Issued _ _ => false | _ => true end.

Definition is_typed (ev : Event) : bool :=
  match ev with
  | Refused _ _ | Raised (ThrownResult _) => true
  | _ => false
  end.

Definition is_typed_not_None (ev : Event) : bool :=
  match ev with
  | Refused _ _ => true
  | Raised (ThrownResult r) => negb (ResultName_eqb (result r) RNone)
  | _ => false
  end.

(** No call has been refused so far. *)
Definition clean (st : State) : Prop := existsb is_refused (log st) = false.

(** The last entry of the log is the only refusal. *)
Definition ends_refused (st : State) : Prop :=
  exists l h t, log st = (l ++ [Refused h t])%list /\ existsb is_refused l = false.

Section Budget.
Variable options : SPFOptions.
(** The failure events that are followed. *)
Variable bad : Event -> bool.

(** The last entry of the log is the only followed failure, and its
    value is what came out. *)
Definition ends_with {T} (o : Outcome T) (st' : State) : Prop :=
  exists l ev e,
    log st' = (l ++ [ev])%list /\ existsb bad l = false /\ bad ev = true
    /\ thrown_of ev = Some e /\ o = Threw e.

(** What an operation of a check guarantees between the state it
    starts in and the state it leaves: the counter does not decrease, it
    stays within the budget once within it, and a followed failure is
    the last thing that happens and is the value thrown. *)
Definition Post {T} (st : State) (o : Outcome T) (st' : State) : Prop :=
  queryDNSCount st <= queryDNSCount st'
  /\ (queryDNSCount st <= maxDNS options ->
      queryDNSCount st' <= maxDNS options)
  /\ (existsb bad (log st) = false ->
      existsb bad (log st') = false \/ ends_with o st').

Definition sound {T} (m : M T) : Prop :=
  forall st, Post st (fst (m st)) (snd (m st)).

(** The same at the top of a check, where the value has been caught and
    is returned. *)
Definition returned_failure (o : Outcome SPFResult) (st' : State) : Prop :=
  exists l ev e,
    log st' = (l ++ [ev])%list /\ existsb bad l = false /\ bad ev = true
    /\ thrown_of ev = Some e /\ o = Returned (caught_result e).

(** A handler that lets the followed failures through. *)
Definition rethrows {T} (handler : Thrown -> M T) : Prop :=
  forall ev e, bad ev = true -> thrown_of ev = Some e ->
               handler e = throw e.

(** [m] does not run out of fuel from a state whose counter is at least
    [k]. *)
Definition total_from {T} (k : nat) (m : M T) : Prop :=
  forall st, k <= queryDNSCount st -> fst (m st) <> OutOfFuel.
End Budget.

(** [m], when it returns, returns a value satisfying [P]. *)
Definition returns {T} (P : T -> Prop) (m : M T) : Prop :=
  forall st v st', m st = (Returned v, st') -> P v.

(** The outcomes after which the include searcher goes on: a value, or a
    thrown None. *)
Definition goes_on {T} (o : Outcome T) : Prop :=
  match o with
  | Returned _ => True
  | Threw (ThrownResult r) => result r = RNone
  | _ => False
  end.

(** [m], when it returns or throws None, has passed the budget check and
    counted at least one lookup. *)
Definition consumes (options : SPFOptions) {T} (m : M T) : Prop :=
  forall st o st',
    m st = (o, st') -> goes_on o ->
    queryDNSCount st < maxDNS options
    /\ S (queryDNSCount st) <= queryDNSCount st'.

(** The pattern of the error test of every failing lookup is a regular
    expression: [new RegExp] does not throw on it. *)
Definition patterns_build (lib : Externals)
    (dns_resolve : string -> forall t : RRType, DnsReply t) : Prop :=
  forall h t msg,
    dns_resolve h t = DnsErr msg ->
    RegExp_test lib (not_found_pattern h) msg <> None.

(** [m] never ends with an exception thrown inside a callback. *)
Definition settles {T} (m : M T) : Prop :=
  forall st, fst (m st) <> Unsettled.

(** The state [st] with the entries [l] put before its log: what earlier
    checks on the same instance left there. *)
Definition earlier (l : list Event) (st : State) : State :=
  mkState (queryDNSCount st) (warnings st) (l ++ log st)%list.

(** The state [st'] with its log cut down to what was logged since
    [st]. *)
Definition during (st st' : State) : State :=
  mkState (queryDNSCount st') (warnings st')
          (skipn (List.length (log st)) (log st')).

(** [m] does not read the log: with entries put before it, [m] ends the
    same way and leaves them before what it logs. *)
Definition log_blind {T} (m : M T) : Prop :=
  forall l st, m (earlier l st) = (fst (m st), earlier l (snd (m st))).

(** The parsed entries that are not [redirect] modifiers. *)
Definition not_redirect (p : ParsedMechanism) : bool :=
  negb (p_type p =? "redirect").

(** Lists of resolved mechanisms without a [redirect] at any depth. *)
Definition all_redirect_free (lib : Externals)
    (l : list (Mechanism (Cidr lib))) : Prop :=
  forallb (@redirect_free (Cidr lib)) l = true.

(** Lists of resolved mechanisms whose last element, and no other, is an
    [all] mechanism. *)
Definition ends_with_all (lib : Externals)
    (l : list (Mechanism (Cidr lib))) : Prop :=
  exists l' m,
    l = (l' ++ [m])%list /\ m_type m = "all"
    /\ forallb (fun x => negb (m_type x =? "all")) l' = true.

(** ** The constructor of [SPF] and the exported function *)

(** The option object a caller may pass, with the properties the
    constructor reads; an absent property is [None]. *)
Record OptionsArg : Type := mkOptionsArg {
  o_domain : option string;
  o_sender : option string;
  o_version : option nat;
  o_prefetch : option bool;
  o_maxDNS : option nat
}.

Definition no_options : OptionsArg := mkOptionsArg None None None None None.

(** An argument of the constructor: [undefined], a string or an option
    object. *)
Inductive Arg : Type :=
  | Undefined
  | Str (s : string)
  | Obj (o : OptionsArg).

(** The fields of an instance. *)
Record SPF : Type := mkSPF {
  spf_domain : string;
  spf_sender : string;
  spf_warnings : list string;
  spf_queryDNSCount : nat;
  spf_options : SPFOptions
}.

Definition isObject (a : Arg) : bool :=
  match a with Obj _ => true | _ => false end.

Definition isUndefined (a : Arg) : bool :=
  match a with Undefined => true | _ => false end.

(** The named properties of [options]; a string or [undefined] has none
    of them. *)
Definition properties (options : Arg) : OptionsArg :=
  match options with
  | Obj o => o
  | _ => no_options
  end.

(** [_.includes(s, c)] for a one-character [c]. *)
Fixpoint includes_char (c : ascii) (s : string) : bool :=
  match s with
  | EmptyString => false
  | String d s' => Ascii.eqb c d || includes_char c s'
  end.

Definition or_default {T} (v : option T) (d : T) : T :=
  match v with
  | Some x => x
  | None => d
  end.

(** [new SPF(domain, sender, options)]; [inl] is the thrown [Error]. *)
Definition SPF_new (domain sender options : Arg) : Thrown + SPF :=
  let '(domain, sender, options) :=
    if isObject domain && isUndefined sender && isUndefined options
    then (Undefined, sender, domain)
    else if isObject sender && isUndefined options
         then (domain, Undefined, sender)
         else (domain, sender, options) in
  let o := properties options in
  match (match domain with
         | Str d => Some d
         | _ => o_domain o
         end) with
  | None => inl (ThrownError "Undefined domain")
  | Some this_domain =>
      let this_sender :=
        match sender with
        | Str s => s
        | _ => or_default (o_sender o) ("postmaster@" ++ this_domain)
        end in
      let this_sender :=
        if negb (includes_char "@" this_sender)
        then "postmaster@" ++ this_sender
        else this_sender in
      inr (mkSPF this_domain this_sender [] 0
             (mkOptions (or_default (o_version o) 1)
                        (or_default (o_prefetch o) false)
                        (or_default (o_maxDNS o) 10)))
  end.

(** The state a fresh instance starts a check in. *)
Definition state_of (this : SPF) : State :=
  mkState (spf_queryDNSCount this) (spf_warnings this) [].

(** [module.exports = async function (ip, domain, sender, options)]: the
    name of the result of [check], or the [Error] of the constructor. *)
Definition spf (lib : Externals)
    (dns_resolve : string -> forall t : RRType, DnsReply t) (fuel : nat)
    (ip : string) (domain sender options : Arg) : Outcome string * State :=
  match SPF_new domain sender options with
  | inl e => (Threw e, initial_state)
  | inr this =>
      bind (check lib dns_resolve (spf_options this) (spf_domain this) fuel ip)
           (fun res => ret (result_name (result res)))
           (state_of this)
  end.

(** The names lodash reads as a key and not as a path: those that hold
    neither a dot nor an opening bracket. *)
Definition plain_key (name : string) : bool :=
  negb (includes_char "." name || includes_char "[" name).

(** The seven values of [SPFResults]. *)
Definition result_names : list string :=
  ["None"; "Neutral"; "Pass"; "Fail"; "SoftFail"; "TempError"; "PermError"].

(** ** Vocabulary of the further properties *)

(** [m] takes every state to one related to it by [R]. *)
Definition preserves (R : State -> State -> Prop) {T} (m : M T) : Prop :=
  forall st, R st (snd (m st)).

(** The state after a [throw new ...]. *)
Definition raised (e : Thrown) (st : State) : State :=
  mkState (queryDNSCount st) (warnings st) (log st ++ [Raised e])%list.

(** The state after [this.warnings = _.concat(this.warnings, w)]. *)
Definition warned (w : list string) (st : State) : State :=
  mkState (queryDNSCount st) (warnings st ++ w)%list (log st).

(** The warnings of [st'] are those of [st] followed by new ones. *)
Definition warnings_grow (st st' : State) : Prop :=
  exists w, warnings st' = (warnings st ++ w)%list.

(** The log of [st'] continues the log of [st], and the counter has grown
    by no more than the number of lookups issued in between. *)
Definition counted_lookups (st st' : State) : Prop :=
  exists l,
    log st' = (log st ++ l)%list
    /\ queryDNSCount st' <= queryDNSCount st + List.length (issued l).

(** Between [st] and [st'] only TXT lookups were issued. *)
Definition only_txt (st st' : State) : Prop :=
  exists l,
    log st' = (log st ++ l)%list
    /\ Forall (fun q => snd q = TXT) (issued l).

(** Nothing of a check's bookkeeping differs between [st] and [st']: the
    counter, the lookups issued and the warnings. *)
Definition no_dns (st st' : State) : Prop :=
  queryDNSCount st' = queryDNSCount st
  /\ lookups st' = lookups st
  /\ warnings st' = warnings st.

(** Between [st] and [st'] the counter did not decrease and stayed within
    the budget if it was, and the lookups issued are at most [maxDNS] for
    each unit the counter grew by. *)
Definition lookups_within (options : SPFOptions) (st st' : State) : Prop :=
  exists l,
    log st' = (log st ++ l)%list
    /\ queryDNSCount st <= queryDNSCount st'
    /\ (queryDNSCount st <= maxDNS options ->
        queryDNSCount st' <= maxDNS options)
    /\ List.length (issued l)
       <= (queryDNSCount st' - queryDNSCount st) * maxDNS options.

(** The address record type a [resolve] closure captured. *)
Definition resolver_family (r : Resolver) : AddrType :=
  match r with
  | ResolveA _ f | ResolveMX _ f | ResolveInclude _ f => f
  end.

Definition AddrType_eqb (a b : AddrType) : bool :=
  match a, b with
  | A, A | AAAA, AAAA => true
  | _, _ => false
  end.

(** Every [resolve] closure of [m], and of its resolved includes at any
    depth, captured the address record type [f]. *)
Fixpoint closures_use {C} (f : AddrType) (m : Mechanism C) : bool :=
  match m_resolve m with
  | Some r => AddrType_eqb (resolver_family r) f
  | None => true
  end
  && match m_includes m with
     | Some l => forallb (closures_use f) l
     | None => true
     end.

(** Between [st] and [st'] every address lookup issued was one for the
    record type [f]. *)
Definition family_only (f : AddrType) (st st' : State) : Prop :=
  exists l,
    log st' = (log st ++ l)%list
    /\ Forall (fun q => forall g, snd q = ADDR g -> g = f) (issued l).

(** [m] takes every state to one related to it by [R], and returns only
    values satisfying [P]. *)
Definition keeps {T} (R : State -> State -> Prop) (P : T -> Prop) (m : M T)
    : Prop :=
  forall st,
    R st (snd (m st)) /\ forall v, fst (m st) = Returned v -> P v.

(** Exchanges in ascending order of priority. *)
Definition ascending (l : list Exchange) : Prop :=
  Sorted (fun a b => ex_priority a <= ex_priority b) l.

(** A result as the constructor of [SPFResult] leaves it: a message that
    is not empty, the mechanism [default] and nothing matched. *)
Definition default_shaped (r : SPFResult) : Prop :=
  message r <> EmptyString /\ mechanism r = "default" /\ matched r = [].

(** The types of mechanism that [match] can accept without the result of
    a nested evaluation. *)
Definition matching_types : list string := ["a"; "mx"; "ip4"; "ip6"; "all"].

(** A result built by [evaluate] for a matching mechanism: the message of
    its result name, one matched type, and as mechanism that type or
    [include]. *)
Definition match_shaped (r : SPFResult) : Prop :=
  message r = messages (result r)
  /\ exists t,
       In t matching_types /\ matched r = [t]
       /\ (mechanism r = t \/ mechanism r = "include").

(** A result built by [evaluateInclude] for a matching include. *)
Definition include_shaped (r : SPFResult) : Prop :=
  message r = messages (result r)
  /\ mechanism r = "include" /\ matched r = ["include"].

(** The thrown values of the engine: a typed result is as its constructor
    left it. *)
Definition thrown_ok (e : Thrown) : Prop :=
  match e with
  | ThrownResult r => default_shaped r
  | ThrownError _ => True
  end.

(** [m] returns values satisfying [P] and throws only values satisfying
    [thrown_ok]. *)
Definition yields {T} (P : T -> Prop) (m : M T) : Prop :=
  forall st,
    match fst (m st) with
    | Returned v => P v
    | Threw e => thrown_ok e
    | Unsettled | OutOfFuel => True
    end.

(** ** A mail domain

    A DNS whose only names are a mail domain with three exchanges, listed
    out of order of priority, and the addresses of the exchanges. *)
Module MailFixture.

Definition exchanges : list MxRecord :=
  [mkMx 20 "mx2.example.com"; mkMx 10 "mx1.example.com";
   mkMx 20 "mx3.example.com"].

Definition addresses : list (string * list string) :=
  [("mx1.example.com", ["192.168.0.1"]);
   ("mx2.example.com", ["192.168.0.7"]);
   ("mx3.example.com", ["127.0.0.1"])].

Definition dns (name : string) (t : RRType) : DnsReply t :=
  match t return DnsReply t with
  | MX =>
      if name =? "example.com" then @DnsOk MX exchanges
      else DnsErr (Fixture.syscall MX ++ " ENOTFOUND " ++ name)
  | ADDR f =>
      match Fixture.lookup name addresses with
      | Some records => @DnsOk (ADDR f) records
      | None => DnsErr (Fixture.syscall (ADDR f) ++ " ENOTFOUND " ++ name)
      end
  | TXT => DnsErr (Fixture.syscall TXT ++ " ENOTFOUND " ++ name)
  end.

(** A budget that the three exchanges exhaust, and one they do not. *)
Definition three_lookups : SPFOptions := mkOptions 1 false 3.
Definition four_lookups : SPFOptions := mkOptions 1 false 4.

End MailFixture.

(** ** Generic facts about the monad *)

Lemma ResultName_eqb_eq a b : ResultName_eqb a b = true <-> a = b.
Proof. destruct a, b; simpl; split; congruence. Qed.

Section MonadFacts.
Variable options : SPFOptions.
Variable bad : Event -> bool.

Lemma Post_refl T (o : Outcome T) st : Post options bad st o st.
Proof. unfold Post; auto. Qed.

Lemma ends_with_Returned T (v : T) st : ~ ends_with bad (Returned v) st.
Proof. intros (l & ev & e & _ & _ & _ & _ & H); discriminate. Qed.

Lemma ends_with_OutOfFuel T st : ~ ends_with bad (@OutOfFuel T) st.
Proof. intros (l & ev & e & _ & _ & _ & _ & H); discriminate. Qed.

Lemma ends_with_Unsettled T st : ~ ends_with bad (@Unsettled T) st.
Proof. intros (l & ev & e & _ & _ & _ & _ & H); discriminate. Qed.

Lemma sound_unsettled T : sound options bad (@unsettled T).
Proof. intro st; apply Post_refl. Qed.

Lemma ends_with_Threw T U e st :
  ends_with bad (@Threw T e) st -> ends_with bad (@Threw U e) st.
Proof.
  intros (l & ev & e' & H1 & H2 & H3 & H4 & H5).
  exists l, ev, e'; repeat split; auto. congruence.
Qed.

Lemma Post_trans T U (v : T) (o : Outcome U) st st1 st2 :
  Post options bad st (Returned v) st1 -> Post options bad st1 o st2 ->
  Post options bad st o st2.
Proof.
  intros (Hm1 & Hb1 & Hr1) (Hm2 & Hb2 & Hr2); repeat split.
  - lia.
  - auto.
  - intro Hc. destruct (Hr1 Hc) as [Hc1 | Habs]; [auto | ].
    now apply ends_with_Returned in Habs.
Qed.

Lemma sound_ret T (v : T) : sound options bad (ret v).
Proof. intro st; apply Post_refl. Qed.

Lemma sound_throw T e : sound options bad (@throw T e).
Proof. intro st; apply Post_refl. Qed.

Lemma sound_out_of_fuel T : sound options bad (@out_of_fuel T).
Proof. intro st; apply Post_refl. Qed.

Lemma sound_raise T e : sound options bad (@raise T e).
Proof.
  intro st. unfold raise, Post; simpl. repeat split; auto.
  intro Hc. rewrite existsb_app; simpl. rewrite Hc, orb_false_r; simpl.
  destruct (bad (Raised e)) eqn:Hbad; [right | left; reflexivity].
  exists (log st), (Raised e), e; repeat split; auto.
Qed.

Lemma sound_bind T U (m : M T) (k : T -> M U) :
  sound options bad m -> (forall v, sound options bad (k v)) ->
  sound options bad (bind m k).
Proof.
  intros Hm Hk st. specialize (Hm st). unfold bind.
  destruct (m st) as [[v | e | | ] st1]; simpl in *.
  - eapply Post_trans; [exact Hm | apply Hk].
  - destruct Hm as (? & ? & Hr); repeat split; auto.
    intro Hc; destruct (Hr Hc) as [? | Hend]; [left | right]; auto.
    now apply ends_with_Threw with (T := T).
  - destruct Hm as (? & ? & Hr); repeat split; auto.
    intro Hc; destruct (Hr Hc) as [? | Hend]; [left; auto | ].
    now apply ends_with_Unsettled in Hend.
  - destruct Hm as (? & ? & Hr); repeat split; auto.
    intro Hc; destruct (Hr Hc) as [? | Hend]; [left; auto | ].
    now apply ends_with_OutOfFuel in Hend.
Qed.

Lemma sound_try_catch T (m : M T) handler :
  sound options bad m -> (forall e, sound options bad (handler e)) ->
  rethrows bad handler ->
  sound options bad (try_catch m handler).
Proof.
  intros Hm Hh Hl st. specialize (Hm st). unfold try_catch.
  destruct (m st) as [[v | e | | ] st1]; simpl in *; auto.
  destruct Hm as (Hmono & Hb & Hr).
  pose proof (Hh e st1) as (Hmono' & Hb' & Hr').
  repeat split.
  - lia.
  - auto.
  - intro Hc. destruct (Hr Hc) as [Hc1 | Hend].
    + auto.
    + right. destruct Hend as (l & ev & e' & H1 & H2 & H3 & H4 & H5).
      injection H5 as ->. rewrite (Hl ev e' H3 H4). simpl.
      exists l, ev, e'; repeat split; auto.
Qed.

Lemma total_ret T k (v : T) : total_from k (ret v).
Proof. intros st _; discriminate. Qed.

Lemma total_throw T k e : total_from k (@throw T e).
Proof. intros st _; discriminate. Qed.

Lemma total_raise T k e : total_from k (@raise T e).
Proof. intros st _; discriminate. Qed.

Lemma total_bind T U k (m : M T) (f : T -> M U) :
  sound options bad m -> total_from k m -> (forall v, total_from k (f v)) ->
  total_from k (bind m f).
Proof.
  intros Hs Hm Hf st Hk. specialize (Hs st). specialize (Hm st Hk).
  unfold bind. destruct (m st) as [[v | e | | ] st1]; simpl in *.
  - apply Hf. destruct Hs as (? & _); lia.
  - discriminate.
  - discriminate.
  - congruence.
Qed.

Lemma total_try_catch T k (m : M T) handler :
  sound options bad m -> total_from k m ->
  (forall e, total_from k (handler e)) ->
  total_from k (try_catch m handler).
Proof.
  intros Hs Hm Hh st Hk. specialize (Hs st). specialize (Hm st Hk).
  unfold try_catch. destruct (m st) as [[v | e | | ] st1]; simpl in *; auto.
  apply Hh. destruct Hs as (? & _); lia.
Qed.

Lemma total_weaken T k k' (m : M T) :
  k <= k' -> total_from k m -> total_from k' m.
Proof. intros Hle Hm st Hk; apply Hm; lia. Qed.
End MonadFacts.

(** ** The budget invariant through the engine *)

Create HintDb spf_sound.

Ltac sound_auto :=
  repeat first
    [ assumption
    | solve [ auto with spf_sound nocore ]
    | apply sound_ret
    | apply sound_throw
    | apply sound_raise
    | apply sound_out_of_fuel
    | apply sound_bind; [ | intro ]
    | match goal with
      | |- sound _ _ (if ?b then _ else _) => destruct b
      | |- sound _ _ (match ?x with _ => _ end) => destruct x
      | |- sound _ _ (let (_, _) := ?x in _) => destruct x
      end ].

Lemma issued_app l1 l2 : issued (l1 ++ l2) = (issued l1 ++ issued l2)%list.
Proof.
  induction l1 as [ | [h t | h t | e] l1 IH]; simpl; auto. now rewrite IH.
Qed.

Lemma existsb_snoc T (f : T -> bool) l x :
  existsb f (l ++ [x]) = existsb f l || f x.
Proof. rewrite existsb_app; simpl; now rewrite orb_false_r. Qed.

Section EngineFacts.
Variable lib : Externals.
Variable dns_resolve : string -> forall t : RRType, DnsReply t.
Variable options : SPFOptions.
Variable domain : string.
Variable bad : Event -> bool.
(** Only failures are followed. *)
Hypothesis bad_issued : forall h t, bad (Issued h t) = false.

Lemma sound_resolveDNS hostname rrtype lookupLimit :
  sound options bad (resolveDNS lib dns_resolve options hostname rrtype lookupLimit).
Proof.
  intro st. unfold resolveDNS.
  set (budgeted := match lookupLimit with None => true | Some b => b end).
  destruct (budgeted && (maxDNS options <=? queryDNSCount st)%nat) eqn:Hlim.
  - unfold throw, refuse_lookup, Post; simpl. repeat split; auto.
    intro Hc. rewrite existsb_snoc, Hc; simpl.
    destruct (bad (Refused hostname rrtype)) eqn:Hbad; [right | now left].
    exists (log st), (Refused hostname rrtype), (ThrownResult limit_reached).
    repeat split; auto.
  - destruct hostname as [h | ]; [ | apply sound_raise ].
    assert (Hstep : Post options bad st (Returned tt)
                      (count_lookup budgeted h rrtype st)).
    { unfold Post; simpl. repeat split.
      - destruct budgeted; lia.
      - intro Hle. destruct budgeted; simpl in Hlim; auto.
        apply Nat.leb_gt in Hlim. lia.
      - intro Hc. left. rewrite existsb_snoc, Hc, bad_issued. reflexivity. }
    destruct (dns_resolve h rrtype) as [records | msg].
    + eapply Post_trans; [exact Hstep | apply sound_ret].
    + destruct (RegExp_test lib (not_found_pattern h) msg) as [[ | ] | ];
        (eapply Post_trans;
         [ exact Hstep | apply sound_raise || apply sound_unsettled ]).
Qed.

Lemma sound_resolveDNS_addr hostname f lookupLimit :
  @sound options bad (list string)
    (resolveDNS lib dns_resolve options hostname (ADDR f) lookupLimit).
Proof. exact (sound_resolveDNS hostname (ADDR f) lookupLimit). Qed.

Lemma sound_resolveDNS_mx hostname lookupLimit :
  @sound options bad (list MxRecord)
    (resolveDNS lib dns_resolve options hostname MX lookupLimit).
Proof. exact (sound_resolveDNS hostname MX lookupLimit). Qed.

Lemma sound_resolveDNS_txt hostname lookupLimit :
  @sound options bad (list string)
    (resolveDNS lib dns_resolve options hostname TXT lookupLimit).
Proof. exact (sound_resolveDNS hostname TXT lookupLimit). Qed.

Hint Resolve sound_resolveDNS_addr sound_resolveDNS_mx
  sound_resolveDNS_txt : spf_sound.

Lemma sound_resolve_exchanges exchanges rrtype :
  sound options bad (resolve_exchanges lib dns_resolve options exchanges rrtype).
Proof.
  induction exchanges as [ | e rest IH]; simpl; sound_auto.
Qed.
Hint Resolve sound_resolve_exchanges : spf_sound.

Lemma sound_resolveMX hostname rrtype :
  sound options bad (resolveMX lib dns_resolve options hostname rrtype).
Proof.
  unfold resolveMX. sound_auto.
Qed.
Hint Resolve sound_resolveMX : spf_sound.

Section WithResolveSPF.
Variable rec : option string -> AddrType -> M (list (Mechanism (Cidr lib))).
Hypothesis sound_rec : forall v rrtype, sound options bad (rec v rrtype).

Lemma sound_run_resolver r :
  sound options bad (run_resolver lib dns_resolve options rec r).
Proof.
  destruct r; cbn [run_resolver]; sound_auto.
Qed.
Hint Resolve sound_run_resolver : spf_sound.

Lemma sound_attach hostname rrtype m :
  sound options bad (attach lib hostname rrtype m).
Proof. unfold attach. sound_auto. Qed.
Hint Resolve sound_attach : spf_sound.

Lemma sound_resolve_loop hostname rrtype catchAll todo : forall resolved,
  sound options bad
    (resolve_loop lib dns_resolve options rec hostname rrtype catchAll todo resolved).
Proof.
  induction todo as [ | p rest IH]; intro resolved; simpl.
  - sound_auto.
  - match goal with |- sound _ _ (if ?b then _ else _) => destruct b end.
    + sound_auto; auto.
    + apply sound_bind; [apply sound_attach | intro m1].
      apply sound_bind; [ | intro m2 ].
      * destruct (m_resolve m1); sound_auto.
      * destruct (m_type m2 =? "all"); sound_auto.
Qed.
Hint Resolve sound_resolve_loop : spf_sound.

Lemma sound_resolveSPF_body hostname rrtype :
  sound options bad (resolveSPF_body lib dns_resolve options rec hostname rrtype).
Proof.
  unfold resolveSPF_body, resolve_policy.
  apply sound_bind; [apply sound_resolveDNS_txt | intro txt].
  destruct (filter _ txt) as [ | record [ | ? ?]]; sound_auto.
Qed.
End WithResolveSPF.

Lemma sound_resolveSPF fuel : forall hostname rrtype,
  sound options bad (resolveSPF lib dns_resolve options fuel hostname rrtype).
Proof.
  induction fuel as [ | fuel IH]; intros; simpl.
  - apply sound_out_of_fuel.
  - apply sound_resolveSPF_body; auto.
Qed.
Hint Resolve sound_resolveSPF sound_run_resolver : spf_sound.

Lemma sound_match_exchanges exchanges addr :
  sound options bad (match_exchanges lib exchanges addr).
Proof. induction exchanges; simpl; sound_auto. Qed.

Lemma sound_match_ m addr : sound options bad (match_ lib options m addr).
Proof.
  unfold match_. pose proof sound_match_exchanges. sound_auto.
Qed.

Lemma sound_matched_result m : sound options bad (matched_result lib m).
Proof. unfold matched_result, result_of_prefixdesc. sound_auto. Qed.

Lemma sound_resolve_lazily m :
  sound options bad (resolve_lazily lib dns_resolve options m).
Proof. unfold resolve_lazily. sound_auto. Qed.

Hint Resolve sound_match_ sound_matched_result
  sound_resolve_lazily : spf_sound.

Lemma sound_evaluate_loop rec :
  (forall l addr, sound options bad (rec l addr)) ->
  forall mechanisms addr,
    sound options bad (evaluate_loop lib dns_resolve options rec mechanisms addr).
Proof.
  intros Hrec mechanisms addr.
  induction mechanisms as [ | m rest IH]; simpl; sound_auto.
Qed.

Lemma sound_evaluate fuel : forall mechanisms addr,
  sound options bad (evaluate lib dns_resolve options fuel mechanisms addr).
Proof.
  induction fuel as [ | fuel IH]; intros l addr; simpl.
  - apply sound_out_of_fuel.
  - destruct l; sound_auto. apply sound_evaluate_loop; auto.
Qed.
Hint Resolve sound_evaluate : spf_sound.

(** From here on an untyped error is not followed: [getMechanisms]
    wraps it. *)
Hypothesis bad_untyped : forall msg, bad (Raised (ThrownError msg)) = false.

Lemma rethrows_typed T (handler : Thrown -> M T) :
  (forall r, bad (Raised (ThrownResult r)) = true ->
             handler (ThrownResult r) = throw (ThrownResult r)) ->
  handler (ThrownResult limit_reached) = throw (ThrownResult limit_reached) ->
  rethrows bad handler.
Proof.
  intros Hh Hlim [h t | h t | [r | msg]] e Hbad He; simpl in He;
    try discriminate; injection He as <-; auto.
  now rewrite bad_untyped in Hbad.
Qed.

Lemma sound_getMechanisms rrtype :
  sound options bad (getMechanisms lib dns_resolve options domain rrtype).
Proof.
  unfold getMechanisms.
  apply sound_bind; [ | intro l; destruct l; sound_auto ].
  apply sound_try_catch; [ sound_auto | | apply rethrows_typed; auto ].
  intros [r | msg]; sound_auto.
Qed.
Hint Resolve sound_getMechanisms : spf_sound.

(** From here on a thrown None is not followed: [evaluateInclude]
    skips an include whose resolution throws it. *)
Hypothesis bad_not_None :
  forall r, bad (Raised (ThrownResult r)) = true ->
            ResultName_eqb (result r) RNone = false.

Lemma sound_attempt_resolve m :
  sound options bad (attempt_resolve lib dns_resolve options m).
Proof.
  unfold attempt_resolve.
  destruct (m_resolve m) as [closure | ]; sound_auto.
  apply sound_try_catch; [ sound_auto | | apply rethrows_typed; auto ].
  - intros [e | msg]; sound_auto.
  - intros e Hbad. now rewrite (bad_not_None e Hbad).
Qed.

Hint Resolve sound_attempt_resolve : spf_sound.

Lemma sound_evaluateInclude fuel :
  (forall mechanisms requiredDomain includeMechanisms,
      sound options bad (evaluateInclude lib dns_resolve options fuel mechanisms
                       requiredDomain includeMechanisms))
  /\ (forall requiredDomain includeMechanisms i,
      sound options bad (include_loop lib dns_resolve options fuel requiredDomain
                       includeMechanisms i)).
Proof.
  induction fuel as [ | fuel [IHe IHl]]; split;
    [ intros l | intros | intros l | intros ]; intros; simpl;
    try apply sound_out_of_fuel.
  - destruct l as [l | ]; sound_auto.
  - destruct (nth_error includeMechanisms i) as [m | ]; sound_auto.
Qed.

Lemma result_of_thrown_eq e st :
  result_of_thrown e st = (Returned (caught_result e), st).
Proof. destruct e; reflexivity. Qed.

(** The [catch] of [check] and [checkInclude] turns whatever the body
    threw into the returned result and leaves the state alone. *)
Lemma caught m st :
  sound options bad m ->
  let run := try_catch m result_of_thrown st in
  queryDNSCount st <= queryDNSCount (snd run)
  /\ (queryDNSCount st <= maxDNS options ->
      queryDNSCount (snd run) <= maxDNS options)
  /\ (existsb bad (log st) = false ->
      existsb bad (log (snd run)) = false
      \/ returned_failure bad (fst run) (snd run))
  /\ (forall e, fst run <> Threw e).
Proof.
  intros Hm. specialize (Hm st). cbv zeta. unfold try_catch.
  destruct (m st) as [[v | e | | ] st1]; simpl in *;
    destruct Hm as (Hmono & Hb & Hr).
  - split; [ | split; [ | split ] ]; auto; try discriminate.
    intros Hc; destruct (Hr Hc) as [? | Hend]; [now left | ].
    now apply ends_with_Returned in Hend.
  - rewrite result_of_thrown_eq; simpl.
    split; [ | split; [ | split ] ]; auto; try discriminate.
    intros Hc; destruct (Hr Hc) as [? | Hend]; [now left | right].
    destruct Hend as (l & ev & e' & H1 & H2 & H3 & H4 & H5).
    injection H5 as ->. exists l, ev, e'; repeat split; auto.
  - split; [ | split; [ | split ] ]; auto; try discriminate.
    intros Hc; destruct (Hr Hc) as [? | Hend]; [now left | ].
    now apply ends_with_Unsettled in Hend.
  - split; [ | split; [ | split ] ]; auto; try discriminate.
    intros Hc; destruct (Hr Hc) as [? | Hend]; [now left | ].
    now apply ends_with_OutOfFuel in Hend.
Qed.

Lemma sound_check_body fuel ip :
  sound options bad
    (mechanisms <- getMechanisms lib dns_resolve options domain
                     (rrtype_of (addr_kind lib (ipaddr_parse lib ip))) ;;
     evaluate lib dns_resolve options fuel (Some mechanisms)
              (ipaddr_parse lib ip)).
Proof. sound_auto. Qed.

Lemma sound_checkInclude_body fuel requiredDomain :
  sound options bad
    (mechanisms <- getMechanisms lib dns_resolve options domain A ;;
     evaluateInclude lib dns_resolve options fuel (Some mechanisms)
                     requiredDomain None).
Proof.
  apply sound_bind; [ sound_auto | intro l ].
  apply (proj1 (sound_evaluateInclude fuel)).
Qed.

Lemma check_spec fuel ip st :
  let run := check lib dns_resolve options domain fuel ip st in
  queryDNSCount st <= queryDNSCount (snd run)
  /\ (queryDNSCount st <= maxDNS options ->
      queryDNSCount (snd run) <= maxDNS options)
  /\ (existsb bad (log st) = false ->
      existsb bad (log (snd run)) = false
      \/ returned_failure bad (fst run) (snd run))
  /\ (forall e, fst run <> Threw e).
Proof.
  unfold check.
  destruct (negb (ipaddr_isValid lib ip));
    [ simpl; repeat split; auto; try tauto; discriminate | ].
  destruct (negb (tldjs_isValid lib domain));
    [ simpl; repeat split; auto; try tauto; discriminate | ].
  apply (caught _ st (sound_check_body fuel ip)).
Qed.

Lemma checkInclude_spec fuel requiredDomain st :
  let run := checkInclude lib dns_resolve options domain fuel requiredDomain st in
  queryDNSCount st <= queryDNSCount (snd run)
  /\ (queryDNSCount st <= maxDNS options ->
      queryDNSCount (snd run) <= maxDNS options)
  /\ (existsb bad (log st) = false ->
      existsb bad (log (snd run)) = false
      \/ returned_failure bad (fst run) (snd run))
  /\ (forall e, fst run <> Threw e).
Proof.
  unfold checkInclude.
  destruct (negb (tldjs_isValid lib domain));
    [ simpl; repeat split; auto; try tauto; discriminate | ].
  apply (caught _ st (sound_checkInclude_body fuel requiredDomain)).
Qed.

Lemma resolveDNS_refuses hostname rrtype lookupLimit st :
  lookupLimit <> Some false ->
  maxDNS options <= queryDNSCount st ->
  resolveDNS lib dns_resolve options hostname rrtype lookupLimit st
  = (Threw (ThrownResult limit_reached), refuse_lookup hostname rrtype st).
Proof.
  intros Hb Hle. unfold resolveDNS.
  apply Nat.leb_le in Hle. rewrite Hle.
  destruct lookupLimit as [[ | ] | ]; try congruence; reflexivity.
Qed.
End EngineFacts.

(** ** The mechanism resolver *)

Lemma bind_ext T U (m : M T) (k k' : T -> M U) st :
  (forall v st', k v st' = k' v st') -> bind m k st = bind m k' st.
Proof.
  intro H. unfold bind. destruct (m st) as [[v | e | | ] st1]; auto.
Qed.

Lemma returns_ret T (P : T -> Prop) v : P v -> returns P (ret v).
Proof. intros H st v' st' E; injection E as <- _; exact H. Qed.

Lemma returns_raise T (P : T -> Prop) e : returns P (raise e).
Proof. intros st v st' E; discriminate. Qed.

Lemma returns_throw T (P : T -> Prop) e : returns P (throw e).
Proof. intros st v st' E; discriminate. Qed.

Lemma returns_out_of_fuel T (P : T -> Prop) : returns P out_of_fuel.
Proof. intros st v st' E; discriminate. Qed.

Lemma returns_bind T U (P : T -> Prop) (Q : U -> Prop) (m : M T) (k : T -> M U) :
  returns P m -> (forall v, P v -> returns Q (k v)) -> returns Q (bind m k).
Proof.
  intros Hm Hk st u st' E. unfold bind in E.
  destruct (m st) as [[v | e | | ] st1] eqn:Em; try discriminate.
  eapply Hk; eauto.
Qed.

Lemma returns_weaken T (P Q : T -> Prop) (m : M T) :
  (forall v, P v -> Q v) -> returns P m -> returns Q m.
Proof. intros H Hm st v st' E; eauto. Qed.

Section ResolverFacts.
Variable lib : Externals.
Variable dns_resolve : string -> forall t : RRType, DnsReply t.
Variable options : SPFOptions.
Variable rec : option string -> AddrType -> M (list (Mechanism (Cidr lib))).

Lemma catch_all_filter ms :
  catch_all (filter not_redirect ms) = catch_all ms.
Proof.
  unfold catch_all, not_redirect.
  induction ms as [ | p ms IH]; simpl; auto.
  destruct (p_type p =? "redirect") eqn:E; simpl.
  - apply String.eqb_eq in E. rewrite E. simpl. exact IH.
  - now rewrite IH.
Qed.

(** With [catchAll] set, the loop runs as if the policy had no
    [redirect] at all. *)
Lemma resolve_loop_skips_redirect hostname rrtype todo :
  forall resolved st,
    resolve_loop lib dns_resolve options rec hostname rrtype true todo
                 resolved st
    = resolve_loop lib dns_resolve options rec hostname rrtype true
                   (filter not_redirect todo) resolved st.
Proof.
  induction todo as [ | p rest IH]; intros resolved st; [reflexivity | ].
  unfold not_redirect at 1. simpl filter.
  cbn [resolve_loop of_parsed m_type].
  destruct (p_type p =? "redirect") eqn:E; simpl negb; cbv iota.
  - unfold bind at 1, ret at 1. apply IH.
  - cbn [resolve_loop of_parsed m_type]. rewrite E.
    apply bind_ext; intros m1 st1.
    apply bind_ext; intros m2 st2.
    destruct (m_type m2 =? "all"); [reflexivity | apply IH].
Qed.

(** Without [catchAll], a [redirect] entry resolves its target and
    splices the result where the entry stood. *)
Lemma resolve_loop_follows_redirect hostname rrtype p rest resolved st :
  p_type p = "redirect" ->
  resolve_loop lib dns_resolve options rec hostname rrtype false (p :: rest)
               resolved st
  = (target <- rec (p_value p) rrtype ;;
     resolve_loop lib dns_resolve options rec hostname rrtype false rest
                  (resolved ++ target)%list) st.
Proof.
  intro Hp. cbn [resolve_loop of_parsed m_type m_value]. rewrite Hp.
  change ("redirect" =? "redirect") with true. cbv iota. simpl negb.
  unfold bind, ret. destruct (rec (p_value p) rrtype st) as [[v | e | | ] st1];
    reflexivity.
Qed.

(** [attach] leaves the type and the resolved includes of a mechanism
    alone. *)
Lemma attach_preserves hostname rrtype (m : Mechanism (Cidr lib)) :
  returns (fun m' => m_type m' = m_type m /\ m_includes m' = m_includes m)
          (attach lib hostname rrtype m).
Proof.
  unfold attach.
  set (m1 := if m_type m =? "a" then _ else m).
  assert (H1 : m_type m1 = m_type m /\ m_includes m1 = m_includes m)
    by (subst m1; destruct (m_type m =? "a"); auto).
  clearbody m1.
  set (m2 := if m_type m1 =? "mx" then _ else m1).
  assert (H2 : m_type m2 = m_type m /\ m_includes m2 = m_includes m)
    by (subst m2; destruct (m_type m1 =? "mx"); auto).
  clearbody m2. clear H1 m1.
  apply returns_bind
    with (P := fun m' => m_type m' = m_type m /\ m_includes m' = m_includes m).
  - destruct ((m_type m2 =? "ip4") || (m_type m2 =? "ip6"));
      [ | now apply returns_ret ].
    destruct (m_value m2) as [v | ]; [ | apply returns_raise ].
    destruct (ipaddr_parseCIDR lib _);
      [ now apply returns_ret | apply returns_raise ].
  - intros m3 H3. apply returns_ret.
    destruct (m_type m3 =? "include"); auto.
Qed.

Hypothesis rec_redirect_free :
  forall v rrtype, returns (all_redirect_free lib) (rec v rrtype).

Lemma run_resolver_redirect_free r :
  returns (fun resolution =>
             match resolution with
             | Includes l => all_redirect_free lib l
             | _ => True
             end)
          (run_resolver lib dns_resolve options rec r).
Proof.
  destruct r; cbn [run_resolver].
  - eapply returns_bind with (P := fun _ => True);
      [ intros st v st' _; exact I | intros; now apply returns_ret ].
  - eapply returns_bind with (P := fun _ => True);
      [ intros st v st' _; exact I | intros; now apply returns_ret ].
  - eapply returns_bind; [ apply rec_redirect_free | ].
    intros l Hl. now apply returns_ret.
Qed.

Lemma resolve_loop_redirect_free hostname rrtype catchAll todo :
  forall resolved,
    all_redirect_free lib resolved ->
    returns (all_redirect_free lib)
      (resolve_loop lib dns_resolve options rec hostname rrtype catchAll
                    todo resolved).
Proof.
  unfold all_redirect_free.
  induction todo as [ | p rest IH]; intros resolved Hres.
  - now apply returns_ret.
  - cbn [resolve_loop of_parsed m_type].
    destruct (p_type p =? "redirect") eqn:E.
    + eapply returns_bind; [ | intros l Hl; apply IH; exact Hl ].
      destruct (negb catchAll); [ | now apply returns_ret ].
      eapply returns_bind; [ apply rec_redirect_free | ].
      intros l Hl. apply returns_ret.
      rewrite forallb_app, Hres. exact Hl.
    + eapply returns_bind; [ apply attach_preserves | ].
      intros m1 [Ht Hi]. simpl in Ht, Hi.
      apply returns_bind with (P := fun m2 => redirect_free m2 = true
                                              /\ True).
      * assert (Hm1 : redirect_free m1 = true)
          by (destruct m1; simpl in *; subst; now rewrite E).
        destruct (m_resolve m1) as [r | ]; [ | now apply returns_ret ].
        destruct (prefetch options); [ | now apply returns_ret ].
        eapply returns_bind; [ apply run_resolver_redirect_free | ].
        intros [l | l | l] Hl; apply returns_ret; split; auto;
          destruct m1; simpl in *; subst; rewrite E; simpl; auto.
      * intros m2 [Hm2 _].
        assert (Hnew : forallb (@redirect_free (Cidr lib))
                               (resolved ++ [m2]) = true)
          by (rewrite forallb_app, Hres; simpl; now rewrite Hm2).
        destruct (m_type m2 =? "all"); [ now apply returns_ret | ].
        apply IH. exact Hnew.
Qed.
End ResolverFacts.

Lemma resolveSPF_redirect_free lib dns_resolve options fuel :
  forall hostname rrtype,
    returns (all_redirect_free lib)
            (resolveSPF lib dns_resolve options fuel hostname rrtype).
Proof.
  induction fuel as [ | fuel IH]; intros hostname rrtype.
  - apply returns_out_of_fuel.
  - cbn [resolveSPF]. unfold resolveSPF_body, resolve_policy.
    eapply returns_bind with (P := fun _ => True);
      [ intros st v st' _; exact I | intros txt _ ].
    destruct (filter _ txt) as [ | record [ | ? ?]]; try apply returns_raise.
    destruct (has_non_ascii record); [ apply returns_raise | ].
    destruct (negb (valid (spfParse lib record))); [ apply returns_raise | ].
    eapply returns_bind with (P := fun _ => True);
      [ intros st v st' _; exact I | intros _ _ ].
    apply resolve_loop_redirect_free; [ exact IH | reflexivity ].
Qed.

Lemma bind_ext_returns T U (P : T -> Prop) (m : M T) (k k' : T -> M U) st :
  returns P m -> (forall v st', P v -> k v st' = k' v st') ->
  bind m k st = bind m k' st.
Proof.
  intros Hm H. unfold bind. destruct (m st) as [[v | e | | ] st1] eqn:E; auto.
  apply H. eapply Hm; eauto.
Qed.

Lemma assign_type C (m : Mechanism C) r : m_type (assign m r) = m_type m.
Proof. destruct r; reflexivity. Qed.

Section StopAtAll.
Variable lib : Externals.
Variable dns_resolve : string -> forall t : RRType, DnsReply t.
Variable options : SPFOptions.
Variable rec : option string -> AddrType -> M (list (Mechanism (Cidr lib))).

(** The [prefetch] step of the loop keeps the type. *)
Lemma prefetch_preserves_type (m1 : Mechanism (Cidr lib)) :
  returns (fun m2 => m_type m2 = m_type m1)
    (match m_resolve m1 with
     | Some r =>
         if prefetch options then
           resolution <- run_resolver lib dns_resolve options rec r ;;
           ret (assign m1 resolution)
         else ret m1
     | None => ret m1
     end).
Proof.
  destruct (m_resolve m1) as [r | ]; [ | now apply returns_ret ].
  destruct (prefetch options); [ | now apply returns_ret ].
  eapply returns_bind with (P := fun _ => True);
    [ intros st v st' _; exact I | ].
  intros res _. apply returns_ret. apply assign_type.
Qed.

(** Nothing declared after an [all] entry takes part in the loop of
    [resolveSPF]. *)
Lemma resolve_loop_stops_at_all hostname rrtype catchAll p post pre :
  p_type p = "all" ->
  forall resolved st,
    resolve_loop lib dns_resolve options rec hostname rrtype catchAll
                 (pre ++ p :: post) resolved st
    = resolve_loop lib dns_resolve options rec hostname rrtype catchAll
                   (pre ++ [p]) resolved st.
Proof.
  intro Hp. induction pre as [ | q pre IH]; intros resolved st.
  - cbn [app resolve_loop of_parsed m_type]. rewrite Hp.
    change ("all" =? "redirect") with false. cbv iota.
    eapply bind_ext_returns; [ apply attach_preserves | ].
    intros m1 st1 [Ht _]. simpl in Ht.
    eapply bind_ext_returns; [ apply prefetch_preserves_type | ].
    intros m2 st2 Ht2. rewrite Ht2, Ht, Hp. reflexivity.
  - cbn [app resolve_loop of_parsed m_type].
    destruct (p_type q =? "redirect").
    + apply bind_ext; intros l st1. apply IH.
    + apply bind_ext; intros m1 st1.
      apply bind_ext; intros m2 st2.
      destruct (m_type m2 =? "all"); [reflexivity | apply IH].
Qed.

(** A policy with an [all] entry resolves to a list whose last element,
    and no other, is an [all] mechanism. *)
Lemma resolve_loop_ends_with_all hostname rrtype todo :
  forall resolved,
    catch_all todo = true ->
    forallb (fun x : Mechanism (Cidr lib) => negb (m_type x =? "all"))
            resolved = true ->
    returns (ends_with_all lib)
      (resolve_loop lib dns_resolve options rec hostname rrtype true todo
                    resolved).
Proof.
  induction todo as [ | q rest IH]; intros resolved Hall Hres.
  - discriminate.
  - cbn [resolve_loop of_parsed m_type].
    unfold catch_all in Hall. simpl in Hall.
    destruct (p_type q =? "redirect") eqn:E.
    + apply String.eqb_eq in E. rewrite E in Hall. simpl in Hall.
      simpl negb. cbv iota.
      eapply returns_bind with (P := fun l => l = resolved);
        [ now apply returns_ret | ].
      intros l ->. now apply IH.
    + eapply returns_bind; [ apply attach_preserves | ].
      intros m1 [Ht _]. simpl in Ht.
      eapply returns_bind; [ apply prefetch_preserves_type | ].
      intros m2 Ht2. rewrite Ht2, Ht.
      destruct (p_type q =? "all") eqn:Eall.
      * apply returns_ret. exists resolved, m2. repeat split; auto.
        rewrite Ht2, Ht. now apply String.eqb_eq.
      * simpl in Hall. apply IH; [exact Hall | ].
        rewrite forallb_app, Hres. simpl. now rewrite Ht2, Ht, Eall.
Qed.

Variable evaluate : option (list (Mechanism (Cidr lib))) -> Addr lib -> M SPFResult.

Lemma resolve_lazily_preserves_type (m : Mechanism (Cidr lib)) :
  returns (fun m' => m_type m' = m_type m)
          (resolve_lazily lib dns_resolve options m).
Proof.
  unfold resolve_lazily.
  destruct (m_resolve m) as [r | ]; [ | now apply returns_ret ].
  destruct (negb (prefetch options)); [ | now apply returns_ret ].
  eapply returns_bind with (P := fun _ => True);
    [ intros st v st' _; exact I | ].
  intros res _. apply returns_ret. apply assign_type.
Qed.

(** Nothing placed after an [all] mechanism is reached by the loop of
    [evaluate]. *)
Lemma evaluate_loop_stops_at_all m post addr pre :
  m_type m = "all" ->
  forall st,
    evaluate_loop lib dns_resolve options evaluate (pre ++ m :: post) addr st
    = evaluate_loop lib dns_resolve options evaluate (pre ++ [m]) addr st.
Proof.
  intro Hm. induction pre as [ | q pre IH]; intro st.
  - cbn [app evaluate_loop].
    eapply bind_ext_returns; [ apply resolve_lazily_preserves_type | ].
    intros m1 st1 Ht. rewrite Ht, Hm.
    change ("all" =? "include") with false. cbv iota.
    unfold bind at 1 3, ret at 1 2.
    unfold match_. rewrite Ht, Hm. simpl. reflexivity.
  - cbn [app evaluate_loop].
    apply bind_ext; intros m1 st1.
    apply bind_ext; intros m2 st2.
    apply bind_ext; intros hit st3.
    destruct hit; [reflexivity | apply IH].
Qed.
End StopAtAll.

Lemma bind_assoc T U V (m : M T) (f : T -> M U) (g : U -> M V) st :
  bind (bind m f) g st = bind m (fun v => bind (f v) g) st.
Proof.
  unfold bind. destruct (m st) as [[v | e | | ] st1]; reflexivity.
Qed.

(** The loop of [resolveSPF] on entries none of which is an [all], then
    on further entries, is the loop on the first followed by the loop on
    the others. *)
Lemma resolve_loop_app lib dns_resolve options rec hostname rrtype catchAll
    pre todo :
  forallb (fun p => negb (p_type p =? "all")) pre = true ->
  forall resolved st,
    resolve_loop lib dns_resolve options rec hostname rrtype catchAll
                 (pre ++ todo) resolved st
    = (r <- resolve_loop lib dns_resolve options rec hostname rrtype catchAll
                         pre resolved ;;
       resolve_loop lib dns_resolve options rec hostname rrtype catchAll
                    todo r) st.
Proof.
  induction pre as [ | q pre IH]; intros Hpre resolved st; [ reflexivity | ].
  simpl in Hpre. apply andb_true_iff in Hpre. destruct Hpre as [Hq Hpre].
  apply negb_true_iff in Hq.
  cbn [app resolve_loop of_parsed m_type].
  destruct (p_type q =? "redirect").
  - rewrite bind_assoc. apply bind_ext. intros l st1. now apply IH.
  - rewrite bind_assoc.
    eapply bind_ext_returns; [ apply attach_preserves | ].
    intros m1 st1 [Ht _]. simpl in Ht.
    rewrite bind_assoc.
    eapply bind_ext_returns;
      [ apply (prefetch_preserves_type lib dns_resolve options rec m1) | ].
    intros m2 st2 Ht2. rewrite Ht2, Ht, Hq. now apply IH.
Qed.

Lemma no_all_before (pre l : list ParsedMechanism) :
  catch_all (pre ++ l) = false ->
  forallb (fun p => negb (p_type p =? "all")) pre = true.
Proof.
  unfold catch_all. rewrite existsb_app. intro H.
  apply orb_false_iff in H. destruct H as [H _].
  induction pre as [ | q pre IH]; simpl in *; [ reflexivity | ].
  apply orb_false_iff in H. destruct H as [-> H]. simpl. now apply IH.
Qed.

(** ** Termination: enough fuel gives a result *)

Create HintDb spf_total.

Ltac total_with o b :=
  repeat first
    [ assumption
    | solve [ eauto with spf_total nocore ]
    | apply total_ret
    | apply total_throw
    | apply total_raise
    | apply (@total_bind o b); [ solve [ sound_auto ] | | intro ]
    | match goal with
      | |- total_from _ (if ?b then _ else _) => destruct b
      | |- total_from _ (match ?x with _ => _ end) => destruct x
      | |- total_from _ (let (_, _) := ?x in _) => destruct x
      end ].

Lemma bind_returned T U (m : M T) (k : T -> M U) st u st' :
  bind m k st = (Returned u, st') ->
  exists v st1, m st = (Returned v, st1) /\ k v st1 = (Returned u, st').
Proof.
  unfold bind. destruct (m st) as [[v | e | | ] st1]; try discriminate.
  intro E. now exists v, st1.
Qed.

Section Totality.
Variable lib : Externals.
Variable dns_resolve : string -> forall t : RRType, DnsReply t.
Variable options : SPFOptions.
Variable domain : string.
Variable bad : Event -> bool.
Hypothesis bad_issued : forall h t, bad (Issued h t) = false.

Hint Resolve sound_resolveDNS_addr sound_resolveDNS_mx sound_resolveDNS_txt
  sound_resolve_exchanges sound_resolveMX sound_run_resolver sound_attach
  sound_resolve_loop sound_resolveSPF sound_match_ sound_matched_result
  sound_resolve_lazily sound_evaluate : spf_sound.

Ltac total_auto := total_with options bad.

Lemma total_resolveDNS k hostname rrtype lookupLimit :
  total_from k (resolveDNS lib dns_resolve options hostname rrtype lookupLimit).
Proof.
  intros st _. unfold resolveDNS.
  destruct (_ && _); [discriminate | ].
  destruct hostname as [h | ]; [ | discriminate ].
  destruct (dns_resolve h rrtype); [discriminate | ].
  destruct (RegExp_test lib _ _) as [[ | ] | ]; discriminate.
Qed.

Lemma total_resolveDNS_addr k hostname f lookupLimit :
  @total_from (list string) k
    (resolveDNS lib dns_resolve options hostname (ADDR f) lookupLimit).
Proof. exact (total_resolveDNS k hostname (ADDR f) lookupLimit). Qed.

Lemma total_resolveDNS_mx k hostname lookupLimit :
  @total_from (list MxRecord) k
    (resolveDNS lib dns_resolve options hostname MX lookupLimit).
Proof. exact (total_resolveDNS k hostname MX lookupLimit). Qed.

Lemma total_resolveDNS_txt k hostname lookupLimit :
  @total_from (list string) k
    (resolveDNS lib dns_resolve options hostname TXT lookupLimit).
Proof. exact (total_resolveDNS k hostname TXT lookupLimit). Qed.

Hint Resolve total_resolveDNS_addr total_resolveDNS_mx total_resolveDNS_txt
  : spf_total.

Lemma total_resolve_exchanges k exchanges rrtype :
  total_from k (resolve_exchanges lib dns_resolve options exchanges rrtype).
Proof. induction exchanges as [ | e rest IH]; simpl; total_auto. Qed.
Hint Resolve total_resolve_exchanges : spf_total.

Lemma total_resolveMX k hostname rrtype :
  total_from k (resolveMX lib dns_resolve options hostname rrtype).
Proof. unfold resolveMX. total_auto. Qed.
Hint Resolve total_resolveMX : spf_total.

Lemma total_attach k hostname rrtype m :
  total_from k (attach lib hostname rrtype m).
Proof. unfold attach. total_auto. Qed.
Hint Resolve total_attach : spf_total.

(** A budgeted lookup that returns has passed the budget check and
    counted itself. *)
Lemma budgeted_lookup_returns hostname rrtype st v st' :
  resolveDNS lib dns_resolve options hostname rrtype None st = (Returned v, st') ->
  queryDNSCount st < maxDNS options /\ queryDNSCount st' = S (queryDNSCount st).
Proof.
  unfold resolveDNS. simpl.
  destruct (maxDNS options <=? queryDNSCount st)%nat eqn:E; [discriminate | ].
  apply Nat.leb_gt in E.
  destruct hostname as [h | ]; [ | discriminate ].
  destruct (dns_resolve h rrtype); [ | destruct (RegExp_test lib _ _) as [[ | ] | ]; discriminate ].
  intro H. injection H as _ <-. simpl. auto.
Qed.

Section WithRec.
Variable rec : option string -> AddrType -> M (list (Mechanism (Cidr lib))).
Hypothesis sound_rec : forall v rrtype, sound options bad (rec v rrtype).
Variable k : nat.
Hypothesis total_rec : forall v rrtype, total_from k (rec v rrtype).

Lemma total_run_resolver r :
  total_from k (run_resolver lib dns_resolve options rec r).
Proof. destruct r; cbn [run_resolver]; total_auto. Qed.
Hint Resolve total_run_resolver : spf_total.

Lemma total_resolve_loop hostname rrtype catchAll todo : forall resolved,
  total_from k
    (resolve_loop lib dns_resolve options rec hostname rrtype catchAll todo
                  resolved).
Proof.
  induction todo as [ | p rest IH]; intro resolved; simpl.
  - total_auto.
  - match goal with |- total_from _ (if ?b then _ else _) => destruct b end.
    + total_auto.
    + apply (@total_bind options bad); [ sound_auto | total_auto | intro m1 ].
      apply (@total_bind options bad); [ | | intro m2 ].
      * destruct (m_resolve m1); sound_auto.
      * destruct (m_resolve m1); total_auto.
      * destruct (m_type m2 =? "all"); total_auto.
Qed.
End WithRec.

Lemma total_bind_step T U k (m : M T) (f : T -> M U) :
  (forall st v st', k <= queryDNSCount st -> m st = (Returned v, st') ->
                    S k <= queryDNSCount st') ->
  total_from k m -> (forall v, total_from (S k) (f v)) ->
  total_from k (bind m f).
Proof.
  intros Hstep Hm Hf st Hk. specialize (Hm st Hk). unfold bind.
  destruct (m st) as [[v | e | | ] st1] eqn:E; simpl in *.
  - apply Hf. eapply Hstep; eauto.
  - discriminate.
  - discriminate.
  - congruence.
Qed.

Lemma total_resolveSPF_body rec k hostname rrtype :
  (forall v rr, sound options bad (rec v rr)) ->
  (forall v rr, total_from (S k) (rec v rr)) ->
  total_from k (resolveSPF_body lib dns_resolve options rec hostname rrtype).
Proof.
  intros Hs Ht. unfold resolveSPF_body.
  apply total_bind_step.
  - intros st v st' Hk E. apply budgeted_lookup_returns in E. lia.
  - apply total_resolveDNS_txt.
  - intro txt.
    destruct (filter _ txt) as [ | record [ | ? ?]]; total_auto.
    unfold resolve_policy. now apply total_resolve_loop.
Qed.

Lemma total_resolveSPF fuel : forall k hostname rrtype,
  maxDNS options <= fuel + k ->
  total_from k (resolveSPF lib dns_resolve options (S fuel) hostname rrtype).
Proof.
  induction fuel as [ | fuel IH]; intros k hostname rrtype Hle.
  - intros st Hk. cbn [resolveSPF]. unfold resolveSPF_body, bind.
    rewrite resolveDNS_refuses; [ simpl; discriminate | discriminate | lia ].
  - apply (total_resolveSPF_body (resolveSPF lib dns_resolve options (S fuel))).
    + intros v rr. now apply sound_resolveSPF.
    + intros v rr. apply IH. lia.
Qed.

Lemma total_resolveSPF_resolve_fuel k hostname rrtype :
  total_from k
    (resolveSPF lib dns_resolve options (resolve_fuel options) hostname rrtype).
Proof. apply total_resolveSPF. lia. Qed.
Hint Resolve total_resolveSPF_resolve_fuel : spf_total.

Lemma total_getMechanisms k rrtype :
  total_from k (getMechanisms lib dns_resolve options domain rrtype).
Proof.
  intros st Hk. unfold getMechanisms, bind, try_catch.
  pose proof (total_resolveSPF_resolve_fuel k (Some domain) rrtype st Hk) as Ht.
  destruct (resolveSPF lib dns_resolve options (resolve_fuel options)
              (Some domain) rrtype st) as [[l | [r | msg] | | ] st1];
    simpl in *; try discriminate; try congruence.
  destruct l; discriminate.
Qed.

Lemma total_match_exchanges k exchanges addr :
  total_from k (match_exchanges lib exchanges addr).
Proof. induction exchanges; simpl; total_auto. Qed.
Hint Resolve total_match_exchanges : spf_total.

Lemma total_match_ k m addr : total_from k (match_ lib options m addr).
Proof. unfold match_. total_auto. Qed.

Lemma total_matched_result k m : total_from k (matched_result lib m).
Proof. unfold matched_result, result_of_prefixdesc. total_auto. Qed.

Lemma total_resolve_lazily k m :
  total_from k (resolve_lazily lib dns_resolve options m).
Proof.
  unfold resolve_lazily.
  destruct (m_resolve m) as [r | ]; total_auto.
  apply total_run_resolver; auto with spf_sound spf_total.
Qed.

Hint Resolve total_getMechanisms total_match_ total_matched_result
  total_resolve_lazily : spf_total.

Lemma consumes_bind T U (m : M T) (f : T -> M U) :
  consumes options m -> (forall v, sound options bad (f v)) ->
  consumes options (bind m f).
Proof.
  intros Hm Hf st o st' E Ho. unfold bind in E.
  destruct (m st) as [[v | e | | ] st1] eqn:E1.
  - destruct (Hm st (Returned v) st1 E1 I) as [H1 H2].
    pose proof (Hf v st1) as (Hmono & _).
    rewrite E in Hmono. simpl in Hmono. lia.
  - injection E as <- <-. exact (Hm st (Threw e) st1 E1 Ho).
  - injection E as <- <-. destruct Ho.
  - injection E as <- <-. destruct Ho.
Qed.

Lemma consumes_resolveDNS hostname rrtype :
  consumes options (resolveDNS lib dns_resolve options hostname rrtype None).
Proof.
  intros st o st'. unfold resolveDNS. simpl.
  destruct (maxDNS options <=? queryDNSCount st)%nat eqn:E.
  - intro H. injection H as <- <-. simpl. discriminate.
  - apply Nat.leb_gt in E.
    destruct hostname as [h | ];
      [ | intro H; injection H as <- <-; intros [] ].
    destruct (dns_resolve h rrtype);
      [ | destruct (RegExp_test lib _ _) as [[ | ] | ] ];
      intro H; injection H as <- <-; intros _; simpl; lia.
Qed.

Lemma consumes_resolveSPF fuel hostname rrtype :
  consumes options (resolveSPF lib dns_resolve options fuel hostname rrtype).
Proof.
  destruct fuel as [ | fuel];
    [ intros st o st' E; injection E as <- <-; intros [] | ].
  cbn [resolveSPF]. unfold resolveSPF_body, resolve_policy.
  apply consumes_bind; [ exact (consumes_resolveDNS hostname TXT) | intro txt ].
  destruct (filter _ txt) as [ | record [ | ? ?]]; sound_auto.
Qed.

Lemma consumes_run_resolver fuel r :
  consumes options
    (run_resolver lib dns_resolve options
       (resolveSPF lib dns_resolve options fuel) r).
Proof.
  destruct r; cbn [run_resolver].
  - apply consumes_bind;
      [ exact (consumes_resolveDNS host (ADDR rrtype)) | intro; sound_auto ].
  - unfold resolveMX.
    apply consumes_bind; [ | intro; sound_auto ].
    apply consumes_bind;
      [ exact (consumes_resolveDNS host MX) | intro; sound_auto ].
  - apply consumes_bind; [ apply consumes_resolveSPF | intro; sound_auto ].
Qed.
End Totality.

Section LazyForm.
Variable lib : Externals.
Variable dns_resolve : string -> forall t : RRType, DnsReply t.
Variable options : SPFOptions.
Hypothesis lazy : prefetch options = false.

Lemma attach_lazy_form hostname rrtype (m : Mechanism (Cidr lib)) :
  m_includes m = None ->
  returns (@lazy_form (Cidr lib)) (attach lib hostname rrtype m).
Proof.
  intro Hinc. intros st m' st' E.
  pose proof (attach_preserves lib hostname rrtype m st m' st' E) as [Ht Hi].
  split; [ congruence | ].
  unfold attach in E. apply bind_returned in E.
  destruct E as (m3 & st3 & _ & E). unfold ret in E.
  injection E as <- _.
  destruct (m_type m3 =? "include") eqn:Einc; simpl.
  - discriminate.
  - intro H. rewrite H in Einc. discriminate.
Qed.

Section WithLazyRec.
Variable rec : option string -> AddrType -> M (list (Mechanism (Cidr lib))).
Hypothesis rec_lazy :
  forall v rrtype, returns (Forall (@lazy_form (Cidr lib))) (rec v rrtype).

Lemma resolve_loop_lazy_form hostname rrtype catchAll todo :
  forall resolved,
    Forall (@lazy_form (Cidr lib)) resolved ->
    returns (Forall (@lazy_form (Cidr lib)))
      (resolve_loop lib dns_resolve options rec hostname rrtype catchAll todo
                    resolved).
Proof.
  induction todo as [ | p rest IH]; intros resolved Hres.
  - now apply returns_ret.
  - cbn [resolve_loop of_parsed m_type].
    destruct (p_type p =? "redirect").
    + eapply returns_bind; [ | intros l Hl; apply IH; exact Hl ].
      destruct (negb catchAll); [ | now apply returns_ret ].
      eapply returns_bind; [ apply rec_lazy | ].
      intros l Hl. apply returns_ret. apply Forall_app. now split.
    + eapply returns_bind; [ now apply attach_lazy_form | ].
      intros m1 Hm1.
      apply returns_bind with (P := @lazy_form (Cidr lib)).
      * rewrite lazy. destruct (m_resolve m1); now apply returns_ret.
      * intros m2 Hm2.
        assert (Hnew : Forall (@lazy_form (Cidr lib)) (resolved ++ [m2]))
          by (apply Forall_app; split; auto).
        destruct (m_type m2 =? "all"); [ now apply returns_ret | ].
        now apply IH.
Qed.
End WithLazyRec.

Lemma resolveSPF_lazy_form fuel : forall hostname rrtype,
  returns (Forall (@lazy_form (Cidr lib)))
          (resolveSPF lib dns_resolve options fuel hostname rrtype).
Proof.
  induction fuel as [ | fuel IH]; intros hostname rrtype.
  - apply returns_out_of_fuel.
  - cbn [resolveSPF]. unfold resolveSPF_body, resolve_policy.
    eapply returns_bind with (P := fun _ => True);
      [ intros st v st' _; exact I | intros txt _ ].
    destruct (filter _ txt) as [ | record [ | ? ?]]; try apply returns_raise.
    destruct (has_non_ascii record); [ apply returns_raise | ].
    destruct (negb (valid (spfParse lib record))); [ apply returns_raise | ].
    eapply returns_bind with (P := fun _ => True);
      [ intros st v st' _; exact I | intros _ _ ].
    apply resolve_loop_lazy_form; [ exact IH | constructor ].
Qed.
End LazyForm.

Lemma height_positive C (m : Mechanism C) : 1 <= height m.
Proof. destruct m; simpl; lia. Qed.

Lemma heights_cons C (m : Mechanism C) l :
  heights (m :: l) = Nat.max (height m) (heights l).
Proof. reflexivity. Qed.

Lemma heights_includes C (m : Mechanism C) :
  S (heights_opt (m_includes m)) = height m.
Proof. destruct m as [? ? ? ? ? ? ? [l | ] ?]; reflexivity. Qed.

Lemma heights_lazy_form C (l : list (Mechanism C)) :
  Forall (@lazy_form C) l -> heights l <= 1.
Proof.
  induction 1 as [ | m l [Hm _] _ IH]; [ cbv; lia | ].
  rewrite heights_cons.
  pose proof (heights_includes C m) as Hh. rewrite Hm in Hh. simpl in Hh. lia.
Qed.


Lemma total_bind_gen T U k (m : M T) (f : T -> M U) (Q : T -> nat -> Prop) :
  (forall st v st', k <= queryDNSCount st -> m st = (Returned v, st') ->
                    exists k', k' <= queryDNSCount st' /\ Q v k') ->
  total_from k m ->
  (forall v k', Q v k' -> total_from k' (f v)) ->
  total_from k (bind m f).
Proof.
  intros Hstep Hm Hf st Hk. specialize (Hm st Hk). unfold bind.
  destruct (m st) as [[v | e | | ] st1] eqn:E; simpl in *.
  - destruct (Hstep st v st1 Hk E) as (k' & Hk' & HQ).
    now apply (Hf v k' HQ).
  - discriminate.
  - discriminate.
  - congruence.
Qed.

Section EvaluateTotality.
Variable lib : Externals.
Variable dns_resolve : string -> forall t : RRType, DnsReply t.
Variable options : SPFOptions.
Variable domain : string.
Variable bad : Event -> bool.
Hypothesis bad_issued : forall h t, bad (Issued h t) = false.

Hint Resolve sound_resolveDNS_addr sound_resolveDNS_mx sound_resolveDNS_txt
  sound_resolve_exchanges sound_resolveMX sound_run_resolver sound_attach
  sound_resolve_loop sound_resolveSPF sound_match_ sound_matched_result
  sound_resolve_lazily sound_evaluate : spf_sound.
Hint Resolve total_resolveDNS_addr total_resolveDNS_mx total_resolveDNS_txt
  total_match_ total_matched_result total_resolve_lazily : spf_total.

Ltac total_auto := total_with options bad.

(** What a returning [resolve_lazily] did: nothing, or a resolution that
    counted a lookup and left includes of depth one at most, unless they
    were there before. *)
Lemma resolve_lazily_cases (m : Mechanism (Cidr lib)) st m1 st1 :
  resolve_lazily lib dns_resolve options m st = (Returned m1, st1) ->
  (m1 = m /\ st1 = st)
  \/ (queryDNSCount st < maxDNS options
      /\ S (queryDNSCount st) <= queryDNSCount st1
      /\ heights_opt (m_includes m1)
         <= Nat.max 1 (heights_opt (m_includes m))).
Proof.
  unfold resolve_lazily.
  destruct (m_resolve m) as [r | ];
    [ | intro E; injection E as <- <-; now left ].
  destruct (prefetch options) eqn:Hpre; simpl;
    [ intro E; injection E as <- <-; now left | ].
  intro E. right.
  pose proof (consumes_run_resolver lib dns_resolve options bad bad_issued
                (resolve_fuel options) r) as Hc.
  apply bind_returned in E. destruct E as (res & st2 & E1 & E2).
  injection E2 as <- <-.
  destruct (Hc st (Returned res) st2 E1 I) as [H1 H2]. repeat split; auto.
  destruct r as [host rr | host rr | value rr]; cbn [run_resolver] in E1;
    apply bind_returned in E1; destruct E1 as (x & st3 & E3 & E4);
    injection E4 as <- _;
    cbn [assign set_records set_exchanges set_includes m_includes];
    try (destruct (heights_opt (m_includes m)); lia).
  apply (resolveSPF_lazy_form lib dns_resolve options Hpre
           (resolve_fuel options) value rr st x st3) in E3.
  apply heights_lazy_form in E3. cbn [heights_opt].
  destruct (heights_opt (m_includes m)); lia.
Qed.

Section Loop.
Variable fuel : nat.
Variable addr : Addr lib.
Hypothesis IH :
  forall l k, heights_opt l + (maxDNS options - k) < fuel ->
              total_from k (evaluate lib dns_resolve options fuel l addr).

Lemma total_evaluate_loop l : forall k,
  heights l + (maxDNS options - k) <= fuel ->
  total_from k
    (evaluate_loop lib dns_resolve options
       (evaluate lib dns_resolve options fuel) l addr).
Proof.
  induction l as [ | m rest IHl]; intros k Hk; cbn [evaluate_loop].
  - apply total_ret.
  - rewrite heights_cons in Hk.
    pose proof (height_positive _ m) as Hpos.
    pose proof (heights_includes _ m) as Hinc.
    apply total_bind_gen
      with (Q := fun m1 k' =>
                   k <= k'
                   /\ heights_opt (m_includes m1) + (maxDNS options - k') < fuel).
    + intros st m1 st1 Hst E.
      destruct (resolve_lazily_cases m st m1 st1 E)
        as [[-> ->] | (Hlt & Hstep & Hh)].
      * exists k. repeat split; auto. lia.
      * exists (S (queryDNSCount st)). repeat split; auto; lia.
    + now apply (total_resolve_lazily lib dns_resolve options bad).
    + intros m1 k' [Hkk' Hm1].
      apply (@total_bind options bad).
      * sound_auto.
      * destruct (m_type m1 =? "include"); total_auto.
      * intro m2. apply (@total_bind options bad); [ sound_auto | total_auto | ].
        intros [ | ]; [ total_auto | ].
        apply IHl. lia.
Qed.
End Loop.

(** [evaluate] returns or throws once its fuel exceeds the depth of the
    resolved includes plus the lookups the budget still allows. *)
Lemma total_evaluate fuel : forall l addr k,
  heights_opt l + (maxDNS options - k) < fuel ->
  total_from k (evaluate lib dns_resolve options fuel l addr).
Proof.
  induction fuel as [ | fuel IH]; intros l addr k Hk; [ lia | ].
  cbn [evaluate]. destruct l as [l | ]; [ | apply total_raise ].
  apply total_evaluate_loop; [ | simpl in Hk; lia ].
  intros l' k' Hk'. now apply IH.
Qed.
End EvaluateTotality.

(** Once it has enough fuel, [check] comes back with a Result unless a
    lookup threw inside its callback. *)
Lemma check_total lib dns_resolve options domain ip st :
  exists fuel0, forall fuel, fuel0 <= fuel ->
    (exists r st',
        check lib dns_resolve options domain fuel ip st = (Returned r, st'))
    \/ fst (check lib dns_resolve options domain fuel ip st) = Unsettled.
Proof.
  unfold check.
  destruct (negb (ipaddr_isValid lib ip));
    [ exists 0; intros; left; eexists _, _; reflexivity | ].
  destruct (negb (tldjs_isValid lib domain));
    [ exists 0; intros; left; eexists _, _; reflexivity | ].
  set (addr := ipaddr_parse lib ip).
  set (rrtype := rrtype_of (addr_kind lib addr)).
  unfold try_catch, bind.
  pose proof (total_getMechanisms lib dns_resolve options domain is_refused
                (fun _ _ => eq_refl) 0 rrtype st (Nat.le_0_l _)) as Hg.
  destruct (getMechanisms lib dns_resolve options domain rrtype st)
    as [[l | e | | ] st1]; simpl in Hg.
  - exists (S (heights l + maxDNS options)). intros fuel Hfuel.
    pose proof (total_evaluate lib dns_resolve options is_refused
                  (fun _ _ => eq_refl) fuel (Some l) addr 0) as He.
    specialize (He ltac:(simpl; lia) st1 (Nat.le_0_l _)).
    destruct (evaluate lib dns_resolve options fuel (Some l) addr st1)
      as [[r | e | | ] st2]; simpl in He.
    + left. now exists r, st2.
    + left. rewrite result_of_thrown_eq. now eexists _, _.
    + now right.
    + congruence.
  - exists 0. intros fuel _. left. rewrite result_of_thrown_eq.
    now eexists _, _.
  - exists 0. intros fuel _. now right.
  - congruence.
Qed.

Lemma refused_not_untyped msg : is_refused (Raised (ThrownError msg)) = false.
Proof. reflexivity. Qed.

Lemma refused_not_None r :
  is_refused (Raised (ThrownResult r)) = true ->
  ResultName_eqb (result r) RNone = false.
Proof. discriminate. Qed.

Lemma refused_not_issued h t : is_refused (Issued h t) = false.
Proof. reflexivity. Qed.

Section SearchEquations.
Variable lib : Externals.
Variable dns_resolve : string -> forall t : RRType, DnsReply t.
Variable options : SPFOptions.

(** The two functions of the include searcher, one step unfolded. *)
Lemma evaluateInclude_S fuel l requiredDomain rest :
  evaluateInclude lib dns_resolve options (S fuel) l requiredDomain rest
  = match l with
    | None => raise (ThrownError (err_undefined "filter"))
    | Some l =>
        let arr := (match rest with Some r => r | None => [] end
                    ++ included lib l)%list in
        match arr with
        | [] => ret (newSPFResult Fail None)
        | _ =>
            if existsb (names_domain lib requiredDomain) arr
            then ret (newSPFResult Pass None)
            else include_loop lib dns_resolve options fuel requiredDomain arr 0
        end
    end.
Proof. destruct l; reflexivity. Qed.

Lemma include_loop_S fuel requiredDomain arr i :
  include_loop lib dns_resolve options (S fuel) requiredDomain arr i
  = match nth_error arr i with
    | None => ret (newSPFResult Fail None)
    | Some m =>
        attempt <- attempt_resolve lib dns_resolve options m ;;
        match attempt with
        | Skipped _ =>
            include_loop lib dns_resolve options fuel requiredDomain arr (S i)
        | other =>
            let m := match other with Resolved _ m' => m' | _ => m end in
            state <-
              (if m_type m =? "include" then
                 evaluated <- evaluateInclude lib dns_resolve options fuel
                                (m_includes m) requiredDomain
                                (Some (slice_from lib (S i) arr)) ;;
                 ret (set_evaluated m evaluated,
                      (slice_from lib (S i) arr
                       ++ included lib (match m_includes m with
                                        | Some l => l
                                        | None => []
                                        end))%list)
               else ret (m, arr)) ;;
            let (m, arr) := state in
            match m_evaluated m with
            | None => raise (ThrownError (err_undefined "result"))
            | Some evaluated =>
                if ResultName_eqb (result evaluated) RNone then
                  throw_result PermError (validation_missed (m_value m))
                else
                  hit <- match_ lib options m None ;;
                  if hit then matched_result lib m
                  else include_loop lib dns_resolve options fuel
                                    requiredDomain arr (S i)
            end
        end
    end.
Proof. reflexivity. Qed.
End SearchEquations.

Section SearchTotalityLazy.
Variable lib : Externals.
Variable dns_resolve : string -> forall t : RRType, DnsReply t.
Variable options : SPFOptions.
Hypothesis lazy : prefetch options = false.

Hint Resolve refused_not_issued refused_not_untyped refused_not_None
  : spf_sound spf_total.
Hint Resolve sound_resolveDNS_addr sound_resolveDNS_mx sound_resolveDNS_txt
  sound_resolve_exchanges sound_resolveMX sound_run_resolver sound_attach
  sound_resolve_loop sound_resolveSPF sound_match_ sound_matched_result
  sound_resolve_lazily sound_evaluate sound_attempt_resolve : spf_sound.
Hint Resolve total_match_ total_matched_result : spf_total.

Lemma included_pending (l : list (Mechanism (Cidr lib))) :
  Forall (@lazy_form (Cidr lib)) l ->
  Forall (@pending (Cidr lib)) (included lib l).
Proof.
  induction 1 as [ | m l [Hi Hr] _ IH]; simpl; [ constructor | ].
  unfold is_include. destruct (m_type m =? "include") eqn:E; [ | exact IH ].
  apply String.eqb_eq in E. constructor; [ | exact IH ].
  repeat split; auto.
Qed.

(** What a returning [attempt_resolve] did to a pending include. *)
Lemma attempt_resolve_cases (m : Mechanism (Cidr lib)) st a st1 :
  pending m ->
  attempt_resolve lib dns_resolve options m st = (Returned a, st1) ->
  queryDNSCount st <= queryDNSCount st1
  /\ match a with
     | Resolved _ m' =>
         queryDNSCount st < maxDNS options
         /\ S (queryDNSCount st) <= queryDNSCount st1
         /\ match m_includes m' with
            | Some l' => Forall (@lazy_form (Cidr lib)) l'
            | None => True
            end
     | Skipped _ =>
         queryDNSCount st < maxDNS options
         /\ S (queryDNSCount st) <= queryDNSCount st1
     | Swallowed _ => True
     end.
Proof.
  intros (Ht & Hi & Hr) E.
  pose proof (sound_attempt_resolve lib dns_resolve options is_refused
                refused_not_issued refused_not_untyped refused_not_None m st)
    as (Hmono & _).
  rewrite E in Hmono. simpl in Hmono. split; [ exact Hmono | ].
  unfold attempt_resolve in E.
  destruct (m_resolve m) as [r | ]; [ | congruence ].
  rewrite lazy in E. cbn [negb] in E. unfold try_catch, bind, ret, throw in E.
  pose proof (consumes_run_resolver lib dns_resolve options is_refused
                refused_not_issued (resolve_fuel options) r st) as Hc.
  destruct (run_resolver lib dns_resolve options
              (resolveSPF lib dns_resolve options (resolve_fuel options)) r st)
    as [[res | [e | msg] | | ] st2] eqn:Er.
  - injection E as <- <-.
    destruct (Hc _ _ eq_refl I) as [H1 H2]. repeat split; auto.
    destruct r as [host rr | host rr | value rr]; cbn [run_resolver] in Er;
      apply bind_returned in Er; destruct Er as (x & st3 & E3 & E4);
      injection E4 as <- _;
      cbn [assign set_records set_exchanges set_includes m_includes];
      try (rewrite Hi; exact I).
    exact (resolveSPF_lazy_form lib dns_resolve options lazy
             (resolve_fuel options) value rr st x st3 E3).
  - destruct (ResultName_eqb (result e) RNone) eqn:En; [ | discriminate ].
    injection E as <- <-. apply ResultName_eqb_eq in En.
    exact (Hc _ _ eq_refl En).
  - injection E as <- <-. exact I.
  - discriminate.
  - discriminate.
Qed.

Lemma total_attempt_resolve k (m : Mechanism (Cidr lib)) :
  total_from k (attempt_resolve lib dns_resolve options m).
Proof.
  unfold attempt_resolve.
  destruct (m_resolve m) as [r | ]; [ | apply total_ret ].
  destruct (negb (prefetch options)); [ | apply total_ret ].
  apply (@total_try_catch options is_refused).
  - sound_auto.
  - apply (@total_bind options is_refused);
      [ sound_auto | | intro; apply total_ret ].
    apply (total_run_resolver lib dns_resolve options is_refused);
      auto with spf_sound.
    intros v rr.
    apply (total_resolveSPF_resolve_fuel lib dns_resolve options is_refused).
    exact refused_not_issued.
  - intros [e | msg]; [ | apply total_ret ].
    destruct (ResultName_eqb (result e) RNone);
      [ apply total_ret | apply total_throw ].
Qed.
Lemma Forall_skipn T (P : T -> Prop) n l : Forall P l -> Forall P (skipn n l).
Proof.
  revert l. induction n as [ | n IH]; intros l H; simpl; auto.
  destruct H; auto.
Qed.

Lemma Forall_nth_error T (P : T -> Prop) l i x :
  Forall P l -> nth_error l i = Some x -> P x.
Proof.
  intros H E. apply nth_error_In in E. rewrite Forall_forall in H. auto.
Qed.

(** Without [prefetch] every turn of the second loop of
    [evaluateInclude] either leaves the loop or counts a lookup, so fuel
    in proportion to the budget that is left is enough. *)
Lemma total_evaluateInclude_lazy requiredDomain fuel :
  (forall l rest k,
      match l with
      | Some l => Forall (@lazy_form (Cidr lib)) l
      | None => True
      end ->
      Forall (@pending (Cidr lib))
             (match rest with Some r => r | None => [] end) ->
      2 * (maxDNS options - k) + 3 <= fuel ->
      total_from k
        (evaluateInclude lib dns_resolve options fuel l requiredDomain rest))
  /\ (forall arr i k,
         Forall (@pending (Cidr lib)) arr ->
         2 * (maxDNS options - k) + 2 <= fuel ->
         total_from k
           (include_loop lib dns_resolve options fuel requiredDomain arr i)).
Proof.
  induction fuel as [ | fuel [IHe IHl]]; split.
  - intros; lia.
  - intros; lia.
  - intros l rest k Hl Hrest Hfuel. rewrite evaluateInclude_S.
    destruct l as [l | ]; [ | apply total_raise ]. cbv zeta.
    set (arr := (_ ++ included lib l)%list).
    assert (Harr : Forall (@pending (Cidr lib)) arr)
      by (apply Forall_app; split; [ exact Hrest | now apply included_pending ]).
    clearbody arr. destruct arr as [ | m0 arr0]; [ apply total_ret | ].
    destruct (existsb _ _); [ apply total_ret | ].
    apply IHl; [ exact Harr | lia ].
  - intros arr i k Harr Hfuel. rewrite include_loop_S.
    destruct (nth_error arr i) as [m | ] eqn:Hm; [ | apply total_ret ].
    pose proof (Forall_nth_error _ _ _ _ _ Harr Hm) as Hpend.
    apply total_bind_gen
      with (Q := fun a k' =>
                   k <= k'
                   /\ match a with
                      | Resolved _ m' =>
                          k < maxDNS options /\ S k <= k'
                          /\ match m_includes m' with
                             | Some l' => Forall (@lazy_form (Cidr lib)) l'
                             | None => True
                             end
                      | Skipped _ => k < maxDNS options /\ S k <= k'
                      | Swallowed _ => True
                      end).
    + intros st a st1 Hk E.
      destruct (attempt_resolve_cases m st a st1 Hpend E) as [Hmono Ha].
      destruct a as [m' | | ].
      * exists (S (queryDNSCount st)). repeat split; try tauto; lia.
      * exists (S (queryDNSCount st)). repeat split; try tauto; lia.
      * exists k. repeat split; auto. lia.
    + apply total_attempt_resolve.
    + intros a k' [Hkk' Ha].
      assert (Hrest : Forall (@pending (Cidr lib)) (slice_from lib (S i) arr))
        by (apply Forall_skipn; exact Harr).
      assert (Hsound : forall l rest,
                 sound options is_refused
                   (evaluateInclude lib dns_resolve options fuel l
                      requiredDomain rest))
        by (intros; apply (proj1 (sound_evaluateInclude lib dns_resolve options
                             is_refused refused_not_issued refused_not_untyped
                             refused_not_None fuel))).
      destruct a as [m' | | ].
      * destruct Ha as (Hlt & Hstep & Hinc).
        apply total_bind_gen
          with (Q := fun state k'' =>
                       k' <= k'' /\ Forall (@pending (Cidr lib)) (snd state)).
        -- intros st state st' Hk E. exists k'. split; [ | split; [ lia | ] ].
           ++ assert (Hs : sound options is_refused
                             (if m_type m' =? "include"
                              then
                                evaluated <- evaluateInclude lib dns_resolve
                                               options fuel (m_includes m')
                                               requiredDomain
                                               (Some (slice_from lib (S i) arr)) ;;
                                ret (set_evaluated m' evaluated,
                                     (slice_from lib (S i) arr
                                      ++ included lib
                                           match m_includes m' with
                                           | Some l => l
                                           | None => []
                                           end)%list)
                              else ret (m', arr)))
                by (destruct (m_type m' =? "include"); sound_auto).
              destruct (Hs st) as (Hmono & _). rewrite E in Hmono.
              simpl in Hmono. lia.
           ++ destruct (m_type m' =? "include").
              ** apply bind_returned in E.
                 destruct E as (ev & st2 & _ & E). injection E as <- _.
                 simpl. apply Forall_app. split; [ exact Hrest | ].
                 destruct (m_includes m') as [l' | ];
                   [ now apply included_pending | constructor ].
              ** injection E as <- _. exact Harr.
        -- destruct (m_type m' =? "include"); [ | apply total_ret ].
           apply (@total_bind options is_refused);
             [ apply Hsound | | intro; apply total_ret ].
           apply IHe; [ exact Hinc | exact Hrest | lia ].
        -- intros [m2 arr2] k'' [Hk'' Harr2]. simpl in Harr2.
           destruct (m_evaluated m2) as [ev | ]; [ | apply total_raise ].
           destruct (ResultName_eqb (result ev) RNone); [ apply total_raise | ].
           apply (@total_bind options is_refused);
             [ apply sound_match_ | apply total_match_ | ].
           intros [ | ]; [ apply (total_matched_result lib options is_refused) | ].
           apply IHl; [ exact Harr2 | lia ].
      * apply IHl; [ exact Harr | lia ].
      * destruct Hpend as (Htype & Hinc & _). cbv beta iota zeta.
        rewrite Htype, Hinc.
        change ("include" =? "include") with true. cbv iota.
        destruct fuel as [ | fuel']; [ lia | ].
        intros st _. rewrite evaluateInclude_S. unfold bind, raise. simpl.
        discriminate.
Qed.
End SearchTotalityLazy.

Lemma weights_app C (l1 l2 : list (Mechanism C)) :
  weights (l1 ++ l2) = weights l1 + weights l2.
Proof. unfold weights. now rewrite map_app, list_sum_app. Qed.

Lemma weights_cons C (m : Mechanism C) l :
  weights (m :: l) = weight m + weights l.
Proof. reflexivity. Qed.

Lemma weight_includes C (m : Mechanism C) :
  weight m
  = S (weights (match m_includes m with Some l => l | None => [] end)).
Proof. destruct m as [? ? ? ? ? ? ? [l | ] ?]; reflexivity. Qed.

Lemma weights_filter C (f : Mechanism C -> bool) l :
  weights (filter f l) <= weights l.
Proof.
  induction l as [ | m l IH]; simpl; [ lia | ].
  destruct (f m); rewrite ?weights_cons; lia.
Qed.

Lemma weights_skipn C n (l : list (Mechanism C)) :
  weights (skipn n l) <= weights l.
Proof.
  revert l. induction n as [ | n IH]; intros [ | m l]; simpl; try lia.
  rewrite weights_cons. specialize (IH l). lia.
Qed.

Lemma skipn_nth_error T (l : list T) i x :
  nth_error l i = Some x -> skipn i l = x :: skipn (S i) l.
Proof.
  revert l. induction i as [ | i IH]; intros [ | y l] E; try discriminate.
  - injection E as ->. reflexivity.
  - simpl in E. change (skipn i l = x :: skipn (S i) l). now apply IH.
Qed.

Lemma total_bind_ret T U k (v : T) (f : T -> M U) :
  total_from k (f v) -> total_from k (bind (ret v) f).
Proof. intros H st Hk. exact (H st Hk). Qed.

Section SearchTotalityEager.
Variable lib : Externals.
Variable dns_resolve : string -> forall t : RRType, DnsReply t.
Variable options : SPFOptions.
Hypothesis eager : prefetch options = true.

Lemma attempt_resolve_eager (m : Mechanism (Cidr lib)) :
  attempt_resolve lib dns_resolve options m = ret (Resolved lib m).
Proof.
  unfold attempt_resolve. rewrite eager.
  destruct (m_resolve m); reflexivity.
Qed.

(** With [prefetch] the searcher walks includes that are already
    resolved: every turn of its second loop takes a mechanism off the
    forest it still has to visit. *)
Lemma total_evaluateInclude_eager requiredDomain fuel :
  (forall l rest k,
      2 * (weights (match rest with Some r => r | None => [] end)
           + weights (included lib (match l with Some l => l | None => [] end)))
      + 2 <= fuel ->
      total_from k
        (evaluateInclude lib dns_resolve options fuel l requiredDomain rest))
  /\ (forall arr i k,
         2 * weights (skipn i arr) + 1 <= fuel ->
         total_from k
           (include_loop lib dns_resolve options fuel requiredDomain arr i)).
Proof.
  induction fuel as [ | fuel [IHe IHl]]; split.
  - intros; lia.
  - intros; lia.
  - intros l rest k Hfuel. rewrite evaluateInclude_S.
    destruct l as [l | ]; [ | apply total_raise ]. cbv zeta.
    set (arr := (_ ++ included lib l)%list) in *.
    assert (Harr : 2 * weights arr + 1 <= fuel)
      by (subst arr; rewrite weights_app; lia).
    clearbody arr. destruct arr as [ | m0 arr0]; [ apply total_ret | ].
    destruct (existsb _ _); [ apply total_ret | ].
    apply IHl. exact Harr.
  - intros arr i k Hfuel. rewrite include_loop_S.
    destruct (nth_error arr i) as [m | ] eqn:Hm; [ | apply total_ret ].
    rewrite attempt_resolve_eager.
    rewrite (skipn_nth_error _ _ _ _ Hm), weights_cons, weight_includes in Hfuel.
    pose proof (weights_filter _ (is_include lib)
                  (match m_includes m with Some l => l | None => [] end)) as Hf.
    fold (included lib (match m_includes m with Some l => l | None => [] end)) in Hf.
    apply total_bind_ret. cbv beta iota zeta.
    apply total_bind_gen
      with (Q := fun state (_ : nat) =>
                   2 * weights (skipn (S i) (snd state)) + 1 <= fuel).
    + intros st state st' _ E. exists 0. split; [ lia | ].
      destruct (m_type m =? "include").
      * apply bind_returned in E.
        destruct E as (ev & st2 & _ & E). injection E as <- _. cbn [snd].
        pose proof (weights_skipn _ (S i)
                      (slice_from lib (S i) arr
                       ++ included lib
                            (match m_includes m with Some l => l | None => [] end)))
          as Hs.
        rewrite weights_app in Hs. unfold slice_from in *.
        change (match arr with [] => [] | _ :: l => skipn i l end)
          with (skipn (S i) arr).
        lia.
      * injection E as <- _. cbn [snd]. lia.
    + destruct (m_type m =? "include"); [ | apply total_ret ].
      intros st Hk. unfold bind.
      assert (He : fst (evaluateInclude lib dns_resolve options fuel
                          (m_includes m) requiredDomain
                          (Some (slice_from lib (S i) arr)) st) <> OutOfFuel).
      { apply (IHe _ _ 0); [ | lia ]. unfold slice_from. cbv beta iota. lia. }
      destruct (evaluateInclude lib dns_resolve options fuel (m_includes m)
                  requiredDomain (Some (slice_from lib (S i) arr)) st)
        as [[ev | e | | ] st2]; simpl in *; try discriminate. congruence.
    + intros [m2 arr2] k' HQ. simpl in HQ.
      destruct (m_evaluated m2) as [ev | ]; [ | apply total_raise ].
      destruct (ResultName_eqb (result ev) RNone); [ apply total_raise | ].
      intros st Hk. unfold bind.
      pose proof (total_match_ lib options 0 m2 None st (Nat.le_0_l _)) as Hmt.
      destruct (match_ lib options m2 None st) as [[[ | ] | e | | ] st2];
        simpl in *; try discriminate; try congruence.
      * apply (total_matched_result lib options is_refused 0). lia.
      * apply (IHl _ _ 0); [ exact HQ | lia ].
Qed.
End SearchTotalityEager.

Lemma getMechanisms_returned lib dns_resolve options domain rrtype st l st1 :
  getMechanisms lib dns_resolve options domain rrtype st = (Returned l, st1) ->
  resolveSPF lib dns_resolve options (resolve_fuel options) (Some domain)
             rrtype st
  = (Returned l, st1).
Proof.
  unfold getMechanisms, bind, try_catch.
  destruct (resolveSPF lib dns_resolve options (resolve_fuel options)
              (Some domain) rrtype st) as [[l0 | [r | msg] | | ] st0];
    try discriminate.
  destruct l0; [ discriminate | ]. intro E. injection E as <- <-. reflexivity.
Qed.

(** Once it has enough fuel, [checkInclude] comes back with a Result
    unless a lookup threw inside its callback. *)
Lemma checkInclude_total lib dns_resolve options domain requiredDomain st :
  exists fuel0, forall fuel, fuel0 <= fuel ->
    (exists r st',
        checkInclude lib dns_resolve options domain fuel requiredDomain st
        = (Returned r, st'))
    \/ fst (checkInclude lib dns_resolve options domain fuel requiredDomain st)
       = Unsettled.
Proof.
  unfold checkInclude.
  destruct (negb (tldjs_isValid lib domain));
    [ exists 0; intros; left; eexists _, _; reflexivity | ].
  unfold try_catch, bind.
  pose proof (total_getMechanisms lib dns_resolve options domain is_refused
                refused_not_issued 0 A st (Nat.le_0_l _)) as Hg.
  destruct (getMechanisms lib dns_resolve options domain A st)
    as [[l | e | | ] st1] eqn:Eg; simpl in Hg.
  - apply getMechanisms_returned in Eg.
    assert (Hfuel : exists fuel0, forall fuel, fuel0 <= fuel ->
               fst (evaluateInclude lib dns_resolve options fuel (Some l)
                      requiredDomain None st1) <> OutOfFuel).
    { destruct (prefetch options) eqn:Hpre.
      - exists (2 * (0 + weights (included lib l)) + 2). intros fuel Hfuel.
        apply (proj1 (total_evaluateInclude_eager lib dns_resolve options Hpre
                        requiredDomain fuel) (Some l) None 0);
          [ exact Hfuel | lia ].
      - exists (2 * (maxDNS options - 0) + 3). intros fuel Hfuel.
        apply (proj1 (total_evaluateInclude_lazy lib dns_resolve options Hpre
                        requiredDomain fuel) (Some l) None 0);
          [ | constructor | exact Hfuel | lia ].
        exact (resolveSPF_lazy_form lib dns_resolve options Hpre _ _ _ _ _ _ Eg). }
    destruct Hfuel as [fuel0 Hfuel]. exists fuel0. intros fuel Hle.
    specialize (Hfuel fuel Hle).
    destruct (evaluateInclude lib dns_resolve options fuel (Some l)
                requiredDomain None st1) as [[r | e | | ] st2]; simpl in Hfuel.
    + left. now exists r, st2.
    + left. rewrite result_of_thrown_eq. now eexists _, _.
    + now right.
    + congruence.
  - exists 0. intros fuel _. left. rewrite result_of_thrown_eq.
    now eexists _, _.
  - exists 0. intros fuel _. now right.
  - congruence.
Qed.

(** ** Checks that settle

    When the pattern of every failing lookup is a regular expression,
    nothing is thrown inside a callback. *)

Create HintDb spf_settles.

Lemma settles_ret T (v : T) : settles (ret v).
Proof. intro st. discriminate. Qed.

Lemma settles_throw T e : settles (@throw T e).
Proof. intro st. discriminate. Qed.

Lemma settles_raise T e : settles (@raise T e).
Proof. intro st. discriminate. Qed.

Lemma settles_throw_result T r msg : settles (@throw_result T r msg).
Proof. intro st. discriminate. Qed.

Lemma settles_out_of_fuel T : settles (@out_of_fuel T).
Proof. intro st. discriminate. Qed.

Lemma settles_add_warnings w : settles (add_warnings w).
Proof. intro st. discriminate. Qed.

Lemma settles_bind T U (m : M T) (k : T -> M U) :
  settles m -> (forall v, settles (k v)) -> settles (bind m k).
Proof.
  intros Hm Hk st. specialize (Hm st). unfold bind.
  destruct (m st) as [[v | e | | ] st1]; simpl in *;
    try discriminate; [ apply Hk | congruence ].
Qed.

Lemma settles_try_catch T (m : M T) handler :
  settles m -> (forall e, settles (handler e)) ->
  settles (try_catch m handler).
Proof.
  intros Hm Hh st. specialize (Hm st). unfold try_catch.
  destruct (m st) as [[v | e | | ] st1]; simpl in *;
    try discriminate; [ apply Hh | congruence ].
Qed.

#[local] Hint Resolve settles_ret settles_throw settles_raise
  settles_throw_result settles_out_of_fuel settles_add_warnings
  : spf_settles.

Ltac settles_auto :=
  repeat first
    [ assumption
    | solve [ eauto with spf_settles nocore ]
    | match goal with
      | |- settles (bind _ _) => apply settles_bind; [ | intro ]
      | |- settles (if ?b then _ else _) => destruct b
      | |- settles (match ?x with _ => _ end) => destruct x
      | |- settles (let (_, _) := ?x in _) => destruct x
      end ].

Section Settles.
Variable lib : Externals.
Variable dns_resolve : string -> forall t : RRType, DnsReply t.
Variable options : SPFOptions.
Hypothesis builds : patterns_build lib dns_resolve.

Lemma settles_resolveDNS hostname rrtype lookupLimit :
  settles (resolveDNS lib dns_resolve options hostname rrtype lookupLimit).
Proof.
  intro st. unfold resolveDNS.
  destruct (_ && _); [ discriminate | ].
  destruct hostname as [h | ]; [ | discriminate ].
  destruct (dns_resolve h rrtype) as [records | msg] eqn:E; [ discriminate | ].
  pose proof (builds h rrtype msg E) as Hb.
  destruct (RegExp_test lib (not_found_pattern h) msg) as [[ | ] | ];
    [ discriminate | discriminate | now elim Hb ].
Qed.

Lemma settles_resolveDNS_txt hostname lookupLimit :
  @settles (list string)
    (resolveDNS lib dns_resolve options hostname TXT lookupLimit).
Proof. exact (settles_resolveDNS hostname TXT lookupLimit). Qed.

Lemma settles_resolveDNS_mx hostname lookupLimit :
  @settles (list MxRecord)
    (resolveDNS lib dns_resolve options hostname MX lookupLimit).
Proof. exact (settles_resolveDNS hostname MX lookupLimit). Qed.

Lemma settles_resolveDNS_addr hostname f lookupLimit :
  @settles (list string)
    (resolveDNS lib dns_resolve options hostname (ADDR f) lookupLimit).
Proof. exact (settles_resolveDNS hostname (ADDR f) lookupLimit). Qed.

Hint Resolve settles_resolveDNS_txt settles_resolveDNS_mx
  settles_resolveDNS_addr : spf_settles.

Lemma settles_resolve_exchanges exchanges rrtype :
  settles (resolve_exchanges lib dns_resolve options exchanges rrtype).
Proof. induction exchanges; simpl; settles_auto. Qed.
Hint Resolve settles_resolve_exchanges : spf_settles.

Lemma settles_resolveMX hostname rrtype :
  settles (resolveMX lib dns_resolve options hostname rrtype).
Proof. unfold resolveMX. settles_auto. Qed.
Hint Resolve settles_resolveMX : spf_settles.

Lemma settles_run_resolver rec r :
  (forall v rr, settles (rec v rr)) ->
  settles (run_resolver lib dns_resolve options rec r).
Proof. intro Hrec. destruct r; simpl; settles_auto. Qed.

Lemma settles_attach hostname rrtype m :
  settles (attach lib hostname rrtype m).
Proof. unfold attach. settles_auto. Qed.
Hint Resolve settles_attach : spf_settles.

Lemma settles_resolve_loop rec hostname rrtype catchAll todo :
  (forall v rr, settles (rec v rr)) ->
  forall resolved,
    settles (resolve_loop lib dns_resolve options rec hostname rrtype
                          catchAll todo resolved).
Proof.
  intro Hrec.
  induction todo as [ | p rest IH]; intro resolved; simpl.
  - settles_auto.
  - match goal with |- settles (if ?b then _ else _) => destruct b end.
    + apply settles_bind;
        [ destruct (negb catchAll); settles_auto | intro; apply IH ].
    + apply settles_bind; [ settles_auto | intro m1 ].
      apply settles_bind.
      * destruct (m_resolve m1); [ | settles_auto ].
        destruct (prefetch options); [ | settles_auto ].
        apply settles_bind;
          [ now apply settles_run_resolver | intro; settles_auto ].
      * intro m2. destruct (m_type m2 =? "all"); settles_auto.
Qed.

Lemma settles_resolveSPF fuel :
  forall hostname rrtype,
    settles (resolveSPF lib dns_resolve options fuel hostname rrtype).
Proof.
  induction fuel as [ | fuel IH]; intros hostname rrtype; simpl.
  - apply settles_out_of_fuel.
  - unfold resolveSPF_body.
    apply settles_bind; [ settles_auto | intro txt ].
    destruct (filter _ txt) as [ | record [ | ? ?]]; settles_auto.
    unfold resolve_policy. now apply settles_resolve_loop.
Qed.
Hint Resolve settles_resolveSPF : spf_settles.

Lemma settles_getMechanisms domain rrtype :
  settles (getMechanisms lib dns_resolve options domain rrtype).
Proof.
  unfold getMechanisms.
  apply settles_bind.
  - apply settles_try_catch; [ apply settles_resolveSPF | ].
    intros [e | msg]; settles_auto.
  - intros [ | m l]; settles_auto.
Qed.

Lemma settles_match_exchanges exchanges addr :
  settles (match_exchanges lib exchanges addr).
Proof. induction exchanges; simpl; settles_auto. Qed.
Hint Resolve settles_match_exchanges : spf_settles.

Lemma settles_match_ m addr : settles (match_ lib options m addr).
Proof. unfold match_. settles_auto. Qed.

Lemma settles_matched_result m : settles (matched_result lib m).
Proof. unfold matched_result, result_of_prefixdesc. settles_auto. Qed.

Lemma settles_resolve_lazily m :
  settles (resolve_lazily lib dns_resolve options m).
Proof.
  unfold resolve_lazily.
  destruct (m_resolve m); [ | settles_auto ].
  destruct (negb (prefetch options)); [ | settles_auto ].
  apply settles_bind;
    [ apply settles_run_resolver; settles_auto | intro; settles_auto ].
Qed.
Hint Resolve settles_getMechanisms settles_match_ settles_matched_result
  settles_resolve_lazily : spf_settles.

Lemma settles_evaluate fuel :
  forall l addr, settles (evaluate lib dns_resolve options fuel l addr).
Proof.
  induction fuel as [ | fuel IH]; intros l addr; simpl.
  - apply settles_out_of_fuel.
  - destruct l as [l | ]; [ | settles_auto ].
    induction l as [ | m rest IHl]; simpl; [ settles_auto | ].
    apply settles_bind; [ settles_auto | intro m1 ].
    apply settles_bind;
      [ destruct (m_type m1 =? "include"); settles_auto | intro m2 ].
    apply settles_bind; [ settles_auto | intros [ | ]; settles_auto ].
Qed.

Lemma settles_attempt_resolve m :
  settles (attempt_resolve lib dns_resolve options m).
Proof.
  unfold attempt_resolve.
  destruct (m_resolve m); [ | settles_auto ].
  destruct (negb (prefetch options)); [ | settles_auto ].
  apply settles_try_catch.
  - apply settles_bind;
      [ apply settles_run_resolver; settles_auto | intro; settles_auto ].
  - intros [e | msg]; settles_auto.
Qed.
Hint Resolve settles_attempt_resolve : spf_settles.

Lemma settles_evaluateInclude requiredDomain fuel :
  (forall l rest,
      settles (evaluateInclude lib dns_resolve options fuel l requiredDomain
                               rest))
  /\ (forall arr i,
         settles (include_loop lib dns_resolve options fuel requiredDomain
                               arr i)).
Proof.
  induction fuel as [ | fuel [IHe IHl]]; split; intros;
    try apply settles_out_of_fuel.
  - rewrite evaluateInclude_S. destruct l; cbv zeta; settles_auto.
  - rewrite include_loop_S.
    destruct (nth_error arr i) as [m | ]; [ | settles_auto ].
    apply settles_bind; [ settles_auto | intro a ].
    destruct a; cbv zeta; settles_auto.
Qed.

Lemma settles_check domain fuel ip :
  settles (check lib dns_resolve options domain fuel ip).
Proof.
  unfold check, result_of_thrown.
  destruct (negb (ipaddr_isValid lib ip)); [ settles_auto | ].
  destruct (negb (tldjs_isValid lib domain)); [ settles_auto | ].
  cbv zeta. apply settles_try_catch.
  - apply settles_bind; [ settles_auto | intro; apply settles_evaluate ].
  - intros [e | msg]; settles_auto.
Qed.

Lemma settles_checkInclude domain fuel requiredDomain :
  settles (checkInclude lib dns_resolve options domain fuel requiredDomain).
Proof.
  unfold checkInclude, result_of_thrown.
  destruct (negb (tldjs_isValid lib domain)); [ settles_auto | ].
  apply settles_try_catch.
  - apply settles_bind; [ settles_auto | intro ].
    apply (proj1 (settles_evaluateInclude requiredDomain fuel)).
  - intros [e | msg]; settles_auto.
Qed.
End Settles.

(** With patterns that build, a check with enough fuel returns a
    Result. *)
Lemma check_returns lib dns_resolve options domain ip st :
  patterns_build lib dns_resolve ->
  exists fuel0, forall fuel, fuel0 <= fuel ->
    exists r st',
      check lib dns_resolve options domain fuel ip st = (Returned r, st').
Proof.
  intro Hb.
  destruct (check_total lib dns_resolve options domain ip st) as [fuel0 H].
  exists fuel0. intros fuel Hle.
  destruct (H fuel Hle) as [Hr | Hu]; [ exact Hr | ].
  now apply (settles_check lib dns_resolve options Hb) in Hu.
Qed.

Lemma checkInclude_returns lib dns_resolve options domain requiredDomain st :
  patterns_build lib dns_resolve ->
  exists fuel0, forall fuel, fuel0 <= fuel ->
    exists r st',
      checkInclude lib dns_resolve options domain fuel requiredDomain st
      = (Returned r, st').
Proof.
  intro Hb.
  destruct (checkInclude_total lib dns_resolve options domain requiredDomain
              st) as [fuel0 H].
  exists fuel0. intros fuel Hle.
  destruct (H fuel Hle) as [Hr | Hu]; [ exact Hr | ].
  now apply (settles_checkInclude lib dns_resolve options Hb) in Hu.
Qed.

(** What [_.merge] does to the matched list of an [include]. *)
Lemma merge_onto_singleton t x xs : merge [t] (x :: xs) = x :: xs.
Proof. destruct xs; reflexivity. Qed.

Lemma matched_result_of_include lib (m : Mechanism (Cidr lib)) ev st r st' :
  m_type m = "include" ->
  m_evaluated m = Some ev ->
  matched ev <> [] ->
  matched_result lib m st = (Returned r, st') ->
  matched r = matched ev.
Proof.
  intros Ht He Hne E. unfold matched_result in E.
  apply bind_returned in E. destruct E as (r0 & st0 & _ & E).
  rewrite Ht, He in E. change ("include" =? "include") with true in E.
  cbv iota in E. injection E as <- _. cbn [matched].
  destruct (matched ev) as [ | x xs]; [ contradiction | ].
  destruct xs; reflexivity.
Qed.

(** ** The log is written, never read *)

Create HintDb spf_blind.

Lemma blind_ret T (v : T) : log_blind (ret v).
Proof. intros l st. reflexivity. Qed.

Lemma blind_throw T e : log_blind (@throw T e).
Proof. intros l st. reflexivity. Qed.

Lemma blind_raise T e : log_blind (@raise T e).
Proof.
  intros l st. unfold raise, earlier. simpl. now rewrite app_assoc.
Qed.

Lemma blind_throw_result T r msg : log_blind (@throw_result T r msg).
Proof. apply blind_raise. Qed.

Lemma blind_out_of_fuel T : log_blind (@out_of_fuel T).
Proof. intros l st. reflexivity. Qed.

Lemma blind_add_warnings w : log_blind (add_warnings w).
Proof. intros l st. reflexivity. Qed.

Lemma blind_bind T U (m : M T) (k : T -> M U) :
  log_blind m -> (forall v, log_blind (k v)) -> log_blind (bind m k).
Proof.
  intros Hm Hk l st. unfold bind. rewrite (Hm l st).
  destruct (m st) as [[v | e | | ] st1]; simpl; try reflexivity.
  apply Hk.
Qed.

Lemma blind_try_catch T (m : M T) handler :
  log_blind m -> (forall e, log_blind (handler e)) ->
  log_blind (try_catch m handler).
Proof.
  intros Hm Hh l st. unfold try_catch. rewrite (Hm l st).
  destruct (m st) as [[v | e | | ] st1]; simpl; try reflexivity.
  apply Hh.
Qed.

#[local] Hint Resolve blind_ret blind_throw blind_raise blind_throw_result
  blind_out_of_fuel blind_add_warnings : spf_blind.

Ltac blind_auto :=
  repeat first
    [ assumption
    | solve [ eauto with spf_blind nocore ]
    | match goal with
      | |- log_blind (bind _ _) => apply blind_bind; [ | intro ]
      | |- log_blind (if ?b then _ else _) => destruct b
      | |- log_blind (match ?x with _ => _ end) => destruct x
      | |- log_blind (let (_, _) := ?x in _) => destruct x
      end ].

Section LogBlind.
Variable lib : Externals.
Variable dns_resolve : string -> forall t : RRType, DnsReply t.
Variable options : SPFOptions.

Lemma blind_resolveDNS hostname rrtype lookupLimit :
  log_blind (resolveDNS lib dns_resolve options hostname rrtype lookupLimit).
Proof.
  intros l st. unfold resolveDNS, earlier. cbn [queryDNSCount].
  destruct (_ && _).
  { unfold throw, refuse_lookup. simpl. now rewrite app_assoc. }
  destruct hostname as [h | ].
  2:{ unfold raise. simpl. now rewrite app_assoc. }
  destruct (dns_resolve h rrtype) as [records | msg].
  { unfold ret, count_lookup. simpl. now rewrite app_assoc. }
  destruct (RegExp_test lib (not_found_pattern h) msg) as [[ | ] | ];
    unfold throw_result, raise, unsettled, count_lookup; simpl;
    now rewrite <- ?app_assoc.
Qed.

Lemma blind_resolveDNS_txt hostname lookupLimit :
  @log_blind (list string)
    (resolveDNS lib dns_resolve options hostname TXT lookupLimit).
Proof. exact (blind_resolveDNS hostname TXT lookupLimit). Qed.

Lemma blind_resolveDNS_mx hostname lookupLimit :
  @log_blind (list MxRecord)
    (resolveDNS lib dns_resolve options hostname MX lookupLimit).
Proof. exact (blind_resolveDNS hostname MX lookupLimit). Qed.

Lemma blind_resolveDNS_addr hostname f lookupLimit :
  @log_blind (list string)
    (resolveDNS lib dns_resolve options hostname (ADDR f) lookupLimit).
Proof. exact (blind_resolveDNS hostname (ADDR f) lookupLimit). Qed.

Hint Resolve blind_resolveDNS_txt blind_resolveDNS_mx
  blind_resolveDNS_addr : spf_blind.

Lemma blind_resolve_exchanges exchanges rrtype :
  log_blind (resolve_exchanges lib dns_resolve options exchanges rrtype).
Proof. induction exchanges; simpl; blind_auto. Qed.
Hint Resolve blind_resolve_exchanges : spf_blind.

Lemma blind_resolveMX hostname rrtype :
  log_blind (resolveMX lib dns_resolve options hostname rrtype).
Proof. unfold resolveMX. blind_auto. Qed.
Hint Resolve blind_resolveMX : spf_blind.

Lemma blind_run_resolver rec r :
  (forall v rr, log_blind (rec v rr)) ->
  log_blind (run_resolver lib dns_resolve options rec r).
Proof. intro Hrec. destruct r; simpl; blind_auto. Qed.

Lemma blind_attach hostname rrtype m :
  log_blind (attach lib hostname rrtype m).
Proof. unfold attach. blind_auto. Qed.
Hint Resolve blind_attach : spf_blind.

Lemma blind_resolve_loop rec hostname rrtype catchAll todo :
  (forall v rr, log_blind (rec v rr)) ->
  forall resolved,
    log_blind (resolve_loop lib dns_resolve options rec hostname rrtype
                            catchAll todo resolved).
Proof.
  intro Hrec.
  induction todo as [ | p rest IH]; intro resolved; simpl.
  - blind_auto.
  - match goal with |- log_blind (if ?b then _ else _) => destruct b end.
    + apply blind_bind;
        [ destruct (negb catchAll); blind_auto | intro; apply IH ].
    + apply blind_bind; [ blind_auto | intro m1 ].
      apply blind_bind.
      * destruct (m_resolve m1); [ | blind_auto ].
        destruct (prefetch options); [ | blind_auto ].
        apply blind_bind;
          [ now apply blind_run_resolver | intro; blind_auto ].
      * intro m2. destruct (m_type m2 =? "all"); blind_auto.
Qed.

Lemma blind_resolveSPF fuel :
  forall hostname rrtype,
    log_blind (resolveSPF lib dns_resolve options fuel hostname rrtype).
Proof.
  induction fuel as [ | fuel IH]; intros hostname rrtype; simpl.
  - apply blind_out_of_fuel.
  - unfold resolveSPF_body.
    apply blind_bind; [ blind_auto | intro txt ].
    destruct (filter _ txt) as [ | record [ | ? ?]]; blind_auto.
    unfold resolve_policy. now apply blind_resolve_loop.
Qed.
Hint Resolve blind_resolveSPF : spf_blind.

Lemma blind_getMechanisms domain rrtype :
  log_blind (getMechanisms lib dns_resolve options domain rrtype).
Proof.
  unfold getMechanisms.
  apply blind_bind.
  - apply blind_try_catch; [ apply blind_resolveSPF | ].
    intros [e | msg]; blind_auto.
  - intros [ | m l]; blind_auto.
Qed.

Lemma blind_match_exchanges exchanges addr :
  log_blind (match_exchanges lib exchanges addr).
Proof. induction exchanges; simpl; blind_auto. Qed.
Hint Resolve blind_match_exchanges : spf_blind.

Lemma blind_match_ m addr : log_blind (match_ lib options m addr).
Proof. unfold match_. blind_auto. Qed.

Lemma blind_matched_result m : log_blind (matched_result lib m).
Proof. unfold matched_result, result_of_prefixdesc. blind_auto. Qed.

Lemma blind_resolve_lazily m :
  log_blind (resolve_lazily lib dns_resolve options m).
Proof.
  unfold resolve_lazily.
  destruct (m_resolve m); [ | blind_auto ].
  destruct (negb (prefetch options)); [ | blind_auto ].
  apply blind_bind;
    [ apply blind_run_resolver; blind_auto | intro; blind_auto ].
Qed.
Hint Resolve blind_getMechanisms blind_match_ blind_matched_result
  blind_resolve_lazily : spf_blind.

Lemma blind_evaluate fuel :
  forall l addr, log_blind (evaluate lib dns_resolve options fuel l addr).
Proof.
  induction fuel as [ | fuel IH]; intros l addr; simpl.
  - apply blind_out_of_fuel.
  - destruct l as [l | ]; [ | blind_auto ].
    induction l as [ | m rest IHl]; simpl; [ blind_auto | ].
    apply blind_bind; [ blind_auto | intro m1 ].
    apply blind_bind;
      [ destruct (m_type m1 =? "include"); blind_auto | intro m2 ].
    apply blind_bind; [ blind_auto | intros [ | ]; blind_auto ].
Qed.

Lemma blind_attempt_resolve m :
  log_blind (attempt_resolve lib dns_resolve options m).
Proof.
  unfold attempt_resolve.
  destruct (m_resolve m); [ | blind_auto ].
  destruct (negb (prefetch options)); [ | blind_auto ].
  apply blind_try_catch.
  - apply blind_bind;
      [ apply blind_run_resolver; blind_auto | intro; blind_auto ].
  - intros [e | msg]; blind_auto.
Qed.
Hint Resolve blind_attempt_resolve : spf_blind.

Lemma blind_evaluateInclude requiredDomain fuel :
  (forall l rest,
      log_blind (evaluateInclude lib dns_resolve options fuel l requiredDomain
                                 rest))
  /\ (forall arr i,
         log_blind (include_loop lib dns_resolve options fuel requiredDomain
                                 arr i)).
Proof.
  induction fuel as [ | fuel [IHe IHl]]; split; intros;
    try apply blind_out_of_fuel.
  - rewrite evaluateInclude_S. destruct l; cbv zeta; blind_auto.
  - rewrite include_loop_S.
    destruct (nth_error arr i) as [m | ]; [ | blind_auto ].
    apply blind_bind; [ blind_auto | intro a ].
    destruct a; cbv zeta; blind_auto.
Qed.

Lemma blind_check domain fuel ip :
  log_blind (check lib dns_resolve options domain fuel ip).
Proof.
  unfold check, result_of_thrown.
  destruct (negb (ipaddr_isValid lib ip)); [ blind_auto | ].
  destruct (negb (tldjs_isValid lib domain)); [ blind_auto | ].
  cbv zeta. apply blind_try_catch.
  - apply blind_bind; [ blind_auto | intro; apply blind_evaluate ].
  - intros [e | msg]; blind_auto.
Qed.

Lemma blind_checkInclude domain fuel requiredDomain :
  log_blind (checkInclude lib dns_resolve options domain fuel requiredDomain).
Proof.
  unfold checkInclude, result_of_thrown.
  destruct (negb (tldjs_isValid lib domain)); [ blind_auto | ].
  apply blind_try_catch.
  - apply blind_bind; [ blind_auto | intro ].
    apply (proj1 (blind_evaluateInclude requiredDomain fuel)).
  - intros [e | msg]; blind_auto.
Qed.

(** A check started in [st] is the check started with an empty log, with
    the log of [st] before what it logs. *)
Lemma earlier_log st :
  earlier (log st) (mkState (queryDNSCount st) (warnings st) []) = st.
Proof. destruct st. unfold earlier. simpl. now rewrite app_nil_r. Qed.

Lemma since_start T (m : M T) st :
  log_blind m ->
  let st0 := mkState (queryDNSCount st) (warnings st) [] in
  fst (m st) = fst (m st0) /\ during st (snd (m st)) = snd (m st0).
Proof.
  intros Hm st0. pose proof (Hm (log st) st0) as E.
  subst st0. rewrite earlier_log in E. rewrite E. simpl.
  split; [ reflexivity | ].
  destruct (snd (m (mkState (queryDNSCount st) (warnings st) []))).
  unfold during, earlier. simpl.
  now rewrite skipn_app, Nat.sub_diag, skipn_all.
Qed.
End LogBlind.

(** * The claims *)




(** C2: a client IP that is not a valid address, or a domain that is not a
    valid domain name, makes [check] return None at once: the state is
    untouched, so the counter keeps its value (0 at the start of a check)
    and no call reaches the resolver. *)
Theorem malformed_input_is_None lib dns_resolve options domain fuel ip st :
  ipaddr_isValid lib ip = false \/ tldjs_isValid lib domain = false ->
  exists r,
    check lib dns_resolve options domain fuel ip st = (Returned r, st)
    /\ result r = RNone.
Proof.
  intros H. unfold check.
  destruct (ipaddr_isValid lib ip); simpl.
  - destruct H as [H | H]; [discriminate | ]. rewrite H; simpl.
    eexists; split; reflexivity.
  - eexists; split; reflexivity.
Qed.

Lemma malformed_input_is_None_witness :
  exists r,
    check Fixture.lib Fixture.zone_include default_options "example.com"
      3 "127.0.0.256" initial_state = (Returned r, initial_state)
    /\ result r = RNone.
Proof.
  apply malformed_input_is_None. left. reflexivity.
Defined.



(** C4: nothing declared after an [all] mechanism is resolved or matched.
    The loop of [resolveSPF] on a policy behaves, result and state, as on
    the policy cut after that [all], so no DNS work is done for what
    follows; when the policy has an [all] the list returned ends with an
    [all] mechanism and has no other; and the loop of [evaluate] on a
    list behaves as on the list cut after an [all] mechanism. *)
Theorem nothing_after_all lib dns_resolve options rec evaluate hostname rrtype :
  (forall catchAll pre p post resolved st,
      p_type p = "all" ->
      resolve_loop lib dns_resolve options rec hostname rrtype catchAll
                   (pre ++ p :: post) resolved st
      = resolve_loop lib dns_resolve options rec hostname rrtype catchAll
                     (pre ++ [p]) resolved st)
  /\ (forall ms st l st',
         catch_all ms = true ->
         resolve_policy lib dns_resolve options rec hostname rrtype ms st
         = (Returned l, st') ->
         ends_with_all lib l)
  /\ (forall pre m post addr st,
         m_type m = "all" ->
         evaluate_loop lib dns_resolve options evaluate (pre ++ m :: post)
                       addr st
         = evaluate_loop lib dns_resolve options evaluate (pre ++ [m]) addr st).
Proof.
  split; [ | split ].
  - intros. now apply resolve_loop_stops_at_all.
  - intros ms st l st' Hall E. unfold resolve_policy in E. rewrite Hall in E.
    exact (resolve_loop_ends_with_all lib dns_resolve options rec hostname
             rrtype ms [] Hall eq_refl st l st' E).
  - intros. now apply evaluate_loop_stops_at_all.
Qed.

Lemma nothing_after_all_witness :
  let rec := resolveSPF Fixture.lib Fixture.zone_all_redirect default_options 3 in
  resolve_loop Fixture.lib Fixture.zone_all_redirect default_options rec
    (Some "example.com") A true
    ([Fixture.v1]
     ++ Fixture.mech "-" "all" None
        :: [Fixture.mech "+" "redirect" (Some "_spf.example.com");
            Fixture.mech "+" "a" None])
    [] initial_state
  = resolve_loop Fixture.lib Fixture.zone_all_redirect default_options rec
      (Some "example.com") A true
      ([Fixture.v1] ++ [Fixture.mech "-" "all" None]) [] initial_state.
Proof.
  intro rec.
  apply (proj1 (nothing_after_all Fixture.lib Fixture.zone_all_redirect
                  default_options rec
                  (evaluate Fixture.lib Fixture.zone_all_redirect
                     default_options 3)
                  (Some "example.com") A)).
  reflexivity.
Defined.

(** C5: when the TXT lookup of the checked domain answers with records,
    [check] returns None if no record starts with the version tag
    [v=spf<version> ] and PermError if more than one does, and in both
    cases exactly one lookup has been made: the TXT query of the domain. *)
Theorem qualifying_record_count lib
    (dns_resolve : string -> forall t : RRType, DnsReply t)
    options domain fuel ip (records : list (list string)) :
  ipaddr_isValid lib ip = true ->
  tldjs_isValid lib domain = true ->
  0 < maxDNS options ->
  dns_resolve domain TXT = @DnsOk TXT records ->
  let qualifying :=
    filter (fun record => startsWith record (version_tag options))
           (map join records) in
  let run := check lib dns_resolve options domain fuel ip initial_state in
  (qualifying = [] \/ 1 < List.length qualifying ->
   exists r,
     fst run = Returned r
     /\ result r = (match qualifying with [] => RNone | _ => PermError end)
     /\ queryDNSCount (snd run) = 1
     /\ lookups (snd run) = [(domain, TXT)]).
Proof.
  intros Hip Hdom Hmax Hreply qualifying run Hq. subst run.
  unfold check. rewrite Hip, Hdom. simpl.
  unfold try_catch, bind, getMechanisms, try_catch, bind, resolve_fuel.
  simpl resolveSPF. unfold resolveSPF_body, bind, resolveDNS. simpl.
  destruct (maxDNS options) as [ | n]; [lia | ]. simpl.
  rewrite Hreply. simpl. fold qualifying.
  destruct qualifying as [ | r1 [ | r2 rest]]; simpl.
  - eexists; repeat split.
  - destruct Hq as [Hq | Hq]; [discriminate | simpl in Hq; lia].
  - eexists; repeat split.
Qed.

Lemma qualifying_record_count_witness :
  exists r,
    fst (check Fixture.lib Fixture.zone_two_spf default_options "example.com"
           0 "127.0.0.1" initial_state) = Returned r
    /\ result r = PermError
    /\ queryDNSCount
         (snd (check Fixture.lib Fixture.zone_two_spf default_options
                 "example.com" 0 "127.0.0.1" initial_state)) = 1
    /\ lookups
         (snd (check Fixture.lib Fixture.zone_two_spf default_options
                 "example.com" 0 "127.0.0.1" initial_state))
       = [("example.com", TXT)].
Proof.
  apply (qualifying_record_count Fixture.lib Fixture.zone_two_spf
           default_options "example.com" 0 "127.0.0.1"
           [["v=spf1 ip4:127.0.0.1"]; ["v=spf1 "; "a"]]
           eq_refl eq_refl (Nat.lt_0_succ 9) eq_refl).
  right. simpl. lia.
Defined.

(** C6 as stated fails: the resolver's name-not-found for an A lookup of
    [example.com] (Node reports [queryA ENOTFOUND example.com]) is turned
    into TempError, not None. *)
Lemma not_found_on_address_lookup_is_TempError :
  Fixture.no_records "example.com" (ADDR A)
  = DnsErr "queryA ENOTFOUND example.com"
  /\ fst (resolveDNS Fixture.lib Fixture.no_records default_options
            (Some "example.com") (ADDR A) None initial_state)
     = Threw (ThrownResult
                (newSPFResult TempError (Some "queryA ENOTFOUND example.com")))
  /\ result (newSPFResult TempError (Some "queryA ENOTFOUND example.com"))
     <> RNone.
Proof. repeat split; discriminate. Qed.

(** C6, amended: a lookup that passes the budget check and fails with an
    error text, for a hostname from which the pattern
    [queryTxt (ENOTFOUND|ENODATA) <hostname>] is a regular expression,
    fails with None ("Domain does not exists") exactly when the text
    matches that pattern, which is the form of a name-not-found or no-data
    error of a TXT query; every other such failure, name-not-found of an
    A, AAAA or MX query included, fails with TempError, whose message is
    the error text when that text is not empty. *)
Theorem lookup_failure_outcome lib
    (dns_resolve : string -> forall t : RRType, DnsReply t)
    options h rrtype lookupLimit st msg :
  lookupLimit = Some false \/ queryDNSCount st < maxDNS options ->
  dns_resolve h rrtype = DnsErr msg ->
  RegExp_test lib ("queryTxt (ENOTFOUND|ENODATA) " ++ h) msg <> None ->
  let thrown := fst (resolveDNS lib dns_resolve options (Some h) rrtype
                       lookupLimit st) in
  (RegExp_test lib ("queryTxt (ENOTFOUND|ENODATA) " ++ h) msg = Some true ->
   thrown = Threw (ThrownResult
                     (mkSPFResult RNone "Domain does not exists" "default" [])))
  /\ (RegExp_test lib ("queryTxt (ENOTFOUND|ENODATA) " ++ h) msg = Some false ->
      exists r, thrown = Threw (ThrownResult r)
                /\ result r = TempError
                /\ (msg <> EmptyString -> message r = msg))
  /\ (thrown = Threw (ThrownResult
                        (mkSPFResult RNone "Domain does not exists"
                                     "default" []))
      \/ exists r, thrown = Threw (ThrownResult r) /\ result r = TempError).
Proof.
  intros Hbudget Hreply Hbuilds thrown. subst thrown. unfold resolveDNS.
  assert (Hpass : match lookupLimit with None => true | Some b => b end
                  && (maxDNS options <=? queryDNSCount st)%nat = false).
  { destruct Hbudget as [-> | Hlt]; [reflexivity | ].
    apply Nat.leb_gt in Hlt. rewrite Hlt. apply andb_false_r. }
  rewrite Hpass, Hreply. unfold not_found_pattern in *.
  destruct (RegExp_test lib ("queryTxt (ENOTFOUND|ENODATA) " ++ h) msg)
    as [[ | ] | ]; [ | | now elim Hbuilds ]; simpl.
  - split; [ reflexivity | ]. split; [ discriminate | ]. now left.
  - split; [ discriminate | ].
    assert (Hm : msg <> EmptyString ->
                 message (newSPFResult TempError (Some msg)) = msg).
    { intros Hne. unfold newSPFResult; simpl.
      destruct (msg =? EmptyString) eqn:E; [ | reflexivity ].
      apply String.eqb_eq in E. contradiction. }
    split; [ intros _ | right ]; eexists; repeat split; auto.
Qed.

Lemma lookup_failure_outcome_witness :
  fst (resolveDNS Fixture.lib Fixture.no_records default_options
         (Some "example.com") TXT None initial_state)
  = Threw (ThrownResult
             (mkSPFResult RNone "Domain does not exists" "default" [])).
Proof.
  apply (proj1 (lookup_failure_outcome Fixture.lib Fixture.no_records
                  default_options "example.com" TXT None initial_state
                  "queryTxt ENOTFOUND example.com"
                  (or_intror (Nat.lt_0_succ 9)) eq_refl
                  ltac:(discriminate))).
  reflexivity.
Defined.

(** C7 at two failing inputs. First, [example.com] publishes
    [v=spf1 ~include:_spf1.example.com] and [_spf1.example.com] publishes
    [v=spf1 include:_spf2.example.com]: the required domain
    [_spf2.example.com] is found one level down, and the search returns
    SoftFail, the qualifier of the enclosing include, not Pass. Second,
    [example.com] includes five domains whose policies include nothing:
    the search for a domain that is not among them looks up the last
    includes again and again while unwinding, asks for a twelfth lookup
    where a breadth-first search needs six, and ends in PermError under
    the default budget of ten instead of Fail. *)
Theorem include_search_failing_inputs :
  fst (checkInclude Fixture.lib Fixture.zone_soft_chain default_options
         "example.com" 40 "_spf2.example.com" initial_state)
  = Returned (mkSPFResult SoftFail (messages SoftFail) "include" ["include"])
  /\ checkInclude Fixture.lib Fixture.zone_five_includes default_options
       "example.com" 40 "other.example.com" initial_state
     = (Returned limit_reached,
        mkState 10 []
          [Issued "example.com" TXT; Issued "a.example.com" TXT;
           Issued "b.example.com" TXT; Issued "c.example.com" TXT;
           Issued "d.example.com" TXT; Issued "e.example.com" TXT;
           Issued "e.example.com" TXT; Issued "d.example.com" TXT;
           Issued "e.example.com" TXT; Issued "c.example.com" TXT;
           Refused (Some "d.example.com") TXT]).
Proof. split; reflexivity. Qed.

(** C8 at a failing input: [example.com] publishes
    [v=spf1 include:_spf.example.com] and [_spf.example.com] publishes
    [v=spf1 +all]. The include is the first match, the nested result has
    matched [all], and the returned [matched] is [all] alone: [_.merge]
    overwrote the [include] entry instead of joining the two lists. The
    same happens one level deeper. *)
Theorem include_match_loses_include_type :
  fst (check Fixture.lib Fixture.zone_include default_options "example.com"
         3 "127.0.0.1" initial_state)
  = Returned (mkSPFResult Pass (messages Pass) "include" ["all"])
  /\ fst (check Fixture.lib Fixture.zone_chain default_options "example.com"
            3 "127.0.0.1" initial_state)
     = Returned (mkSPFResult Pass (messages Pass) "include" ["ip4"]).
Proof. split; reflexivity. Qed.




(** C10: a budgeted lookup that passes the budget check reaches the
    resolver and adds exactly one to the counter whatever the resolver
    answers, records or an error; a lookup with the budget flag off never
    changes the counter. *)
Theorem budgeted_lookup_costs_one lib dns_resolve options :
  (forall h rrtype lookupLimit st,
      lookupLimit <> Some false ->
      queryDNSCount st < maxDNS options ->
      let st' := snd (resolveDNS lib dns_resolve options (Some h) rrtype
                        lookupLimit st) in
      queryDNSCount st' = S (queryDNSCount st)
      /\ lookups st' = (lookups st ++ [(h, rrtype)])%list)
  /\ (forall hostname rrtype st,
        queryDNSCount
          (snd (resolveDNS lib dns_resolve options hostname rrtype (Some false) st))
        = queryDNSCount st).
Proof.
  split.
  - intros h rrtype lookupLimit st Hb Hlt. unfold resolveDNS.
    apply Nat.leb_gt in Hlt. rewrite Hlt, andb_false_r.
    assert (Hk : match lookupLimit with None => true | Some b => b end = true)
      by (destruct lookupLimit as [[ | ] | ]; congruence).
    rewrite Hk. unfold lookups.
    destruct (dns_resolve h rrtype) as [records | msg];
      [ | destruct (RegExp_test lib (not_found_pattern h) msg) as [[ | ] | ] ];
      simpl; rewrite ?issued_app; simpl; rewrite ?app_nil_r; auto.
  - intros hostname rrtype st. unfold resolveDNS. simpl.
    destruct hostname as [h | ]; [ | reflexivity ].
    destruct (dns_resolve h rrtype) as [records | msg];
      [ | destruct (RegExp_test lib (not_found_pattern h) msg) as [[ | ] | ] ];
      reflexivity.
Qed.

Lemma budgeted_lookup_costs_one_witness :
  let st' := snd (resolveDNS Fixture.lib Fixture.no_records default_options
                    (Some "example.com") TXT None initial_state) in
  queryDNSCount st' = 1 /\ lookups st' = [("example.com", TXT)].
Proof.
  apply (proj1 (budgeted_lookup_costs_one Fixture.lib Fixture.no_records
                  default_options) "example.com" TXT None initial_state).
  - discriminate.
  - simpl. lia.
Defined.

(** * Further properties of the engine *)

(** ** Relations every operation keeps *)

Create HintDb spf_keep.

Section Preservation.
Variable R : State -> State -> Prop.
Hypothesis R_refl : forall st, R st st.
Hypothesis R_trans : forall a b c, R a b -> R b c -> R a c.
Hypothesis R_raise : forall e st, R st (raised e st).

Lemma keep_ret T (v : T) : preserves R (ret v).
Proof. intro st. apply R_refl. Qed.

Lemma keep_throw T e : preserves R (@throw T e).
Proof. intro st. apply R_refl. Qed.

Lemma keep_out_of_fuel T : preserves R (@out_of_fuel T).
Proof. intro st. apply R_refl. Qed.

Lemma keep_raise T e : preserves R (@raise T e).
Proof. intro st. apply R_raise. Qed.

Lemma keep_throw_result T r msg : preserves R (@throw_result T r msg).
Proof. apply keep_raise. Qed.

Lemma keep_bind T U (m : M T) (k : T -> M U) :
  preserves R m -> (forall v, preserves R (k v)) -> preserves R (bind m k).
Proof.
  intros Hm Hk st. specialize (Hm st). unfold bind.
  destruct (m st) as [[v | e | | ] st1]; simpl in *; auto.
  eapply R_trans; [ exact Hm | apply Hk ].
Qed.

Lemma keep_try_catch T (m : M T) handler :
  preserves R m -> (forall e, preserves R (handler e)) ->
  preserves R (try_catch m handler).
Proof.
  intros Hm Hh st. specialize (Hm st). unfold try_catch.
  destruct (m st) as [[v | e | | ] st1]; simpl in *; auto.
  eapply R_trans; [ exact Hm | apply Hh ].
Qed.

Hint Resolve keep_ret keep_throw keep_out_of_fuel keep_raise
  keep_throw_result keep_bind keep_try_catch : spf_keep.

Ltac keep_auto :=
  repeat first
    [ assumption
    | solve [ eauto with spf_keep nocore ]
    | match goal with
      | |- preserves _ (bind _ _) => apply keep_bind; [ | intro ]
      | |- preserves _ (if ?b then _ else _) => destruct b
      | |- preserves _ (match ?x with _ => _ end) => destruct x
      | |- preserves _ (let (_, _) := ?x in _) => destruct x
      end ].

Variable lib : Externals.
Variable dns_resolve : string -> forall t : RRType, DnsReply t.
Variable options : SPFOptions.

Lemma keep_match_exchanges exchanges addr :
  preserves R (match_exchanges lib exchanges addr).
Proof. induction exchanges; simpl; keep_auto. Qed.
Hint Resolve keep_match_exchanges : spf_keep.

Lemma keep_match_ m addr : preserves R (match_ lib options m addr).
Proof. unfold match_. keep_auto. Qed.

Lemma keep_matched_result m : preserves R (matched_result lib m).
Proof. unfold matched_result, result_of_prefixdesc. keep_auto. Qed.

Lemma keep_attach hostname rrtype m :
  preserves R (attach lib hostname rrtype m).
Proof. unfold attach. keep_auto. Qed.

Hint Resolve keep_match_ keep_matched_result keep_attach : spf_keep.

(** *** What the engine keeps, given what its lookups keep *)
Section Layers.
Hypothesis R_warn : forall w st, R st (warned w st).
Hypothesis keep_txt :
  forall hostname,
    @preserves R (list string)
      (resolveDNS lib dns_resolve options hostname TXT None).

Hint Resolve keep_txt : spf_keep.

Lemma keep_add_warnings w : preserves R (add_warnings w).
Proof. intro st. apply R_warn. Qed.
Hint Resolve keep_add_warnings : spf_keep.

(** The body of [resolveSPF] once its loop is known to keep [R]. *)
Lemma keep_resolveSPF_body rec hostname rrtype :
  (forall ms, preserves R
                (resolve_policy lib dns_resolve options rec hostname rrtype ms)) ->
  preserves R (resolveSPF_body lib dns_resolve options rec hostname rrtype).
Proof.
  intros Hloop. unfold resolveSPF_body.
  apply keep_bind; [ apply keep_txt | intro txt ].
  destruct (filter _ txt) as [ | record [ | ? ?]]; keep_auto.
Qed.

(** Without [prefetch] the loop of [resolveSPF] issues no lookup of its
    own. *)
Lemma keep_resolve_loop_lazy rec hostname rrtype catchAll todo :
  prefetch options = false ->
  (forall v rr, preserves R (rec v rr)) ->
  forall resolved,
    preserves R
      (resolve_loop lib dns_resolve options rec hostname rrtype catchAll todo
                    resolved).
Proof.
  intros Hlazy Hrec.
  induction todo as [ | p rest IH]; intro resolved; simpl.
  - keep_auto.
  - rewrite Hlazy.
    match goal with |- preserves _ (if ?b then _ else _) => destruct b end.
    + apply keep_bind; [ destruct (negb catchAll); keep_auto | intro; apply IH ].
    + apply keep_bind; [ keep_auto | intro m1 ].
      apply keep_bind; [ destruct (m_resolve m1); keep_auto | intro m2 ].
      destruct (m_type m2 =? "all"); keep_auto.
Qed.

Lemma keep_resolveSPF_lazy fuel :
  prefetch options = false ->
  forall hostname rrtype,
    preserves R (resolveSPF lib dns_resolve options fuel hostname rrtype).
Proof.
  intros Hlazy.
  induction fuel as [ | fuel IH]; intros hostname rrtype; simpl.
  - apply keep_out_of_fuel.
  - apply keep_resolveSPF_body.
    intro ms. unfold resolve_policy. now apply keep_resolve_loop_lazy.
Qed.

(** Without [prefetch], what [getMechanisms] does is one run of
    [resolveSPF]. *)
Lemma keep_getMechanisms_lazy domain rrtype :
  prefetch options = false ->
  preserves R (getMechanisms lib dns_resolve options domain rrtype).
Proof.
  intros Hlazy. unfold getMechanisms.
  apply keep_bind.
  - apply keep_try_catch; [ now apply keep_resolveSPF_lazy | ].
    intros [e | msg]; keep_auto.
  - intros [ | m l]; keep_auto.
Qed.

Hypothesis keep_addr :
  forall hostname f,
    @preserves R (list string)
      (resolveDNS lib dns_resolve options hostname (ADDR f) None).
Hypothesis keep_mx :
  forall hostname f,
    preserves R (resolveMX lib dns_resolve options hostname f).

Hint Resolve keep_addr keep_mx : spf_keep.

Lemma keep_run_resolver rec r :
  (forall v rr, preserves R (rec v rr)) ->
  preserves R (run_resolver lib dns_resolve options rec r).
Proof. intro Hrec. destruct r; simpl; keep_auto. Qed.

Lemma keep_resolve_loop rec hostname rrtype catchAll todo :
  (forall v rr, preserves R (rec v rr)) ->
  forall resolved,
    preserves R
      (resolve_loop lib dns_resolve options rec hostname rrtype catchAll todo
                    resolved).
Proof.
  intro Hrec.
  induction todo as [ | p rest IH]; intro resolved; simpl.
  - keep_auto.
  - match goal with |- preserves _ (if ?b then _ else _) => destruct b end.
    + apply keep_bind; [ destruct (negb catchAll); keep_auto | intro; apply IH ].
    + apply keep_bind; [ keep_auto | intro m1 ].
      apply keep_bind.
      * destruct (m_resolve m1); [ | keep_auto ].
        destruct (prefetch options); [ | keep_auto ].
        apply keep_bind; [ now apply keep_run_resolver | intro; keep_auto ].
      * intro m2. destruct (m_type m2 =? "all"); keep_auto.
Qed.

Lemma keep_resolveSPF fuel :
  forall hostname rrtype,
    preserves R (resolveSPF lib dns_resolve options fuel hostname rrtype).
Proof.
  induction fuel as [ | fuel IH]; intros hostname rrtype; simpl.
  - apply keep_out_of_fuel.
  - apply keep_resolveSPF_body.
    intro ms. unfold resolve_policy. now apply keep_resolve_loop.
Qed.
Hint Resolve keep_resolveSPF : spf_keep.

Lemma keep_getMechanisms domain rrtype :
  preserves R (getMechanisms lib dns_resolve options domain rrtype).
Proof.
  unfold getMechanisms.
  apply keep_bind.
  - apply keep_try_catch; [ apply keep_resolveSPF | ].
    intros [e | msg]; keep_auto.
  - intros [ | m l]; keep_auto.
Qed.

Lemma keep_resolve_lazily m :
  preserves R (resolve_lazily lib dns_resolve options m).
Proof.
  unfold resolve_lazily.
  destruct (m_resolve m); [ | keep_auto ].
  destruct (negb (prefetch options)); [ | keep_auto ].
  apply keep_bind; [ apply keep_run_resolver; keep_auto | intro; keep_auto ].
Qed.
Hint Resolve keep_getMechanisms keep_resolve_lazily : spf_keep.

Lemma keep_evaluate fuel :
  forall l addr, preserves R (evaluate lib dns_resolve options fuel l addr).
Proof.
  induction fuel as [ | fuel IH]; intros l addr; simpl.
  - apply keep_out_of_fuel.
  - destruct l as [l | ]; [ | keep_auto ].
    induction l as [ | m rest IHl]; simpl; [ keep_auto | ].
    apply keep_bind; [ keep_auto | intro m1 ].
    apply keep_bind;
      [ destruct (m_type m1 =? "include"); keep_auto | intro m2 ].
    apply keep_bind; [ keep_auto | intros [ | ]; keep_auto ].
Qed.

Lemma keep_attempt_resolve m :
  preserves R (attempt_resolve lib dns_resolve options m).
Proof.
  unfold attempt_resolve.
  destruct (m_resolve m); [ | keep_auto ].
  destruct (negb (prefetch options)); [ | keep_auto ].
  apply keep_try_catch.
  - apply keep_bind; [ apply keep_run_resolver; keep_auto | intro; keep_auto ].
  - intros [e | msg]; keep_auto.
Qed.
Hint Resolve keep_attempt_resolve : spf_keep.

Lemma keep_evaluateInclude requiredDomain fuel :
  (forall l rest,
      preserves R
        (evaluateInclude lib dns_resolve options fuel l requiredDomain rest))
  /\ (forall arr i,
         preserves R
           (include_loop lib dns_resolve options fuel requiredDomain arr i)).
Proof.
  induction fuel as [ | fuel [IHe IHl]]; split; intros;
    try apply keep_out_of_fuel.
  - rewrite evaluateInclude_S. destruct l; cbv zeta; keep_auto.
  - rewrite include_loop_S.
    destruct (nth_error arr i) as [m | ]; [ | keep_auto ].
    apply keep_bind; [ keep_auto | intro a ].
    destruct a; cbv zeta; keep_auto.
Qed.

Lemma keep_check domain fuel ip :
  preserves R (check lib dns_resolve options domain fuel ip).
Proof.
  unfold check, result_of_thrown.
  destruct (negb (ipaddr_isValid lib ip)); [ keep_auto | ].
  destruct (negb (tldjs_isValid lib domain)); [ keep_auto | ].
  cbv zeta. apply keep_try_catch.
  - apply keep_bind; [ keep_auto | intro; apply keep_evaluate ].
  - intros [e | msg]; keep_auto.
Qed.

Lemma keep_checkInclude domain fuel requiredDomain :
  preserves R (checkInclude lib dns_resolve options domain fuel requiredDomain).
Proof.
  unfold checkInclude, result_of_thrown.
  destruct (negb (tldjs_isValid lib domain)); [ keep_auto | ].
  apply keep_try_catch.
  - apply keep_bind; [ keep_auto | intro ].
    apply (proj1 (keep_evaluateInclude requiredDomain fuel)).
  - intros [e | msg]; keep_auto.
Qed.
End Layers.

(** With [prefetch] the evaluator and the include searcher resolve
    nothing. *)
Lemma keep_evaluate_eager fuel :
  prefetch options = true ->
  forall l addr,
    preserves R (evaluate lib dns_resolve options fuel l addr).
Proof.
  intro Heager.
  induction fuel as [ | fuel IH]; intros l addr; simpl.
  - apply keep_out_of_fuel.
  - destruct l as [l | ]; [ | keep_auto ].
    induction l as [ | m rest IHl]; simpl; [ keep_auto | ].
    apply keep_bind.
    + unfold resolve_lazily. rewrite Heager. destruct (m_resolve m); keep_auto.
    + intro m1. apply keep_bind;
        [ destruct (m_type m1 =? "include"); keep_auto | intro m2 ].
      apply keep_bind; [ keep_auto | intros [ | ]; keep_auto ].
Qed.

Lemma keep_evaluateInclude_eager requiredDomain fuel :
  prefetch options = true ->
  (forall l rest,
      preserves R
        (evaluateInclude lib dns_resolve options fuel l requiredDomain rest))
  /\ (forall arr i,
         preserves R
           (include_loop lib dns_resolve options fuel requiredDomain arr i)).
Proof.
  intro Heager.
  induction fuel as [ | fuel [IHe IHl]]; split; intros;
    try apply keep_out_of_fuel.
  - rewrite evaluateInclude_S. destruct l; cbv zeta; keep_auto.
  - rewrite include_loop_S.
    destruct (nth_error arr i) as [m | ]; [ | keep_auto ].
    rewrite (attempt_resolve_eager lib dns_resolve options Heager).
    apply keep_bind; [ keep_auto | intro a ].
    destruct a; cbv zeta; keep_auto.
Qed.

(** *** What the lookups keep

    [R] is kept by the gateway when it is kept by a refusal and by a
    call of [dns.resolve] for the record types [R] admits. *)
Section Leaves.
Variable allowed : RRType -> bool.
Hypothesis R_refuse : forall h t st, R st (refuse_lookup h t st).
Hypothesis R_issue :
  forall b h t st, allowed t = true -> R st (count_lookup b h t st).

Lemma keep_resolveDNS hostname rrtype lookupLimit :
  allowed rrtype = true ->
  preserves R (resolveDNS lib dns_resolve options hostname rrtype lookupLimit).
Proof.
  intros Hallowed st. unfold resolveDNS.
  set (budgeted := match lookupLimit with None => true | Some b => b end).
  destruct (_ && _); [ apply R_refuse | ].
  destruct hostname as [h | ]; [ | apply R_raise ].
  destruct (dns_resolve h rrtype) as [records | msg].
  - now apply R_issue.
  - destruct (RegExp_test lib _ _) as [[ | ] | ];
      [ | | apply (R_issue budgeted h rrtype st Hallowed) ];
      (eapply R_trans;
       [ apply (R_issue budgeted h rrtype st Hallowed) | apply R_raise ]).
Qed.

Lemma keep_resolveDNS_txt hostname lookupLimit :
  allowed TXT = true ->
  @preserves R (list string)
    (resolveDNS lib dns_resolve options hostname TXT lookupLimit).
Proof. exact (keep_resolveDNS hostname TXT lookupLimit). Qed.

Lemma keep_resolveDNS_mx hostname lookupLimit :
  allowed MX = true ->
  @preserves R (list MxRecord)
    (resolveDNS lib dns_resolve options hostname MX lookupLimit).
Proof. exact (keep_resolveDNS hostname MX lookupLimit). Qed.

Lemma keep_resolveDNS_addr hostname f lookupLimit :
  allowed (ADDR f) = true ->
  @preserves R (list string)
    (resolveDNS lib dns_resolve options hostname (ADDR f) lookupLimit).
Proof. exact (keep_resolveDNS hostname (ADDR f) lookupLimit). Qed.

Lemma keep_resolve_exchanges exchanges rrtype :
  allowed (ADDR rrtype) = true ->
  preserves R (resolve_exchanges lib dns_resolve options exchanges rrtype).
Proof.
  intro Haddr. induction exchanges; simpl; [ keep_auto | ].
  apply keep_bind; [ now apply keep_resolveDNS_addr | intro ].
  keep_auto.
Qed.

Lemma keep_resolveMX hostname rrtype :
  allowed MX = true -> allowed (ADDR rrtype) = true ->
  preserves R (resolveMX lib dns_resolve options hostname rrtype).
Proof.
  intros Hmx Haddr. unfold resolveMX.
  apply keep_bind; [ now apply keep_resolveDNS_mx | intro exchanges ].
  destruct (_ <=? _)%nat; [ keep_auto | ].
  apply keep_bind; [ now apply keep_resolve_exchanges | intro; keep_auto ].
Qed.
End Leaves.
End Preservation.

(** A relation kept by a throw, a refusal, a lookup of any record type
    and a warning is kept by [check] and by [checkInclude]. *)
Lemma keep_engine (R : State -> State -> Prop) lib dns_resolve options :
  (forall st, R st st) ->
  (forall a b c, R a b -> R b c -> R a c) ->
  (forall e st, R st (raised e st)) ->
  (forall h t st, R st (refuse_lookup h t st)) ->
  (forall (b : bool) h t st, R st (count_lookup b h t st)) ->
  (forall w st, R st (warned w st)) ->
  (forall domain fuel ip,
      preserves R (check lib dns_resolve options domain fuel ip))
  /\ (forall domain fuel requiredDomain,
         preserves R
           (checkInclude lib dns_resolve options domain fuel requiredDomain)).
Proof.
  intros Hrefl Htrans Hraise Hrefuse Hissue Hwarn.
  assert (Htxt : forall hostname,
             @preserves R (list string)
               (resolveDNS lib dns_resolve options hostname TXT None))
    by (intro; apply (keep_resolveDNS_txt R Htrans Hraise lib dns_resolve
                        options (fun _ => true) Hrefuse
                        (fun b h t st _ => Hissue b h t st));
        reflexivity).
  assert (Haddr : forall hostname f,
             @preserves R (list string)
               (resolveDNS lib dns_resolve options hostname (ADDR f) None))
    by (intros; apply (keep_resolveDNS_addr R Htrans Hraise lib dns_resolve
                         options (fun _ => true) Hrefuse
                         (fun b h t st _ => Hissue b h t st));
        reflexivity).
  assert (Hmx : forall hostname f,
             preserves R (resolveMX lib dns_resolve options hostname f))
    by (intros; apply (keep_resolveMX R Hrefl Htrans Hraise lib dns_resolve
                         options (fun _ => true) Hrefuse
                         (fun b h t st _ => Hissue b h t st));
        reflexivity).
  split; intros.
  - now apply keep_check.
  - now apply keep_checkInclude.
Qed.

(** ** The relations kept by the engine *)

Lemma warnings_grow_refl st : warnings_grow st st.
Proof. exists []. now rewrite app_nil_r. Qed.

Lemma warnings_grow_trans a b c :
  warnings_grow a b -> warnings_grow b c -> warnings_grow a c.
Proof.
  intros [w1 H1] [w2 H2]. exists (w1 ++ w2)%list.
  now rewrite H2, H1, app_assoc.
Qed.

Lemma counted_lookups_refl st : counted_lookups st st.
Proof. exists []. rewrite app_nil_r. simpl. split; [ reflexivity | lia ]. Qed.

Lemma counted_lookups_trans a b c :
  counted_lookups a b -> counted_lookups b c -> counted_lookups a c.
Proof.
  intros [l1 [H1 B1]] [l2 [H2 B2]]. exists (l1 ++ l2)%list. split.
  - now rewrite H2, H1, app_assoc.
  - rewrite issued_app, length_app. lia.
Qed.

Lemma only_txt_refl st : only_txt st st.
Proof. exists []. rewrite app_nil_r. split; [ reflexivity | constructor ]. Qed.

Lemma only_txt_trans a b c : only_txt a b -> only_txt b c -> only_txt a c.
Proof.
  intros [l1 [H1 B1]] [l2 [H2 B2]]. exists (l1 ++ l2)%list. split.
  - now rewrite H2, H1, app_assoc.
  - rewrite issued_app. apply Forall_app. now split.
Qed.

Lemma no_dns_refl st : no_dns st st.
Proof. now repeat split. Qed.

Lemma no_dns_trans a b c : no_dns a b -> no_dns b c -> no_dns a c.
Proof.
  intros [H1 [H2 H3]] [K1 [K2 K3]]. repeat split; congruence.
Qed.

Lemma no_dns_raised e st : no_dns st (raised e st).
Proof.
  repeat split. unfold lookups, raised. simpl.
  rewrite issued_app. simpl. now rewrite app_nil_r.
Qed.

(** The record types [only_txt] admits. *)
Lemma only_txt_issue (b : bool) h t st :
  match t with TXT => true | _ => false end = true ->
  only_txt st (count_lookup b h t st).
Proof.
  intro Ht. exists [Issued h t]. split; [ reflexivity | ].
  destruct t; try discriminate. repeat constructor.
Qed.

Lemma counted_lookups_raised e st : counted_lookups st (raised e st).
Proof. exists [Raised e]. simpl. split; [ reflexivity | lia ]. Qed.

Lemma counted_lookups_refused h t st :
  counted_lookups st (refuse_lookup h t st).
Proof. exists [Refused h t]. simpl. split; [ reflexivity | lia ]. Qed.

Lemma counted_lookups_issued (b : bool) h t st :
  counted_lookups st (count_lookup b h t st).
Proof.
  exists [Issued h t]. simpl.
  split; [ reflexivity | destruct b; lia ].
Qed.

Lemma counted_lookups_warned w st : counted_lookups st (warned w st).
Proof. exists []. simpl. rewrite app_nil_r. split; [ reflexivity | lia ]. Qed.

Lemma warnings_grow_raised e st : warnings_grow st (raised e st).
Proof. exists []. simpl. now rewrite app_nil_r. Qed.

Lemma warnings_grow_refused h t st : warnings_grow st (refuse_lookup h t st).
Proof. exists []. simpl. now rewrite app_nil_r. Qed.

Lemma warnings_grow_issued (b : bool) h t st :
  warnings_grow st (count_lookup b h t st).
Proof. exists []. simpl. now rewrite app_nil_r. Qed.

Lemma warnings_grow_warned w st : warnings_grow st (warned w st).
Proof. now exists w. Qed.

Lemma only_txt_raised e st : only_txt st (raised e st).
Proof. exists [Raised e]. split; [ reflexivity | constructor ]. Qed.

Lemma only_txt_refused h t st : only_txt st (refuse_lookup h t st).
Proof. exists [Refused h t]. split; [ reflexivity | constructor ]. Qed.

Lemma only_txt_warned w st : only_txt st (warned w st).
Proof. exists []. simpl. rewrite app_nil_r. split; [ reflexivity | constructor ]. Qed.

(** X1: throughout [check] and [checkInclude] the log of calls only
    grows, and the counter grows by no more than the number of lookups that
    reached the resolver in between: no unit of the budget is spent without
    a query. *)
Theorem counter_backed_by_lookups lib dns_resolve options domain fuel :
  (forall ip st,
      counted_lookups st
        (snd (check lib dns_resolve options domain fuel ip st)))
  /\ (forall requiredDomain st,
        counted_lookups st
          (snd (checkInclude lib dns_resolve options domain fuel
                  requiredDomain st))).
Proof.
  pose proof (keep_engine counted_lookups lib dns_resolve options
                counted_lookups_refl counted_lookups_trans
                counted_lookups_raised counted_lookups_refused
                counted_lookups_issued counted_lookups_warned) as [Hc Hi].
  split; intros; [ apply Hc | apply Hi ].
Qed.

(** X2: [check] and [checkInclude] only ever append to the warnings of the
    instance: the warnings present before the call are a prefix of those
    present after it. *)
Theorem warnings_only_appended lib dns_resolve options domain fuel :
  (forall ip st,
      warnings_grow st
        (snd (check lib dns_resolve options domain fuel ip st)))
  /\ (forall requiredDomain st,
        warnings_grow st
          (snd (checkInclude lib dns_resolve options domain fuel
                  requiredDomain st))).
Proof.
  pose proof (keep_engine warnings_grow lib dns_resolve options
                warnings_grow_refl warnings_grow_trans
                warnings_grow_raised warnings_grow_refused
                warnings_grow_issued warnings_grow_warned) as [Hc Hi].
  split; intros; [ apply Hc | apply Hi ].
Qed.

(** X3: without [prefetch], resolving a policy ([resolveSPF], and
    [getMechanisms] around it) issues TXT lookups only: the address and MX
    lookups of [a] and [mx] mechanisms are left to the evaluation. *)
Theorem lazy_resolution_issues_only_TXT lib dns_resolve options :
  prefetch options = false ->
  (forall fuel hostname rrtype st,
      only_txt st
        (snd (resolveSPF lib dns_resolve options fuel hostname rrtype st)))
  /\ (forall domain rrtype st,
        only_txt st
          (snd (getMechanisms lib dns_resolve options domain rrtype st))).
Proof.
  intro Hlazy.
  assert (Htxt : forall hostname,
             @preserves only_txt (list string)
               (resolveDNS lib dns_resolve options hostname TXT None))
    by (intro; apply (keep_resolveDNS_txt only_txt only_txt_trans
                        only_txt_raised lib dns_resolve options
                        (fun t => match t with TXT => true | _ => false end)
                        only_txt_refused only_txt_issue);
        reflexivity).
  split; intros.
  - apply (keep_resolveSPF_lazy only_txt only_txt_refl only_txt_trans
             only_txt_raised lib dns_resolve options only_txt_warned Htxt
             fuel Hlazy).
  - apply (keep_getMechanisms_lazy only_txt only_txt_refl only_txt_trans
             only_txt_raised lib dns_resolve options only_txt_warned Htxt
             domain rrtype Hlazy).
Qed.

Lemma lazy_resolution_issues_only_TXT_witness :
  only_txt initial_state
    (snd (getMechanisms Fixture.lib Fixture.zone_chain default_options
            "example.com" A initial_state)).
Proof.
  apply (proj2 (lazy_resolution_issues_only_TXT Fixture.lib
                  Fixture.zone_chain default_options eq_refl)).
Defined.

(** X4: with [prefetch], [evaluate] and [evaluateInclude] resolve nothing:
    whatever they return or throw, the counter, the lookups issued and the
    warnings are those they started with. *)
Theorem eager_evaluation_resolves_nothing lib dns_resolve options fuel :
  prefetch options = true ->
  (forall l addr st,
      no_dns st (snd (evaluate lib dns_resolve options fuel l addr st)))
  /\ (forall l requiredDomain rest st,
        no_dns st
          (snd (evaluateInclude lib dns_resolve options fuel l requiredDomain
                  rest st))).
Proof.
  intro Heager. split; intros.
  - apply (keep_evaluate_eager no_dns no_dns_refl no_dns_trans no_dns_raised
             lib dns_resolve options fuel Heager).
  - apply (proj1 (keep_evaluateInclude_eager no_dns no_dns_refl no_dns_trans
                    no_dns_raised lib dns_resolve options requiredDomain fuel
                    Heager)).
Qed.

(** X5: [match] and the construction of the result of a match perform no
    lookup and leave the counter and the warnings alone, for every
    mechanism and address. *)
Theorem match_resolves_nothing lib options :
  (forall m addr st, no_dns st (snd (match_ lib options m addr st)))
  /\ (forall m st, no_dns st (snd (matched_result lib m st))).
Proof.
  split; intros.
  - apply (keep_match_ no_dns no_dns_refl no_dns_raised).
  - apply (keep_matched_result no_dns no_dns_refl no_dns_trans no_dns_raised).
Qed.

Lemma eager_evaluation_resolves_nothing_witness :
  no_dns initial_state
    (snd (evaluate Fixture.lib Fixture.zone_include (mkOptions 1 true 10) 2
            (Some [of_parsed (Fixture.mech "+" "a" None);
                   of_parsed (Fixture.mech "-" "all" None)])
            "127.0.0.1" initial_state)).
Proof.
  apply (proj1 (eager_evaluation_resolves_nothing Fixture.lib
                  Fixture.zone_include (mkOptions 1 true 10) 2 eq_refl)).
Defined.

(** ** The exchanges of a mail domain *)

Lemma insert_by_priority_perm e l :
  Permutation (insert_by_priority e l) (e :: l).
Proof.
  induction l as [ | x l IH]; simpl; [ reflexivity | ].
  destruct (ex_priority e <=? ex_priority x)%nat; [ reflexivity | ].
  rewrite IH. apply perm_swap.
Qed.

Lemma sortBy_priority_perm l : Permutation (sortBy_priority l) l.
Proof.
  induction l as [ | x l IH]; simpl; [ reflexivity | ].
  rewrite insert_by_priority_perm. now constructor.
Qed.

Lemma insert_by_priority_hd a e l :
  ex_priority a <= ex_priority e ->
  HdRel (fun a b => ex_priority a <= ex_priority b) a l ->
  HdRel (fun a b => ex_priority a <= ex_priority b) a
        (insert_by_priority e l).
Proof.
  intros Hae Hal. destruct l as [ | x l]; simpl; [ now constructor | ].
  destruct (ex_priority e <=? ex_priority x)%nat; constructor; auto.
  now inversion Hal.
Qed.

Lemma insert_by_priority_ascending e l :
  ascending l -> ascending (insert_by_priority e l).
Proof.
  unfold ascending. induction l as [ | x l IH]; simpl; intro Hl.
  - repeat constructor.
  - destruct (ex_priority e <=? ex_priority x)%nat eqn:E.
    + apply Nat.leb_le in E. constructor; [ exact Hl | now constructor ].
    + apply Nat.leb_gt in E. inversion Hl; subst.
      constructor; [ now apply IH | ].
      apply insert_by_priority_hd; [ lia | assumption ].
Qed.

Lemma sortBy_priority_ascending l : ascending (sortBy_priority l).
Proof.
  induction l as [ | x l IH]; simpl.
  - constructor.
  - now apply insert_by_priority_ascending.
Qed.

Lemma resolveDNS_unbudgeted_returned lib
    (dns_resolve : string -> forall t : RRType, DnsReply t) options h f st
    (records : list string) st' :
  resolveDNS lib dns_resolve options (Some h) (ADDR f) (Some false) st
  = (Returned records, st') ->
  dns_resolve h (ADDR f) = @DnsOk (ADDR f) records
  /\ st' = count_lookup false h (ADDR f) st.
Proof.
  unfold resolveDNS. simpl.
  destruct (dns_resolve h (ADDR f)) as [found | msg].
  - intro H. injection H as H1 H2. now subst.
  - destruct (RegExp_test lib (not_found_pattern h) msg) as [[ | ] | ]; discriminate.
Qed.

Lemma resolve_exchanges_returned lib
    (dns_resolve : string -> forall t : RRType, DnsReply t) options rrtype
    exchanges :
  forall st resolved st',
    resolve_exchanges lib dns_resolve options exchanges rrtype st
    = (Returned resolved, st') ->
    queryDNSCount st' = queryDNSCount st
    /\ warnings st' = warnings st
    /\ lookups st'
       = (lookups st ++ map (fun e => (exchange e, ADDR rrtype)) exchanges)%list
    /\ map (fun x => (ex_priority x, ex_exchange x)) resolved
       = map (fun e => (priority e, exchange e)) exchanges
    /\ Forall (fun x => dns_resolve (ex_exchange x) (ADDR rrtype)
                        = @DnsOk (ADDR rrtype) (ex_records x)) resolved.
Proof.
  induction exchanges as [ | e rest IH]; simpl; intros st resolved st' H.
  - injection H as H1 H2. subst. rewrite app_nil_r. repeat split. constructor.
  - apply bind_returned in H. destruct H as [records [st1 [H1 H]]].
    apply bind_returned in H. destruct H as [rest' [st2 [H2 H]]].
    injection H as H3 H4. subst.
    apply resolveDNS_unbudgeted_returned in H1. destruct H1 as [Hdns Hst1].
    apply IH in H2. destruct H2 as [Hc [Hw [Hl [Hm Hf]]]]. subst st1.
    repeat split.
    + exact Hc.
    + exact Hw.
    + rewrite Hl. unfold lookups. simpl. rewrite issued_app. simpl.
      now rewrite <- app_assoc.
    + simpl. now rewrite Hm.
    + constructor; [ exact Hdns | exact Hf ].
Qed.

Lemma match_exchanges_some lib l a st :
  match_exchanges lib l (Some a) st
  = (Returned
       (existsb (fun e => includes_string (Some (ex_records e))
                            (addr_toString lib a)) l), st).
Proof.
  induction l as [ | e l IH]; simpl; [ reflexivity | ].
  destruct (existsb _ (ex_records e)); [ reflexivity | exact IH ].
Qed.

Lemma existsb_perm T (f : T -> bool) l1 l2 :
  Permutation l1 l2 -> existsb f l1 = existsb f l2.
Proof.
  induction 1; simpl; try congruence.
  destruct (f x), (f y); reflexivity.
Qed.

Lemma match_exchanges_perm lib l1 l2 addr st :
  Permutation l1 l2 ->
  match_exchanges lib l1 addr st = match_exchanges lib l2 addr st.
Proof.
  intro Hperm. destruct addr as [a | ].
  - rewrite !match_exchanges_some. f_equal. f_equal. now apply existsb_perm.
  - destruct l1 as [ | x l1], l2 as [ | y l2]; try reflexivity.
    + apply Permutation_nil in Hperm. discriminate.
    + apply Permutation_sym, Permutation_nil in Hperm. discriminate.
Qed.

(** X6: [resolveMX] on a name whose MX lookup returns at least [maxDNS]
    exchanges throws PermError, "Limit of DNS lookups reached when
    processing MX mechanism", before any address lookup: the MX lookup is
    the only call that reached the resolver, and it cost one unit of the
    budget. *)
Theorem mx_limit_before_address_lookups lib
    (dns_resolve : string -> forall t : RRType, DnsReply t) options h rrtype
    (exchanges : list MxRecord) st :
  queryDNSCount st < maxDNS options ->
  dns_resolve h MX = @DnsOk MX exchanges ->
  maxDNS options <= List.length exchanges ->
  let run := resolveMX lib dns_resolve options (Some h) rrtype st in
  fst run
  = Threw (ThrownResult
             (newSPFResult PermError
                (Some "Limit of DNS lookups reached when processing MX mechanism")))
  /\ lookups (snd run) = (lookups st ++ [(h, MX)])%list
  /\ queryDNSCount (snd run) = S (queryDNSCount st).
Proof.
  intros Hbudget Hdns Hmany. cbv zeta.
  unfold resolveMX, bind, resolveDNS.
  apply Nat.leb_gt in Hbudget. rewrite Hbudget, Hdns. simpl.
  apply Nat.leb_le in Hmany. rewrite Hmany. simpl.
  repeat split.
  unfold lookups. simpl. rewrite !issued_app. simpl.
  now rewrite app_nil_r.
Qed.

Lemma mx_limit_before_address_lookups_witness :
  let run := resolveMX Fixture.lib MailFixture.dns MailFixture.three_lookups
               (Some "example.com") A initial_state in
  fst run
  = Threw (ThrownResult
             (newSPFResult PermError
                (Some "Limit of DNS lookups reached when processing MX mechanism")))
  /\ lookups (snd run) = (lookups initial_state ++ [("example.com", MX)])%list
  /\ queryDNSCount (snd run) = S (queryDNSCount initial_state).
Proof.
  apply (mx_limit_before_address_lookups Fixture.lib MailFixture.dns
           MailFixture.three_lookups "example.com" A MailFixture.exchanges
           initial_state).
  - simpl. lia.
  - reflexivity.
  - simpl. lia.
Defined.

(** X7: when [resolveMX] returns, the MX lookup answered with fewer than
    [maxDNS] exchanges; the calls that reached the resolver are that lookup
    followed by one address lookup per exchange, in the order of the
    answer, yet the counter grew by exactly one (the address lookups are
    not counted); the list returned holds the exchanges of the answer, each
    with the addresses its lookup gave, in ascending order of priority. *)
Theorem mx_lookups_accounting lib
    (dns_resolve : string -> forall t : RRType, DnsReply t) options h rrtype
    st l st' :
  resolveMX lib dns_resolve options (Some h) rrtype st = (Returned l, st') ->
  exists exchanges : list MxRecord,
    dns_resolve h MX = @DnsOk MX exchanges
    /\ List.length exchanges < maxDNS options
    /\ queryDNSCount st' = S (queryDNSCount st)
    /\ lookups st'
       = (lookups st
          ++ (h, MX) :: map (fun e => (exchange e, ADDR rrtype)) exchanges)%list
    /\ ascending l
    /\ Permutation (map (fun x => (ex_priority x, ex_exchange x)) l)
                   (map (fun e => (priority e, exchange e)) exchanges)
    /\ Forall (fun x => dns_resolve (ex_exchange x) (ADDR rrtype)
                        = @DnsOk (ADDR rrtype) (ex_records x)) l.
Proof.
  intro H. unfold resolveMX in H.
  apply bind_returned in H. destruct H as [exchanges [st1 [H1 H]]].
  assert (Hmx : dns_resolve h MX = @DnsOk MX exchanges
                /\ st1 = count_lookup true h MX st).
  { unfold resolveDNS in H1. simpl in H1.
    destruct (maxDNS options <=? queryDNSCount st)%nat; [ discriminate | ].
    destruct (dns_resolve h MX) as [found | msg].
    - injection H1 as E1 E2. now subst.
    - destruct (RegExp_test lib (not_found_pattern h) msg) as [[ | ] | ]; discriminate. }
  destruct Hmx as [Hdns Hst1]. subst st1.
  destruct (maxDNS options <=? List.length exchanges)%nat eqn:Hguard;
    [ discriminate | ].
  apply Nat.leb_gt in Hguard.
  apply bind_returned in H. destruct H as [resolved [st2 [H2 H]]].
  injection H as E1 E2. subst.
  apply resolve_exchanges_returned in H2.
  destruct H2 as [Hc [_ [Hl [Hm Hf]]]].
  exists exchanges. repeat split; auto.
  - rewrite Hl. unfold lookups. simpl. rewrite issued_app. simpl.
    now rewrite <- app_assoc.
  - apply sortBy_priority_ascending.
  - rewrite <- Hm. apply Permutation_map, sortBy_priority_perm.
  - eapply Permutation_Forall; [ | exact Hf ].
    apply Permutation_sym, sortBy_priority_perm.
Qed.

Lemma mx_lookups_accounting_witness :
  exists l st',
    resolveMX Fixture.lib MailFixture.dns MailFixture.four_lookups
      (Some "example.com") A initial_state = (Returned l, st')
    /\ map ex_exchange l
       = ["mx1.example.com"; "mx2.example.com"; "mx3.example.com"]
    /\ exists exchanges : list MxRecord,
         MailFixture.dns "example.com" MX = @DnsOk MX exchanges
         /\ List.length exchanges < maxDNS MailFixture.four_lookups
         /\ queryDNSCount st' = S (queryDNSCount initial_state)
         /\ lookups st'
            = (lookups initial_state
               ++ ("example.com", MX)
                  :: map (fun e => (exchange e, ADDR A)) exchanges)%list
         /\ ascending l
         /\ Permutation (map (fun x => (ex_priority x, ex_exchange x)) l)
                        (map (fun e => (priority e, exchange e)) exchanges)
         /\ Forall (fun x => MailFixture.dns (ex_exchange x) (ADDR A)
                             = @DnsOk (ADDR A) (ex_records x)) l.
Proof.
  eexists _, _. split; [ vm_compute; reflexivity | ].
  split; [ reflexivity | ].
  apply (mx_lookups_accounting Fixture.lib MailFixture.dns
           MailFixture.four_lookups "example.com" A initial_state).
  reflexivity.
Defined.

(** X8: what [match] answers does not depend on the order of the
    exchanges of the mechanism: two lists of exchanges that are
    permutations of each other give the same answer, or the same thrown
    value, in the same state. The sort by priority at the end of
    [resolveMX] is therefore not observable through [match]. *)
Theorem mx_match_ignores_exchange_order lib options
    (m : Mechanism (Cidr lib)) l1 l2 addr st :
  Permutation l1 l2 ->
  match_ lib options (set_exchanges m l1) addr st
  = match_ lib options (set_exchanges m l2) addr st.
Proof.
  intro Hperm. unfold match_. simpl.
  destruct (m_type m =? "version"); [ reflexivity | ].
  destruct (m_type m =? "a"); [ reflexivity | ].
  destruct (m_type m =? "mx"); [ | reflexivity ].
  now apply match_exchanges_perm.
Qed.

Lemma mx_match_ignores_exchange_order_witness :
  match_ Fixture.lib default_options
    (set_exchanges (of_parsed (Fixture.mech "+" "mx" None))
       [mkExchange 20 "mx2.example.com" ["192.168.0.7"];
        mkExchange 10 "mx1.example.com" ["192.168.0.1"]])
    (Some "192.168.0.1") initial_state
  = match_ Fixture.lib default_options
      (set_exchanges (of_parsed (Fixture.mech "+" "mx" None))
         [mkExchange 10 "mx1.example.com" ["192.168.0.1"];
          mkExchange 20 "mx2.example.com" ["192.168.0.7"]])
      (Some "192.168.0.1") initial_state.
Proof.
  apply (mx_match_ignores_exchange_order Fixture.lib default_options).
  apply perm_swap.
Defined.

(** ** The shape of results *)

Create HintDb spf_shape.

Lemma messages_not_empty r : messages r <> EmptyString.
Proof. destruct r; discriminate. Qed.

Lemma newSPFResult_default_shaped r msg : default_shaped (newSPFResult r msg).
Proof.
  unfold default_shaped, newSPFResult. simpl. repeat split.
  destruct msg as [s | ]; [ | apply messages_not_empty ].
  destruct (s =? EmptyString) eqn:E; [ apply messages_not_empty | ].
  now apply String.eqb_neq in E.
Qed.

Lemma yields_ret T (P : T -> Prop) v : P v -> yields P (ret v).
Proof. intros H st. exact H. Qed.

Lemma yields_ret_any T (v : T) : yields (fun _ => True) (ret v).
Proof. now apply yields_ret. Qed.

Lemma yields_throw T (P : T -> Prop) e : thrown_ok e -> yields P (throw e).
Proof. intros H st. exact H. Qed.

Lemma yields_raise_error T (P : T -> Prop) msg :
  yields P (raise (ThrownError msg)).
Proof. intro st. exact I. Qed.

Lemma yields_raise_new T (P : T -> Prop) r msg :
  yields P (raise (ThrownResult (newSPFResult r msg))).
Proof. intro st. apply newSPFResult_default_shaped. Qed.

Lemma yields_throw_result T (P : T -> Prop) r msg :
  yields P (throw_result r msg).
Proof. apply yields_raise_new. Qed.

Lemma yields_out_of_fuel T (P : T -> Prop) : yields P out_of_fuel.
Proof. intro st. exact I. Qed.

Lemma yields_bind T U (P : T -> Prop) (Q : U -> Prop) (m : M T)
    (k : T -> M U) :
  yields P m -> (forall v, P v -> yields Q (k v)) -> yields Q (bind m k).
Proof.
  intros Hm Hk st. specialize (Hm st). unfold bind.
  destruct (m st) as [[v | e | | ] st1]; simpl in *; auto.
  now apply Hk.
Qed.

Lemma yields_bind_any T U (Q : U -> Prop) (m : M T) (k : T -> M U) :
  yields (fun _ => True) m -> (forall v, yields Q (k v)) ->
  yields Q (bind m k).
Proof.
  intros Hm Hk. eapply yields_bind; [ exact Hm | ]. intros v _. apply Hk.
Qed.

Lemma yields_try_catch T (P : T -> Prop) (m : M T) handler :
  yields P m -> (forall e, thrown_ok e -> yields P (handler e)) ->
  yields P (try_catch m handler).
Proof.
  intros Hm Hh st. specialize (Hm st). unfold try_catch.
  destruct (m st) as [[v | e | | ] st1]; simpl in *; auto.
  now apply Hh.
Qed.

Lemma yields_weaken T (P Q : T -> Prop) (m : M T) :
  (forall v, P v -> Q v) -> yields P m -> yields Q m.
Proof.
  intros HPQ Hm st. specialize (Hm st).
  destruct (fst (m st)); auto.
Qed.

Lemma yields_add_warnings w : yields (fun _ => True) (add_warnings w).
Proof. intro st. exact I. Qed.

#[local] Hint Resolve yields_ret_any yields_raise_error yields_raise_new
  yields_throw_result yields_out_of_fuel yields_add_warnings : spf_shape.

Ltac throws_auto :=
  repeat first
    [ assumption
    | solve [ eauto with spf_shape nocore ]
    | match goal with
      | |- yields _ (bind _ _) => apply yields_bind_any; [ | intro ]
      | |- yields _ (if ?b then _ else _) => destruct b
      | |- yields _ (match ?x with _ => _ end) => destruct x
      | |- yields _ (let (_, _) := ?x in _) => destruct x
      end ].

Section Shapes.
Variable lib : Externals.
Variable dns_resolve : string -> forall t : RRType, DnsReply t.
Variable options : SPFOptions.

Lemma yields_resolveDNS hostname rrtype lookupLimit :
  yields (fun _ => True)
    (resolveDNS lib dns_resolve options hostname rrtype lookupLimit).
Proof.
  intro st. unfold resolveDNS.
  destruct (_ && _); [ apply newSPFResult_default_shaped | ].
  destruct hostname as [h | ]; [ | exact I ].
  destruct (dns_resolve h rrtype) as [records | msg]; [ exact I | ].
  destruct (RegExp_test lib _ _) as [[ | ] | ];
    [ apply newSPFResult_default_shaped | apply newSPFResult_default_shaped
    | exact I ].
Qed.

Lemma yields_resolveDNS_txt hostname lookupLimit :
  @yields (list string) (fun _ => True)
    (resolveDNS lib dns_resolve options hostname TXT lookupLimit).
Proof. exact (yields_resolveDNS hostname TXT lookupLimit). Qed.

Lemma yields_resolveDNS_mx hostname lookupLimit :
  @yields (list MxRecord) (fun _ => True)
    (resolveDNS lib dns_resolve options hostname MX lookupLimit).
Proof. exact (yields_resolveDNS hostname MX lookupLimit). Qed.

Lemma yields_resolveDNS_addr hostname f lookupLimit :
  @yields (list string) (fun _ => True)
    (resolveDNS lib dns_resolve options hostname (ADDR f) lookupLimit).
Proof. exact (yields_resolveDNS hostname (ADDR f) lookupLimit). Qed.

Hint Resolve yields_resolveDNS_txt yields_resolveDNS_mx
  yields_resolveDNS_addr : spf_shape.

Lemma yields_resolve_exchanges exchanges rrtype :
  yields (fun _ => True)
    (resolve_exchanges lib dns_resolve options exchanges rrtype).
Proof. induction exchanges; simpl; throws_auto. Qed.
Hint Resolve yields_resolve_exchanges : spf_shape.

Lemma yields_resolveMX hostname rrtype :
  yields (fun _ => True) (resolveMX lib dns_resolve options hostname rrtype).
Proof. unfold resolveMX. throws_auto. Qed.
Hint Resolve yields_resolveMX : spf_shape.

Lemma yields_run_resolver rec r :
  (forall v rr, yields (fun _ => True) (rec v rr)) ->
  yields (fun _ => True) (run_resolver lib dns_resolve options rec r).
Proof. intro Hrec. destruct r; simpl; throws_auto. Qed.

Lemma yields_attach hostname rrtype m :
  yields (fun _ => True) (attach lib hostname rrtype m).
Proof. unfold attach. throws_auto. Qed.
Hint Resolve yields_attach : spf_shape.

Lemma yields_resolve_loop rec hostname rrtype catchAll todo :
  (forall v rr, yields (fun _ => True) (rec v rr)) ->
  forall resolved,
    yields (fun _ => True)
      (resolve_loop lib dns_resolve options rec hostname rrtype catchAll todo
                    resolved).
Proof.
  intro Hrec.
  induction todo as [ | p rest IH]; intro resolved; simpl.
  - throws_auto.
  - match goal with |- yields _ (if ?b then _ else _) => destruct b end.
    + apply yields_bind_any;
        [ destruct (negb catchAll); throws_auto | intro; apply IH ].
    + apply yields_bind_any; [ throws_auto | intro m1 ].
      apply yields_bind_any.
      * destruct (m_resolve m1); [ | throws_auto ].
        destruct (prefetch options); [ | throws_auto ].
        apply yields_bind_any;
          [ now apply yields_run_resolver | intro; throws_auto ].
      * intro m2. destruct (m_type m2 =? "all"); throws_auto.
Qed.

Lemma yields_resolveSPF fuel :
  forall hostname rrtype,
    yields (fun _ => True)
      (resolveSPF lib dns_resolve options fuel hostname rrtype).
Proof.
  induction fuel as [ | fuel IH]; intros hostname rrtype; simpl.
  - apply yields_out_of_fuel.
  - unfold resolveSPF_body.
    apply yields_bind_any; [ throws_auto | intro txt ].
    destruct (filter _ txt) as [ | record [ | ? ?]]; throws_auto.
    unfold resolve_policy. now apply yields_resolve_loop.
Qed.
Hint Resolve yields_resolveSPF : spf_shape.

Lemma yields_getMechanisms domain rrtype :
  yields (fun _ => True)
    (getMechanisms lib dns_resolve options domain rrtype).
Proof.
  unfold getMechanisms.
  apply yields_bind_any.
  - apply yields_try_catch; [ apply yields_resolveSPF | ].
    intros [e | msg] He; [ now apply yields_throw | throws_auto ].
  - intros [ | m l]; throws_auto.
Qed.

Lemma yields_resolve_lazily m :
  yields (fun m' => m_type m' = m_type m)
    (resolve_lazily lib dns_resolve options m).
Proof.
  unfold resolve_lazily.
  destruct (m_resolve m); [ | now apply yields_ret ].
  destruct (negb (prefetch options)); [ | now apply yields_ret ].
  apply yields_bind_any; [ apply yields_run_resolver; throws_auto | intro ].
  apply yields_ret, assign_type.
Qed.
End Shapes.

Section EvaluateShape.
Variable lib : Externals.
Variable dns_resolve : string -> forall t : RRType, DnsReply t.
Variable options : SPFOptions.

Lemma yields_match_exchanges exchanges addr :
  yields (fun _ => True) (match_exchanges lib exchanges addr).
Proof. induction exchanges; simpl; throws_auto. Qed.

(** [match] accepts a mechanism of one of the [matching_types], or an
    include whose nested evaluation gave Pass. *)
Lemma yields_match_ (m : Mechanism (Cidr lib)) addr :
  yields (fun hit =>
            hit = true ->
            In (m_type m) matching_types
            \/ (m_type m = "include"
                /\ exists ev, m_evaluated m = Some ev /\ result ev = Pass))
    (match_ lib options m addr).
Proof.
  unfold match_, matching_types.
  destruct (m_type m =? "version") eqn:Ev.
  { match goal with |- yields _ (if ?b then _ else _) => destruct b end;
      [ apply yields_ret; discriminate | apply yields_throw_result ]. }
  destruct (m_type m =? "a") eqn:Ea.
  { apply String.eqb_eq in Ea.
    destruct addr; [ | apply yields_raise_error ].
    apply yields_ret. intros _. left. rewrite Ea. simpl. auto 10. }
  destruct (m_type m =? "mx") eqn:Em.
  { apply String.eqb_eq in Em.
    destruct (m_exchanges m); [ | apply yields_raise_error ].
    eapply yields_weaken; [ | apply yields_match_exchanges ].
    intros hit _ _. left. rewrite Em. simpl. auto 10. }
  destruct ((m_type m =? "ip4") || (m_type m =? "ip6")) eqn:Ei.
  { apply orb_true_iff in Ei.
    destruct addr; [ | apply yields_raise_error ].
    destruct (m_address m); [ | apply yields_raise_error ].
    match goal with |- yields _ (if ?b then _ else _) => destruct b end;
      apply yields_ret; try discriminate.
    intros _. left.
    destruct Ei as [Ei | Ei]; apply String.eqb_eq in Ei; rewrite Ei;
      simpl; auto 10. }
  destruct (m_type m =? "include") eqn:En.
  { apply String.eqb_eq in En.
    destruct (m_evaluated m) as [ev | ]; [ | apply yields_raise_error ].
    destruct (ResultName_eqb (result ev) RNone);
      [ apply yields_throw_result | ].
    apply yields_ret. intro Hpass. right. split; [ exact En | ].
    exists ev. split; [ reflexivity | now apply ResultName_eqb_eq ]. }
  destruct (m_type m =? "all") eqn:El; [ | apply yields_throw_result ].
  apply String.eqb_eq in El.
  apply yields_ret. intros _. left. rewrite El. simpl. auto 10.
Qed.

Lemma yields_result_of_prefixdesc name :
  yields (fun r => default_shaped r /\ message r = messages (result r))
    (result_of_prefixdesc name).
Proof.
  unfold result_of_prefixdesc.
  destruct name as [n | ]; [ | apply yields_raise_error ].
  destruct (results_key n); [ | apply yields_raise_error ].
  apply yields_ret. split; [ apply newSPFResult_default_shaped | reflexivity ].
Qed.

(** The result built for a matching mechanism. *)
Lemma yields_matched_result (m : Mechanism (Cidr lib)) :
  yields (fun r =>
            message r = messages (result r)
            /\ mechanism r = m_type m
            /\ ((m_type m <> "include" /\ matched r = [m_type m])
                \/ (m_type m = "include"
                    /\ exists ev, m_evaluated m = Some ev
                                  /\ matched r = merge ["include"] (matched ev))))
    (matched_result lib m).
Proof.
  unfold matched_result.
  eapply yields_bind; [ apply yields_result_of_prefixdesc | ].
  intros r [_ Hmsg]. simpl.
  destruct (m_type m =? "include") eqn:E.
  - apply String.eqb_eq in E.
    destruct (m_evaluated m) as [ev | ]; [ | apply yields_raise_error ].
    apply yields_ret. simpl. repeat split; auto.
    right. split; [ exact E | ]. exists ev. now rewrite E.
  - apply String.eqb_neq in E.
    apply yields_ret. simpl. repeat split; auto.
Qed.

Lemma matching_types_not_include t : In t matching_types -> t <> "include".
Proof.
  unfold matching_types. simpl.
  intros [H | [H | [H | [H | [H | []]]]]]; subst; discriminate.
Qed.

(** What [evaluate] returns is the default Neutral or the result of a
    match. *)
Lemma yields_evaluate fuel :
  forall l addr,
    yields (fun r => (default_shaped r /\ result r = Neutral)
                     \/ match_shaped r)
      (evaluate lib dns_resolve options fuel l addr).
Proof.
  induction fuel as [ | fuel IH]; intros l addr; simpl.
  - apply yields_out_of_fuel.
  - destruct l as [l | ]; [ | apply yields_raise_error ].
    induction l as [ | m rest IHl]; simpl.
    + apply yields_ret. left.
      split; [ apply newSPFResult_default_shaped | reflexivity ].
    + eapply yields_bind; [ apply yields_resolve_lazily | ].
      intros m1 _.
      eapply yields_bind
        with (P := fun m2 : Mechanism (Cidr lib) =>
                     m_type m2 = "include" ->
                     exists ev, m_evaluated m2 = Some ev
                                /\ ((default_shaped ev /\ result ev = Neutral)
                                    \/ match_shaped ev)).
      * destruct (m_type m1 =? "include") eqn:E.
        -- eapply yields_bind; [ apply IH | ].
           intros ev Hev. apply yields_ret. intros _. now exists ev.
        -- apply String.eqb_neq in E. apply yields_ret. intro H.
           now elim E.
      * intros m2 Hev.
        eapply yields_bind; [ apply yields_match_ | ].
        intros [ | ] Hhit; [ | apply IHl ].
        specialize (Hhit eq_refl).
        eapply yields_weaken; [ | apply yields_matched_result ].
        intros r [Hmsg [Hmech Hmatched]]. right.
        split; [ exact Hmsg | ].
        destruct Hhit as [Hin | [Hinc [ev [Hev1 Hpass]]]].
        -- exists (m_type m2). split; [ exact Hin | ].
           destruct Hmatched as [[_ Hm] | [Hinc _]];
             [ auto | now apply matching_types_not_include in Hin ].
        -- destruct (Hev Hinc) as [ev' [Hev2 Hshape]].
           assert (ev' = ev) by congruence. subst ev'.
           destruct Hshape as [[_ Hneutral] | [_ [t [Hin [Ht _]]]]];
             [ congruence | ].
           exists t. split; [ exact Hin | ].
           destruct Hmatched as [[Hno _] | [_ [ev' [Hev3 Hm]]]];
             [ now elim Hno | ].
           assert (ev' = ev) by congruence. subst ev'.
           rewrite Ht in Hm. simpl in Hm. split; [ exact Hm | ].
           right. congruence.
Qed.
End EvaluateShape.

(** X9: every result [evaluate] returns is either the default Neutral, as
    the constructor built it (mechanism [default], nothing matched), or
    the result of a match: its message is the message of its result name,
    [matched] holds exactly one type, one of [a], [mx], [ip4], [ip6] and
    [all], and [mechanism] is that type or [include]. Every result [check]
    returns has a message that is not empty and is of one of the two
    shapes: [matched] never holds more than one entry and never
    [include], at any depth of nesting. *)
Theorem check_result_shape lib dns_resolve options :
  (forall fuel l addr st r st',
      evaluate lib dns_resolve options fuel l addr st = (Returned r, st') ->
      (default_shaped r /\ result r = Neutral) \/ match_shaped r)
  /\ (forall domain fuel ip st r st',
        check lib dns_resolve options domain fuel ip st = (Returned r, st') ->
        message r <> EmptyString /\ (default_shaped r \/ match_shaped r)).
Proof.
  split.
  - intros fuel l addr st r st' H.
    pose proof (yields_evaluate lib dns_resolve options fuel l addr st) as Hy.
    now rewrite H in Hy.
  - intros domain fuel ip st r st' H.
    assert (Hshape : default_shaped r \/ match_shaped r).
    { assert (Hy : yields (fun r => default_shaped r \/ match_shaped r)
                     (check lib dns_resolve options domain fuel ip)).
      { unfold check.
        destruct (negb (ipaddr_isValid lib ip));
          [ apply yields_ret; left; apply newSPFResult_default_shaped | ].
        destruct (negb (tldjs_isValid lib domain));
          [ apply yields_ret; left; apply newSPFResult_default_shaped | ].
        cbv zeta. apply yields_try_catch.
        - apply yields_bind_any; [ apply yields_getMechanisms | intro l ].
          eapply yields_weaken; [ | apply yields_evaluate ].
          intros v [[Hv _] | Hv]; auto.
        - intros [e | msg] He; apply yields_ret; left;
            [ exact He | apply newSPFResult_default_shaped ]. }
      specialize (Hy st). now rewrite H in Hy. }
    split; [ | exact Hshape ].
    destruct Hshape as [[Hm _] | [Hm _]]; [ exact Hm | ].
    rewrite Hm. apply messages_not_empty.
Qed.

Lemma check_result_shape_witness :
  exists r st',
    check Fixture.lib Fixture.zone_chain default_options "example.com" 3
      "127.0.0.1" initial_state = (Returned r, st')
    /\ matched r = ["ip4"] /\ mechanism r = "include"
    /\ message r <> EmptyString /\ (default_shaped r \/ match_shaped r).
Proof.
  eexists _, _. split; [ vm_compute; reflexivity | ].
  split; [ reflexivity | ]. split; [ reflexivity | ].
  eapply (proj2 (check_result_shape Fixture.lib Fixture.zone_chain
                   default_options) "example.com" 3 "127.0.0.1" initial_state).
  vm_compute. reflexivity.
Defined.

Section SearchShape.
Variable lib : Externals.
Variable dns_resolve : string -> forall t : RRType, DnsReply t.
Variable options : SPFOptions.

Lemma yields_attempt_resolve (m : Mechanism (Cidr lib)) :
  yields (fun a => match a with
                   | Resolved _ m' => m_type m' = m_type m
                   | _ => True
                   end)
    (attempt_resolve lib dns_resolve options m).
Proof.
  unfold attempt_resolve.
  destruct (m_resolve m); [ | now apply yields_ret ].
  destruct (negb (prefetch options)); [ | now apply yields_ret ].
  apply yields_try_catch.
  - apply yields_bind_any.
    + apply yields_run_resolver. intros. apply yields_resolveSPF.
    + intro. apply yields_ret, assign_type.
  - intros [e | msg] He; [ | now apply yields_ret ].
    destruct (ResultName_eqb (result e) RNone);
      [ now apply yields_ret | now apply yields_throw ].
Qed.

Lemma included_all_includes (l : list (Mechanism (Cidr lib))) :
  Forall (fun m => m_type m = "include") (included lib l).
Proof.
  unfold included. apply Forall_forall. intros m Hm.
  apply filter_In in Hm. destruct Hm as [_ Hm].
  now apply String.eqb_eq in Hm.
Qed.

Lemma Forall_slice_from (P : Mechanism (Cidr lib) -> Prop) i l :
  Forall P l -> Forall P (slice_from lib i l).
Proof.
  unfold slice_from. revert l.
  induction i as [ | i IH]; intros l Hl; simpl; [ exact Hl | ].
  destruct Hl; [ constructor | now apply IH ].
Qed.

(** What the include searcher returns, on arrays of includes: the default
    Fail or Pass, or the result of a matching include. *)
Lemma yields_evaluateInclude requiredDomain fuel :
  (forall l rest,
      Forall (fun m => m_type m = "include")
             (match rest with Some r => r | None => [] end) ->
      yields (fun r => (default_shaped r
                        /\ (result r = Fail \/ result r = Pass))
                       \/ include_shaped r)
        (evaluateInclude lib dns_resolve options fuel l requiredDomain rest))
  /\ (forall arr i,
         Forall (fun m => m_type m = "include") arr ->
         yields (fun r => (default_shaped r
                           /\ (result r = Fail \/ result r = Pass))
                          \/ include_shaped r)
           (include_loop lib dns_resolve options fuel requiredDomain arr i)).
Proof.
  induction fuel as [ | fuel [IHe IHl]]; split; intros;
    try apply yields_out_of_fuel.
  - rewrite evaluateInclude_S.
    destruct l as [l | ]; [ | apply yields_raise_error ].
    cbv zeta.
    assert (Harr : Forall (fun m => m_type m = "include")
                     (match rest with Some r => r | None => [] end
                      ++ included lib l)%list)
      by (apply Forall_app; split;
          [ assumption | apply included_all_includes ]).
    destruct (_ ++ _)%list as [ | x arr] eqn:Earr.
    + apply yields_ret. left.
      split; [ apply newSPFResult_default_shaped | now left ].
    + destruct (existsb _ _).
      * apply yields_ret. left.
        split; [ apply newSPFResult_default_shaped | now right ].
      * now apply IHl.
  - rewrite include_loop_S.
    destruct (nth_error arr i) as [m | ] eqn:Enth.
    2:{ apply yields_ret. left.
        split; [ apply newSPFResult_default_shaped | now left ]. }
    assert (Hm : m_type m = "include").
    { apply nth_error_In in Enth.
      now apply (proj1 (Forall_forall _ arr) H). }
    eapply yields_bind; [ apply yields_attempt_resolve | ].
    intros a Ha.
    assert (Hgo :
      forall m0 : Mechanism (Cidr lib),
        m_type m0 = "include" ->
        yields (fun r => (default_shaped r
                          /\ (result r = Fail \/ result r = Pass))
                         \/ include_shaped r)
          (state <-
             (if m_type m0 =? "include" then
                evaluated <- evaluateInclude lib dns_resolve options fuel
                               (m_includes m0) requiredDomain
                               (Some (slice_from lib (S i) arr)) ;;
                ret (set_evaluated m0 evaluated,
                     (slice_from lib (S i) arr
                      ++ included lib (match m_includes m0 with
                                       | Some l => l
                                       | None => []
                                       end))%list)
              else ret (m0, arr)) ;;
           let (m1, arr0) := state in
           match m_evaluated m1 with
           | None => raise (ThrownError (err_undefined "result"))
           | Some evaluated =>
               if ResultName_eqb (result evaluated) RNone then
                 throw_result PermError (validation_missed (m_value m1))
               else
                 hit <- match_ lib options m1 None ;;
                 if hit then matched_result lib m1
                 else include_loop lib dns_resolve options fuel
                                   requiredDomain arr0 (S i)
           end)).
    { intros m0 Hm0.
      eapply yields_bind
        with (P := fun s : Mechanism (Cidr lib) * list (Mechanism (Cidr lib)) =>
                     m_type (fst s) = "include"
                     /\ (exists ev,
                            m_evaluated (fst s) = Some ev
                            /\ ((default_shaped ev
                                 /\ (result ev = Fail \/ result ev = Pass))
                                \/ include_shaped ev))
                     /\ Forall (fun m => m_type m = "include") (snd s)).
      - rewrite Hm0, String.eqb_refl.
        eapply yields_bind.
        + apply IHe. cbv beta iota. now apply Forall_slice_from.
        + intros ev Hev. apply yields_ret.
          cbn [fst snd set_evaluated m_type m_evaluated].
          split; [ exact Hm0 | ]. split; [ now exists ev | ].
          apply Forall_app. split;
            [ now apply Forall_slice_from | apply included_all_includes ].
      - intros [m1 arr0] [Hm1 [[ev [Hev Hshape]] Harr0]]. simpl in *.
        rewrite Hev.
        destruct (ResultName_eqb (result ev) RNone);
          [ apply yields_throw_result | ].
        eapply yields_bind; [ apply yields_match_ | ].
        intros [ | ] Hhit; [ | now apply IHl ].
        eapply yields_weaken; [ | apply yields_matched_result ].
        intros r [Hmsg [Hmech Hmatched]]. right.
        split; [ exact Hmsg | ]. split; [ congruence | ].
        destruct Hmatched as [[Hno _] | [_ [ev' [Hev' Hmerge]]]];
          [ now elim Hno | ].
        assert (ev' = ev) by congruence. subst ev'.
        destruct Hshape as [[[_ [_ Hnone]] _] | [_ [_ Hone]]];
          rewrite Hmerge; [ rewrite Hnone | rewrite Hone ]; reflexivity. }
    destruct a as [m' | | ]; cbv zeta.
    + apply Hgo. congruence.
    + now apply IHl.
    + now apply Hgo.
Qed.
End SearchShape.

(** X10: every result [checkInclude] returns is either as the constructor
    built it (mechanism [default], nothing matched, a message that is not
    empty) or the result of a matching include: its message is the message
    of its result name, and both [mechanism] and the single entry of
    [matched] are [include]. *)
Theorem checkInclude_result_shape lib dns_resolve options domain fuel
    requiredDomain st r st' :
  checkInclude lib dns_resolve options domain fuel requiredDomain st
  = (Returned r, st') ->
  message r <> EmptyString /\ (default_shaped r \/ include_shaped r).
Proof.
  intro H.
  assert (Hshape : default_shaped r \/ include_shaped r).
  { assert (Hy : yields (fun r => default_shaped r \/ include_shaped r)
                   (checkInclude lib dns_resolve options domain fuel
                      requiredDomain)).
    { unfold checkInclude.
      destruct (negb (tldjs_isValid lib domain));
        [ apply yields_ret; left; apply newSPFResult_default_shaped | ].
      apply yields_try_catch.
      - apply yields_bind_any; [ apply yields_getMechanisms | intro l ].
        eapply yields_weaken;
          [ | apply (proj1 (yields_evaluateInclude lib dns_resolve options
                              requiredDomain fuel)); constructor ].
        intros v [[Hv _] | Hv]; auto.
      - intros [e | msg] He; apply yields_ret; left;
          [ exact He | apply newSPFResult_default_shaped ]. }
    specialize (Hy st). now rewrite H in Hy. }
  split; [ | exact Hshape ].
  destruct Hshape as [[Hm _] | [Hm _]]; [ exact Hm | ].
  rewrite Hm. apply messages_not_empty.
Qed.

Lemma checkInclude_result_shape_witness :
  exists r st',
    checkInclude Fixture.lib Fixture.zone_chain default_options "example.com"
      40 "_spf2.example.com" initial_state = (Returned r, st')
    /\ message r <> EmptyString /\ (default_shaped r \/ include_shaped r).
Proof.
  eexists _, _. split; [ vm_compute; reflexivity | ].
  eapply (checkInclude_result_shape Fixture.lib Fixture.zone_chain
            default_options "example.com" 40 "_spf2.example.com"
            initial_state).
  vm_compute. reflexivity.
Defined.

(** ** The constructor of [SPF] and the exported function *)

Lemma includes_char_postmaster s :
  includes_char "@" ("postmaster@" ++ s) = true.
Proof. reflexivity. Qed.

Lemma SPF_new_sender domain sender options this :
  SPF_new domain sender options = inr this ->
  includes_char "@" (spf_sender this) = true
  /\ spf_queryDNSCount this = 0 /\ spf_warnings this = [].
Proof.
  unfold SPF_new.
  destruct (if isObject domain && isUndefined sender && isUndefined options
            then (Undefined, sender, domain)
            else if isObject sender && isUndefined options
                 then (domain, Undefined, sender)
                 else (domain, sender, options)) as [[d s] o].
  destruct (match d with Str d' => Some d' | _ => o_domain (properties o) end)
    as [this_domain | ]; [ | discriminate ].
  intro H. injection H as H. subst this. simpl. repeat split.
  destruct (negb (includes_char "@" _)) eqn:E.
  - apply includes_char_postmaster.
  - now apply negb_false_iff in E.
Qed.

Lemma SPF_new_string_domain d sender options :
  exists this,
    SPF_new (Str d) sender options = inr this /\ spf_domain this = d.
Proof.
  unfold SPF_new. simpl.
  destruct (isObject sender && isUndefined options); simpl;
    eexists; split; reflexivity.
Qed.

Lemma result_name_listed r : In (result_name r) result_names.
Proof. destruct r; simpl; auto 10. Qed.

(** X11: the constructor accepts its option object in place of the domain
    or of the sender: [new SPF(options)] and [new SPF(domain, options)]
    build, or throw, what [new SPF(undefined, undefined, options)] and
    [new SPF(domain, undefined, options)] do. *)
Theorem constructor_shifts_its_arguments o :
  SPF_new (Obj o) Undefined Undefined = SPF_new Undefined Undefined (Obj o)
  /\ (forall domain,
         SPF_new domain (Obj o) Undefined = SPF_new domain Undefined (Obj o)).
Proof.
  split; [ reflexivity | ].
  intros [ | d | od]; reflexivity.
Qed.

(** X12: whatever its arguments, the constructor either throws the error
    "Undefined domain", and then the domain given was not a string, or
    builds an instance whose sender contains [@], whose counter is 0 and
    whose warnings are empty; a string given as domain is the domain of the
    instance, whatever [options.domain] says. *)
Theorem constructor_postconditions domain sender options :
  match SPF_new domain sender options with
  | inl e => e = ThrownError "Undefined domain" /\ forall d, domain <> Str d
  | inr this =>
      includes_char "@" (spf_sender this) = true
      /\ spf_queryDNSCount this = 0 /\ spf_warnings this = []
      /\ forall d, domain = Str d -> spf_domain this = d
  end.
Proof.
  destruct (SPF_new domain sender options) as [e | this] eqn:E.
  - split.
    + unfold SPF_new in E.
      destruct (if isObject domain && isUndefined sender
                   && isUndefined options
                then (Undefined, sender, domain)
                else if isObject sender && isUndefined options
                     then (domain, Undefined, sender)
                     else (domain, sender, options)) as [[d s] o].
      destruct (match d with Str d' => Some d' | _ => o_domain (properties o) end);
        [ discriminate | now injection E as <- ].
    + intros d ->.
      destruct (SPF_new_string_domain d sender options) as [this [H _]].
      congruence.
  - pose proof (SPF_new_sender _ _ _ _ E) as [H1 [H2 H3]].
    repeat split; auto.
    intros d ->.
    destruct (SPF_new_string_domain d sender options) as [this' [H Hd]].
    congruence.
Qed.



(** ** The include searcher and the case of the required domain *)

Lemma bind_ext_both T U (m m' : M T) (k k' : T -> M U) st :
  m st = m' st -> (forall v st', k v st' = k' v st') ->
  bind m k st = bind m' k' st.
Proof.
  intros Hm Hk. unfold bind. rewrite Hm.
  destruct (m' st) as [[v | e | | ] st1]; auto.
Qed.

Lemma existsb_names_domain lib d1 d2 (l : list (Mechanism (Cidr lib))) :
  toLowerCase d1 = toLowerCase d2 ->
  existsb (names_domain lib d1) l = existsb (names_domain lib d2) l.
Proof.
  intro H. induction l as [ | m l IH]; simpl; [ reflexivity | ].
  rewrite IH. unfold names_domain. now rewrite H.
Qed.

Lemma evaluateInclude_case lib dns_resolve options d1 d2 fuel :
  toLowerCase d1 = toLowerCase d2 ->
  (forall l rest st,
      evaluateInclude lib dns_resolve options fuel l d1 rest st
      = evaluateInclude lib dns_resolve options fuel l d2 rest st)
  /\ (forall arr i st,
         include_loop lib dns_resolve options fuel d1 arr i st
         = include_loop lib dns_resolve options fuel d2 arr i st).
Proof.
  intro Hcase.
  induction fuel as [ | fuel [IHe IHl]]; split; intros; try reflexivity.
  - rewrite !evaluateInclude_S.
    destruct l as [l | ]; [ | reflexivity ]. cbv zeta.
    destruct (_ ++ _)%list as [ | x arr]; [ reflexivity | ].
    rewrite (existsb_names_domain lib d1 d2 (x :: arr) Hcase).
    destruct (existsb _ _); [ reflexivity | apply IHl ].
  - rewrite !include_loop_S.
    destruct (nth_error arr i) as [m | ]; [ | reflexivity ].
    apply bind_ext. intros a st1.
    destruct a as [m' | | ]; cbv zeta; try apply IHl.
    + apply bind_ext_both.
      * destruct (m_type m' =? "include"); [ | reflexivity ].
        apply bind_ext_both; [ apply IHe | reflexivity ].
      * intros [m1 arr0] st2.
        destruct (m_evaluated m1) as [ev | ]; [ | reflexivity ].
        destruct (ResultName_eqb (result ev) RNone); [ reflexivity | ].
        apply bind_ext. intros [ | ] st3; [ reflexivity | apply IHl ].
    + apply bind_ext_both.
      * destruct (m_type m =? "include"); [ | reflexivity ].
        apply bind_ext_both; [ apply IHe | reflexivity ].
      * intros [m1 arr0] st2.
        destruct (m_evaluated m1) as [ev | ]; [ | reflexivity ].
        destruct (ResultName_eqb (result ev) RNone); [ reflexivity | ].
        apply bind_ext. intros [ | ] st3; [ reflexivity | apply IHl ].
Qed.

(** X14: the include search does not see the case of the letters A to Z
    of the required domain: two required domains with the same lower-case
    form give [checkInclude] the same result, the same lookups and the same
    state, for every policy and every DNS. *)
Theorem include_search_ignores_case lib dns_resolve options domain fuel
    d1 d2 st :
  toLowerCase d1 = toLowerCase d2 ->
  checkInclude lib dns_resolve options domain fuel d1 st
  = checkInclude lib dns_resolve options domain fuel d2 st.
Proof.
  intro Hcase. unfold checkInclude.
  destruct (negb (tldjs_isValid lib domain)); [ reflexivity | ].
  unfold try_catch.
  rewrite (bind_ext _ _ (getMechanisms lib dns_resolve options domain A)
             (fun mechanisms =>
                evaluateInclude lib dns_resolve options fuel (Some mechanisms)
                                d1 None)
             (fun mechanisms =>
                evaluateInclude lib dns_resolve options fuel (Some mechanisms)
                                d2 None) st); [ reflexivity | ].
  intros l st1.
  apply (proj1 (evaluateInclude_case lib dns_resolve options d1 d2 fuel Hcase)).
Qed.

Lemma include_search_ignores_case_witness :
  checkInclude Fixture.lib Fixture.zone_chain default_options "example.com"
    40 "_SPF2.Example.COM" initial_state
  = checkInclude Fixture.lib Fixture.zone_chain default_options "example.com"
      40 "_spf2.example.com" initial_state.
Proof.
  apply (include_search_ignores_case Fixture.lib Fixture.zone_chain
           default_options "example.com" 40 "_SPF2.Example.COM"
           "_spf2.example.com" initial_state).
  reflexivity.
Defined.

(** ** Records that are only a version tag *)

Lemma prefix_with_space s : prefix (s ++ " ") s = false.
Proof.
  induction s as [ | c s IH]; simpl; [ reflexivity | ].
  destruct (ascii_dec c c) as [_ | Hne]; [ exact IH | now elim Hne ].
Qed.

Lemma bare_tag_is_filtered options :
  startsWith ("v=spf" ++ string_of_nat (version options))
             (version_tag options) = false.
Proof.
  unfold startsWith, version_tag. simpl.
  apply prefix_with_space.
Qed.

(** X15: a domain whose only TXT record is the version tag alone
    ([v=spf1], with nothing after it, not even a space) is taken to publish
    no SPF record: [resolveSPF] throws None, "Assume that the domain makes
    no SPF declarations", since the filter asks for the tag followed by a
    space. *)
Theorem bare_version_tag_is_no_record lib
    (dns_resolve : string -> forall t : RRType, DnsReply t) options fuel h
    rrtype st (segments : list string) :
  queryDNSCount st < maxDNS options ->
  dns_resolve h TXT = @DnsOk TXT [segments] ->
  join segments = "v=spf" ++ string_of_nat (version options) ->
  fst (resolveSPF lib dns_resolve options (S fuel) (Some h) rrtype st)
  = Threw (ThrownResult
             (newSPFResult RNone
                (Some "Assume that the domain makes no SPF declarations"))).
Proof.
  intros Hbudget Hdns Hjoin.
  cbn [resolveSPF]. unfold resolveSPF_body, bind, resolveDNS.
  apply Nat.leb_gt in Hbudget. rewrite Hbudget, Hdns.
  cbn [andb deliver map filter ret fst snd].
  rewrite Hjoin, bare_tag_is_filtered. reflexivity.
Qed.

Lemma bare_version_tag_is_no_record_witness :
  fst (resolveSPF Fixture.lib (Fixture.dns [("example.com", [["v=spf1"]])] [])
         default_options 1 (Some "example.com") A initial_state)
  = Threw (ThrownResult
             (newSPFResult RNone
                (Some "Assume that the domain makes no SPF declarations"))).
Proof.
  apply (bare_version_tag_is_no_record Fixture.lib
           (Fixture.dns [("example.com", [["v=spf1"]])] []) default_options 0
           "example.com" A initial_state ["v=spf1"]).
  - simpl. lia.
  - reflexivity.
  - reflexivity.
Defined.

(** ** The names of results *)

Lemma results_key_sound n r : results_key n = Some r -> n = result_name r.
Proof.
  unfold results_key.
  repeat match goal with
         | |- context [if ?s =? ?t then _ else _] =>
             let E := fresh "E" in
             destruct (s =? t) eqn:E;
             [ apply String.eqb_eq in E; intro H; injection H as <-;
               exact E | ]
         end.
  discriminate.
Qed.

Lemma results_key_complete n :
  results_key n = None -> ~ In n result_names.
Proof.
  unfold results_key, result_names.
  repeat match goal with
         | |- context [if ?s =? ?t then _ else _] =>
             let E := fresh "E" in
             destruct (s =? t) eqn:E;
             [ discriminate | apply String.eqb_neq in E ]
         end.
  intros _ Hin. simpl in Hin.
  repeat (destruct Hin as [Hin | Hin]; [ congruence | ]). exact Hin.
Qed.

(** X16: the constructor of [SPFResult], called with a name alone as
    [evaluate] and [evaluateInclude] call it, and the name being
    [undefined] or one that lodash reads as a key (no dot and no opening
    bracket in it), builds a result for each of the seven result names and
    for no other: the result carries that name, the message of that name,
    the mechanism [default] and nothing matched; for any other such name,
    and for [undefined], it throws the error [Result "<name>" not found],
    which is not an [SPFResult]. The state is not touched by the
    construction. *)
Theorem result_constructor_accepts_seven_names name st :
  match name with Some n => plain_key n = true | None => True end ->
  match fst (result_of_prefixdesc name st) with
  | Returned r =>
      name = Some (result_name (result r))
      /\ message r = messages (result r)
      /\ mechanism r = "default" /\ matched r = []
      /\ snd (result_of_prefixdesc name st) = st
  | Threw e =>
      (forall s, name = Some s -> ~ In s result_names)
      /\ e = ThrownError
               ("Result " ++ dquote ++ show name ++ dquote ++ " not found")
  | Unsettled | OutOfFuel => False
  end.
Proof.
  intros _. unfold result_of_prefixdesc.
  destruct name as [n | ]; simpl.
  - destruct (results_key n) as [r | ] eqn:E; simpl.
    + apply results_key_sound in E. subst n. repeat split.
    + split; [ | reflexivity ].
      intros s Hs. injection Hs as <-. now apply results_key_complete.
  - split; [ discriminate | reflexivity ].
Qed.

Lemma result_constructor_accepts_seven_names_witness :
  match fst (result_of_prefixdesc (Some "SoftFail") initial_state) with
  | Returned r =>
      Some "SoftFail" = Some (result_name (result r))
      /\ message r = messages (result r)
      /\ mechanism r = "default" /\ matched r = []
      /\ snd (result_of_prefixdesc (Some "SoftFail") initial_state)
         = initial_state
  | Threw e =>
      (forall s, Some "SoftFail" = Some s -> ~ In s result_names)
      /\ e = ThrownError
               ("Result " ++ dquote ++ show (Some "SoftFail") ++ dquote
                ++ " not found")
  | Unsettled | OutOfFuel => False
  end.
Proof.
  apply (result_constructor_accepts_seven_names (Some "SoftFail")
           initial_state).
  reflexivity.
Defined.

(** ** The order of evaluation *)

Lemma evaluate_loop_app lib dns_resolve options rec l2 addr :
  forall l1 st,
    match evaluate_loop lib dns_resolve options rec l1 addr st with
    | (Returned r, st') =>
        match matched r with
        | [] =>
            evaluate_loop lib dns_resolve options rec (l1 ++ l2) addr st
            = evaluate_loop lib dns_resolve options rec l2 addr st'
        | _ =>
            evaluate_loop lib dns_resolve options rec (l1 ++ l2) addr st
            = (Returned r, st')
        end
    | (Threw e, st') =>
        evaluate_loop lib dns_resolve options rec (l1 ++ l2) addr st
        = (Threw e, st')
    | (Unsettled, st') =>
        evaluate_loop lib dns_resolve options rec (l1 ++ l2) addr st
        = (Unsettled, st')
    | (OutOfFuel, st') =>
        evaluate_loop lib dns_resolve options rec (l1 ++ l2) addr st
        = (OutOfFuel, st')
    end.
Proof.
  induction l1 as [ | m l1 IH]; intro st; [ reflexivity | ].
  cbn [evaluate_loop app]. unfold bind.
  destruct (resolve_lazily lib dns_resolve options m st)
    as [[m1 | e | | ] st1]; cbv beta iota; try reflexivity.
  assert (Hstep :
    forall m2 st2,
      match
        (let (o, st') := match_ lib options m2 (Some addr) st2 in
         match o with
         | Returned hit =>
             (if hit then matched_result lib m2
              else evaluate_loop lib dns_resolve options rec l1 addr) st'
         | Threw e => (Threw e, st')
         | Unsettled => (Unsettled, st')
         | OutOfFuel => (OutOfFuel, st')
         end)
      with
      | (Returned r, st') =>
          match matched r with
          | [] =>
              (let (o, st'0) := match_ lib options m2 (Some addr) st2 in
               match o with
               | Returned hit =>
                   (if hit then matched_result lib m2
                    else evaluate_loop lib dns_resolve options rec (l1 ++ l2)
                                       addr) st'0
               | Threw e => (Threw e, st'0)
               | Unsettled => (Unsettled, st'0)
               | OutOfFuel => (OutOfFuel, st'0)
               end)
              = evaluate_loop lib dns_resolve options rec l2 addr st'
          | _ =>
              (let (o, st'0) := match_ lib options m2 (Some addr) st2 in
               match o with
               | Returned hit =>
                   (if hit then matched_result lib m2
                    else evaluate_loop lib dns_resolve options rec (l1 ++ l2)
                                       addr) st'0
               | Threw e => (Threw e, st'0)
               | Unsettled => (Unsettled, st'0)
               | OutOfFuel => (OutOfFuel, st'0)
               end)
              = (Returned r, st')
          end
      | (Threw e, st') =>
          (let (o, st'0) := match_ lib options m2 (Some addr) st2 in
           match o with
           | Returned hit =>
               (if hit then matched_result lib m2
                else evaluate_loop lib dns_resolve options rec (l1 ++ l2)
                                   addr) st'0
           | Threw e => (Threw e, st'0)
           | Unsettled => (Unsettled, st'0)
           | OutOfFuel => (OutOfFuel, st'0)
           end)
          = (Threw e, st')
      | (Unsettled, st') =>
          (let (o, st'0) := match_ lib options m2 (Some addr) st2 in
           match o with
           | Returned hit =>
               (if hit then matched_result lib m2
                else evaluate_loop lib dns_resolve options rec (l1 ++ l2)
                                   addr) st'0
           | Threw e => (Threw e, st'0)
           | Unsettled => (Unsettled, st'0)
           | OutOfFuel => (OutOfFuel, st'0)
           end)
          = (Unsettled, st')
      | (OutOfFuel, st') =>
          (let (o, st'0) := match_ lib options m2 (Some addr) st2 in
           match o with
           | Returned hit =>
               (if hit then matched_result lib m2
                else evaluate_loop lib dns_resolve options rec (l1 ++ l2)
                                   addr) st'0
           | Threw e => (Threw e, st'0)
           | Unsettled => (Unsettled, st'0)
           | OutOfFuel => (OutOfFuel, st'0)
           end)
          = (OutOfFuel, st')
      end).
  { intros m2 st2.
    destruct (match_ lib options m2 (Some addr) st2)
      as [[[ | ] | e | | ] st3]; cbv beta iota; try reflexivity; [ | apply IH ].
    pose proof (yields_matched_result lib m2 st3) as Hshape.
    destruct (matched_result lib m2 st3) as [[r | e | | ] st4];
      simpl in Hshape; try reflexivity.
    destruct Hshape as [_ [_ [[_ Hm] | [_ [ev [_ Hm]]]]]]; rewrite Hm;
      [ reflexivity | destruct (matched ev); reflexivity ]. }
  destruct (m_type m1 =? "include"); [ | apply Hstep ].
  destruct (rec (m_includes m1) addr st1) as [[ev | e | | ] st2];
    cbv beta iota; try reflexivity.
  apply Hstep.
Qed.

(** X17: [evaluate] goes through the mechanisms from left to right and
    the first match decides. If the evaluation of a list [l1] ends with a
    match (a result with something in [matched]) or with a thrown value,
    the evaluation of [l1] followed by any [l2] ends the same way, in the
    same state, and nothing of [l2] is resolved or evaluated; if it ends
    with the default Neutral, the evaluation of [l1 ++ l2] is the
    evaluation of [l2] from the state [l1] left. *)
Theorem first_match_decides lib dns_resolve options fuel l1 l2 addr st :
  match evaluate lib dns_resolve options (S fuel) (Some l1) addr st with
  | (Returned r, st') =>
      match matched r with
      | [] =>
          evaluate lib dns_resolve options (S fuel) (Some (l1 ++ l2)%list) addr st
          = evaluate lib dns_resolve options (S fuel) (Some l2) addr st'
      | _ =>
          evaluate lib dns_resolve options (S fuel) (Some (l1 ++ l2)%list) addr st
          = (Returned r, st')
      end
  | (Threw e, st') =>
      evaluate lib dns_resolve options (S fuel) (Some (l1 ++ l2)%list) addr st
      = (Threw e, st')
  | (Unsettled, st') =>
      evaluate lib dns_resolve options (S fuel) (Some (l1 ++ l2)%list) addr st
      = (Unsettled, st')
  | (OutOfFuel, st') =>
      evaluate lib dns_resolve options (S fuel) (Some (l1 ++ l2)%list) addr st
      = (OutOfFuel, st')
  end.
Proof.
  cbn [evaluate]. apply evaluate_loop_app.
Qed.

(** ** The number of lookups of a check *)

Section LookupsWithin.
Variable lib : Externals.
Variable dns_resolve : string -> forall t : RRType, DnsReply t.
Variable options : SPFOptions.

Lemma lookups_within_refl st : lookups_within options st st.
Proof.
  exists []. rewrite app_nil_r. cbn -[Nat.sub Nat.mul]. repeat split; auto; lia.
Qed.

Lemma lookups_within_trans a b c :
  lookups_within options a b -> lookups_within options b c ->
  lookups_within options a c.
Proof.
  intros [l1 [H1 [M1 [B1 L1]]]] [l2 [H2 [M2 [B2 L2]]]].
  exists (l1 ++ l2)%list. repeat split.
  - now rewrite H2, H1, app_assoc.
  - lia.
  - auto.
  - rewrite issued_app, length_app. nia.
Qed.

Lemma lookups_within_raised e st : lookups_within options st (raised e st).
Proof. exists [Raised e]. cbn -[Nat.sub Nat.mul]. repeat split; auto; lia. Qed.

Lemma lookups_within_warned w st : lookups_within options st (warned w st).
Proof.
  exists []. cbn -[Nat.sub Nat.mul]. rewrite app_nil_r. repeat split; auto; lia.
Qed.

(** A budgeted lookup: one query for one unit of the budget. *)
Lemma lookups_within_resolveDNS hostname rrtype :
  preserves (lookups_within options)
    (resolveDNS lib dns_resolve options hostname rrtype None).
Proof.
  intro st. unfold resolveDNS. cbn [andb].
  destruct (maxDNS options <=? queryDNSCount st)%nat eqn:Hbudget.
  - exists [Refused hostname rrtype]. cbn -[Nat.sub Nat.mul]. repeat split; auto; lia.
  - apply Nat.leb_gt in Hbudget.
    destruct hostname as [h | ]; [ | apply lookups_within_raised ].
    destruct (dns_resolve h rrtype) as [records | msg].
    + exists [Issued h rrtype]. cbn -[Nat.sub Nat.mul]. repeat split; auto; nia.
    + destruct (RegExp_test lib _ _) as [[ | ] | ]; cbn -[Nat.sub Nat.mul];
        first
          [ eexists [Issued h rrtype; Raised _]; cbn -[Nat.sub Nat.mul];
            rewrite <- app_assoc; repeat split; auto; nia
          | exists [Issued h rrtype]; cbn -[Nat.sub Nat.mul];
            repeat split; auto; nia ].
Qed.

(** The address lookups of the exchanges: at most one query each, and no
    unit of the budget. *)
Lemma resolve_exchanges_lookups exchanges rrtype :
  forall st o st',
    resolve_exchanges lib dns_resolve options exchanges rrtype st = (o, st') ->
    exists l,
      log st' = (log st ++ l)%list
      /\ queryDNSCount st' = queryDNSCount st
      /\ List.length (issued l) <= List.length exchanges.
Proof.
  induction exchanges as [ | e rest IH]; intros st o st' H; simpl in H.
  - injection H as <- <-. exists []. rewrite app_nil_r. simpl.
    repeat split; lia.
  - unfold bind at 1 in H. unfold resolveDNS in H. cbn [andb] in H.
    destruct (dns_resolve (exchange e) (ADDR rrtype)) as [records | msg].
    + cbn [ret] in H. unfold bind in H.
      destruct (resolve_exchanges lib dns_resolve options rest rrtype
                  (count_lookup false (exchange e) (ADDR rrtype) st))
        as [o1 st1] eqn:E.
      apply IH in E. destruct E as [l [Hl [Hc Hn]]].
      assert (st' = st1) by (destruct o1; injection H; auto). subst st1.
      exists (Issued (exchange e) (ADDR rrtype) :: l).
      rewrite Hl. simpl. rewrite <- app_assoc. simpl.
      repeat split; auto; lia.
    + destruct (RegExp_test lib _ _) as [[ | ] | ]; injection H as <- <-;
        first
          [ eexists [Issued (exchange e) (ADDR rrtype); Raised _]; simpl;
            rewrite <- app_assoc; repeat split; auto; lia
          | exists [Issued (exchange e) (ADDR rrtype)]; simpl;
            repeat split; auto; lia ].
Qed.

(** [resolveMX]: the MX query and fewer than [maxDNS] address queries,
    for one unit of the budget. *)
Lemma lookups_within_resolveMX hostname rrtype :
  preserves (lookups_within options)
    (resolveMX lib dns_resolve options hostname rrtype).
Proof.
  intro st. unfold resolveMX, bind at 1.
  unfold resolveDNS. cbn [andb].
  destruct (maxDNS options <=? queryDNSCount st)%nat eqn:Hbudget.
  { exists [Refused hostname MX]. cbn -[Nat.sub Nat.mul].
    repeat split; auto; lia. }
  apply Nat.leb_gt in Hbudget.
  destruct hostname as [h | ]; [ | apply lookups_within_raised ].
  destruct (dns_resolve h MX) as [exchanges | msg].
  2:{ destruct (RegExp_test lib _ _) as [[ | ] | ]; cbn -[Nat.sub Nat.mul];
        first
          [ eexists [Issued h MX; Raised _]; cbn -[Nat.sub Nat.mul];
            rewrite <- app_assoc; repeat split; auto; nia
          | exists [Issued h MX]; cbn -[Nat.sub Nat.mul];
            repeat split; auto; nia ]. }
  cbn [ret deliver].
  destruct (maxDNS options <=? List.length exchanges)%nat eqn:Hguard.
  { cbn -[Nat.sub Nat.mul]. eexists [Issued h MX; Raised _].
    cbn -[Nat.sub Nat.mul].
    rewrite <- app_assoc. repeat split; auto; nia. }
  apply Nat.leb_gt in Hguard.
  unfold bind.
  destruct (resolve_exchanges lib dns_resolve options exchanges rrtype
              (count_lookup true h MX st)) as [o1 st1] eqn:E.
  apply resolve_exchanges_lookups in E. destruct E as [l [Hl [Hc Hn]]].
  assert (Hst : forall st2,
             st2 = st1 -> lookups_within options st st2).
  { intros st2 ->. exists (Issued h MX :: l).
    rewrite Hl, Hc. cbn -[Nat.sub Nat.mul]. rewrite <- app_assoc.
    cbn -[Nat.sub Nat.mul]. repeat split; auto; try lia; nia. }
  destruct o1; apply Hst; reflexivity.
Qed.
End LookupsWithin.

(** X18: a check never sends more than [maxDNS] times [maxDNS] queries.
    From any state, [check] and [checkInclude] issue at most [maxDNS]
    lookups for each unit the counter grows by (a budgeted lookup, and for
    an [mx] mechanism the MX query with fewer than [maxDNS] uncounted
    address queries); started with the counter at 0, they end with the
    counter within [maxDNS] and with at most [maxDNS * maxDNS] lookups
    issued. *)
Theorem lookups_bounded_by_budget lib dns_resolve options domain fuel :
  (forall ip st,
      lookups_within options st
        (snd (check lib dns_resolve options domain fuel ip st)))
  /\ (forall requiredDomain st,
         lookups_within options st
           (snd (checkInclude lib dns_resolve options domain fuel
                   requiredDomain st)))
  /\ (forall ip,
         List.length
           (lookups (snd (check lib dns_resolve options domain fuel ip
                            initial_state)))
         <= maxDNS options * maxDNS options)
  /\ (forall requiredDomain,
         List.length
           (lookups (snd (checkInclude lib dns_resolve options domain fuel
                            requiredDomain initial_state)))
         <= maxDNS options * maxDNS options).
Proof.
  assert (Hc : forall ip st,
             lookups_within options st
               (snd (check lib dns_resolve options domain fuel ip st))).
  { intros ip st.
    apply (keep_check (lookups_within options) (lookups_within_refl options)
             (lookups_within_trans options) (lookups_within_raised options)
             lib dns_resolve options (lookups_within_warned options)
             (fun h => lookups_within_resolveDNS lib dns_resolve options h TXT)
             (fun h f =>
                lookups_within_resolveDNS lib dns_resolve options h (ADDR f))
             (lookups_within_resolveMX lib dns_resolve options)). }
  assert (Hi : forall requiredDomain st,
             lookups_within options st
               (snd (checkInclude lib dns_resolve options domain fuel
                       requiredDomain st))).
  { intros requiredDomain st.
    apply (keep_checkInclude (lookups_within options)
             (lookups_within_refl options) (lookups_within_trans options)
             (lookups_within_raised options) lib dns_resolve options
             (lookups_within_warned options)
             (fun h => lookups_within_resolveDNS lib dns_resolve options h TXT)
             (fun h f =>
                lookups_within_resolveDNS lib dns_resolve options h (ADDR f))
             (lookups_within_resolveMX lib dns_resolve options)). }
  assert (Hbound : forall st',
             lookups_within options initial_state st' ->
             List.length (lookups st') <= maxDNS options * maxDNS options).
  { intros st' [l [Hl [_ [Hb Hn]]]]. unfold lookups. rewrite Hl.
    simpl in *. specialize (Hb (Nat.le_0_l _)). nia. }
  repeat split; auto.
Qed.

(** ** The address family of a check *)

Lemma AddrType_eqb_refl f : AddrType_eqb f f = true.
Proof. destruct f; reflexivity. Qed.

Lemma AddrType_eqb_eq a b : AddrType_eqb a b = true -> a = b.
Proof. destruct a, b; simpl; congruence. Qed.

Lemma closures_use_eq C f (m : Mechanism C) :
  closures_use f m
  = match m_resolve m with
    | Some r => AddrType_eqb (resolver_family r) f
    | None => true
    end
    && match m_includes m with
       | Some l => forallb (closures_use f) l
       | None => true
       end.
Proof. destruct m; reflexivity. Qed.

Lemma forallb_filter T (p q : T -> bool) l :
  forallb p l = true -> forallb p (filter q l) = true.
Proof.
  induction l as [ | x l IH]; simpl; [ auto | ].
  intro H. apply andb_true_iff in H. destruct H as [Hx Hl].
  destruct (q x); simpl; [ rewrite Hx | ]; auto.
Qed.

Lemma forallb_skipn T (p : T -> bool) i l :
  forallb p l = true -> forallb p (skipn i l) = true.
Proof.
  revert l. induction i as [ | i IH]; intros l H; simpl; [ exact H | ].
  destruct l as [ | x l]; [ reflexivity | ].
  simpl in H. apply andb_true_iff in H. now apply IH.
Qed.

Lemma forallb_nth_error T (p : T -> bool) l i x :
  forallb p l = true -> nth_error l i = Some x -> p x = true.
Proof.
  intros H Hn. apply nth_error_In in Hn.
  now apply (proj1 (forallb_forall p l) H).
Qed.

Section Keeps.
Variable R : State -> State -> Prop.
Hypothesis R_refl : forall st, R st st.
Hypothesis R_trans : forall a b c, R a b -> R b c -> R a c.
Hypothesis R_raise : forall e st, R st (raised e st).

Lemma keeps_ret T (P : T -> Prop) v : P v -> keeps R P (ret v).
Proof.
  intros H st. split; [ apply R_refl | ].
  intros v' E. simpl in E. now injection E as <-.
Qed.

Lemma keeps_raise T (P : T -> Prop) e : keeps R P (raise e).
Proof. intro st. split; [ apply R_raise | discriminate ]. Qed.

Lemma keeps_throw T (P : T -> Prop) e : keeps R P (throw e).
Proof. intro st. split; [ apply R_refl | discriminate ]. Qed.

Lemma keeps_out_of_fuel T (P : T -> Prop) : keeps R P out_of_fuel.
Proof. intro st. split; [ apply R_refl | discriminate ]. Qed.

Lemma keeps_bind T U (P : T -> Prop) (Q : U -> Prop) (m : M T)
    (k : T -> M U) :
  keeps R P m -> (forall v, P v -> keeps R Q (k v)) -> keeps R Q (bind m k).
Proof.
  intros Hm Hk st. destruct (Hm st) as [HR HP]. unfold bind.
  destruct (m st) as [[v | e | | ] st1]; simpl in *;
    try (split; [ exact HR | discriminate ]).
  destruct (Hk v (HP v eq_refl) st1) as [HR' HQ].
  split; [ eapply R_trans; eassumption | exact HQ ].
Qed.

Lemma keeps_try_catch T (P : T -> Prop) (m : M T) handler :
  keeps R P m -> (forall e, keeps R P (handler e)) ->
  keeps R P (try_catch m handler).
Proof.
  intros Hm Hh st. destruct (Hm st) as [HR HP]. unfold try_catch.
  destruct (m st) as [[v | e | | ] st1]; simpl in *;
    try (split; [ exact HR | assumption || discriminate ]).
  destruct (Hh e st1) as [HR' HQ].
  split; [ eapply R_trans; eassumption | exact HQ ].
Qed.

Lemma keeps_weaken T (P Q : T -> Prop) (m : M T) :
  (forall v, P v -> Q v) -> keeps R P m -> keeps R Q m.
Proof.
  intros HPQ Hm st. destruct (Hm st) as [HR HP]. split; auto.
Qed.

Lemma keeps_of_preserves T (m : M T) :
  preserves R m -> keeps R (fun _ => True) m.
Proof. intros Hm st. split; [ apply Hm | auto ]. Qed.
End Keeps.

Section Family.
Variable lib : Externals.
Variable dns_resolve : string -> forall t : RRType, DnsReply t.
Variable options : SPFOptions.
Variable f : AddrType.

Lemma family_only_refl st : family_only f st st.
Proof. exists []. rewrite app_nil_r. split; [ reflexivity | constructor ]. Qed.

Lemma family_only_trans a b c :
  family_only f a b -> family_only f b c -> family_only f a c.
Proof.
  intros [l1 [H1 B1]] [l2 [H2 B2]]. exists (l1 ++ l2)%list. split.
  - now rewrite H2, H1, app_assoc.
  - rewrite issued_app. apply Forall_app. now split.
Qed.

Lemma family_only_raised e st : family_only f st (raised e st).
Proof. exists [Raised e]. split; [ reflexivity | constructor ]. Qed.

Lemma family_only_refused h t st : family_only f st (refuse_lookup h t st).
Proof. exists [Refused h t]. split; [ reflexivity | constructor ]. Qed.

Lemma family_only_warned w st : family_only f st (warned w st).
Proof.
  exists []. simpl. rewrite app_nil_r. split; [ reflexivity | constructor ].
Qed.

Lemma family_only_issued (b : bool) h t st :
  match t with ADDR g => AddrType_eqb g f | _ => true end = true ->
  family_only f st (count_lookup b h t st).
Proof.
  intro Ht. exists [Issued h t]. split; [ reflexivity | ].
  repeat constructor. simpl. intros g ->. now apply AddrType_eqb_eq.
Qed.

Lemma family_resolveDNS_txt hostname :
  @preserves (family_only f) (list string)
    (resolveDNS lib dns_resolve options hostname TXT None).
Proof.
  apply (keep_resolveDNS_txt (family_only f) family_only_trans
           family_only_raised lib dns_resolve options
           (fun t => match t with ADDR g => AddrType_eqb g f | _ => true end)
           family_only_refused family_only_issued).
  reflexivity.
Qed.

Lemma family_resolveDNS_addr hostname :
  @preserves (family_only f) (list string)
    (resolveDNS lib dns_resolve options hostname (ADDR f) None).
Proof.
  apply (keep_resolveDNS_addr (family_only f) family_only_trans
           family_only_raised lib dns_resolve options
           (fun t => match t with ADDR g => AddrType_eqb g f | _ => true end)
           family_only_refused family_only_issued).
  apply AddrType_eqb_refl.
Qed.

Lemma family_resolveMX hostname :
  preserves (family_only f) (resolveMX lib dns_resolve options hostname f).
Proof.
  apply (keep_resolveMX (family_only f) family_only_refl family_only_trans
           family_only_raised lib dns_resolve options
           (fun t => match t with ADDR g => AddrType_eqb g f | _ => true end)
           family_only_refused family_only_issued);
    [ reflexivity | apply AddrType_eqb_refl ].
Qed.

Lemma closures_use_includes (m : Mechanism (Cidr lib)) l :
  closures_use f m = true -> m_includes m = Some l ->
  forallb (closures_use f) l = true.
Proof.
  rewrite closures_use_eq. intros H E. rewrite E in H.
  now apply andb_true_iff in H.
Qed.

Lemma closures_use_set_resolve (m : Mechanism (Cidr lib)) r :
  resolver_family r = f -> closures_use f m = true ->
  closures_use f (set_resolve m r) = true.
Proof.
  intros Hr. rewrite !closures_use_eq. simpl. rewrite Hr, AddrType_eqb_refl.
  intro H. apply andb_true_iff in H. now destruct H as [_ ->].
Qed.

Lemma closures_use_set_includes (m : Mechanism (Cidr lib)) l :
  closures_use f m = true -> forallb (closures_use f) l = true ->
  closures_use f (set_includes m l) = true.
Proof.
  rewrite !closures_use_eq. simpl. intros H Hl.
  apply andb_true_iff in H. destruct H as [-> _]. exact Hl.
Qed.

Lemma closures_use_assign (m : Mechanism (Cidr lib)) r :
  closures_use f m = true ->
  match r with
  | Includes l => forallb (closures_use f) l = true
  | _ => True
  end ->
  closures_use f (assign m r) = true.
Proof.
  intros Hm Hr. destruct r as [l | l | l]; simpl.
  - rewrite closures_use_eq in *. exact Hm.
  - rewrite closures_use_eq in *. exact Hm.
  - now apply closures_use_set_includes.
Qed.

Lemma closures_use_set_evaluated (m : Mechanism (Cidr lib)) ev :
  closures_use f m = true -> closures_use f (set_evaluated m ev) = true.
Proof. rewrite !closures_use_eq. auto. Qed.

Lemma family_attach hostname (m : Mechanism (Cidr lib)) :
  closures_use f m = true ->
  keeps (family_only f) (fun m' => closures_use f m' = true)
    (attach lib hostname f m).
Proof.
  intro Hm. unfold attach.
  set (m1 := if m_type m =? "a" then _ else m).
  assert (H1 : closures_use f m1 = true)
    by (subst m1; destruct (m_type m =? "a"); auto;
        now apply closures_use_set_resolve).
  clearbody m1.
  set (m2 := if m_type m1 =? "mx" then _ else m1).
  assert (H2 : closures_use f m2 = true)
    by (subst m2; destruct (m_type m1 =? "mx"); auto;
        now apply closures_use_set_resolve).
  clearbody m2. clear H1 m1 Hm.
  apply keeps_bind with (P := fun m' => closures_use f m' = true);
    try apply family_only_trans.
  - destruct ((m_type m2 =? "ip4") || (m_type m2 =? "ip6"));
      [ | apply keeps_ret; [ apply family_only_refl | exact H2 ] ].
    destruct (m_value m2) as [v | ];
      [ | apply keeps_raise; apply family_only_raised ].
    destruct (ipaddr_parseCIDR lib _);
      [ | apply keeps_raise; apply family_only_raised ].
    apply keeps_ret; [ apply family_only_refl | ].
    rewrite closures_use_eq in *. exact H2.
  - intros m3 H3. apply keeps_ret; [ apply family_only_refl | ].
    destruct (m_type m3 =? "include"); auto.
    now apply closures_use_set_resolve.
Qed.

Section WithRec.
Variable rec : option string -> AddrType -> M (list (Mechanism (Cidr lib))).
Hypothesis rec_family :
  forall v,
    keeps (family_only f) (fun l => forallb (closures_use f) l = true)
      (rec v f).

Lemma family_run_resolver r :
  resolver_family r = f ->
  keeps (family_only f)
    (fun res => match res with
                | Includes l => forallb (closures_use f) l = true
                | _ => True
                end)
    (run_resolver lib dns_resolve options rec r).
Proof.
  intro Hr. destruct r as [host g | host g | value g]; simpl in Hr; subst g;
    cbn [run_resolver].
  - eapply keeps_bind; try apply family_only_trans.
    + apply keeps_of_preserves, family_resolveDNS_addr.
    + intros. now apply keeps_ret; [ apply family_only_refl | ].
  - eapply keeps_bind; try apply family_only_trans.
    + apply keeps_of_preserves, family_resolveMX.
    + intros. now apply keeps_ret; [ apply family_only_refl | ].
  - eapply keeps_bind; try apply family_only_trans.
    + apply rec_family.
    + intros l Hl. cbv beta in Hl. now apply keeps_ret; [ apply family_only_refl | ].
Qed.

Lemma family_resolve_loop hostname catchAll todo :
  forall resolved,
    forallb (closures_use f) resolved = true ->
    keeps (family_only f) (fun l => forallb (closures_use f) l = true)
      (resolve_loop lib dns_resolve options rec hostname f catchAll todo
                    resolved).
Proof.
  induction todo as [ | p rest IH]; intros resolved Hres.
  - now apply keeps_ret; [ apply family_only_refl | ].
  - cbn [resolve_loop].
    destruct (m_type (of_parsed p) =? "redirect").
    + eapply keeps_bind; try apply family_only_trans;
        [ | intros l Hl; apply IH; exact Hl ].
      destruct (negb catchAll);
        [ | now apply keeps_ret; [ apply family_only_refl | ] ].
      eapply keeps_bind; try apply family_only_trans;
        [ apply rec_family | ].
      intros l Hl. cbv beta in Hl. apply keeps_ret; [ apply family_only_refl | ].
      rewrite forallb_app, Hres. exact Hl.
    + eapply keeps_bind; try apply family_only_trans;
        [ apply family_attach; reflexivity | ].
      intros m1 Hm1. cbv beta in Hm1.
      apply keeps_bind with (P := fun m2 => closures_use f m2 = true);
        try apply family_only_trans.
      * destruct (m_resolve m1) as [r | ] eqn:Er;
          [ | now apply keeps_ret; [ apply family_only_refl | ] ].
        destruct (prefetch options);
          [ | now apply keeps_ret; [ apply family_only_refl | ] ].
        eapply keeps_bind; try apply family_only_trans.
        -- apply family_run_resolver.
           rewrite closures_use_eq, Er in Hm1.
           apply andb_true_iff in Hm1. destruct Hm1 as [Hm1 _].
           now apply AddrType_eqb_eq.
        -- intros res Hres'. cbv beta in Hres'. apply keeps_ret; [ apply family_only_refl | ].
           now apply closures_use_assign.
      * intros m2 Hm2.
        assert (Hnew : forallb (closures_use f) (resolved ++ [m2]) = true)
          by (rewrite forallb_app, Hres; simpl; now rewrite Hm2).
        destruct (m_type m2 =? "all");
          [ now apply keeps_ret; [ apply family_only_refl | ] | ].
        now apply IH.
Qed.
End WithRec.

Lemma family_resolveSPF fuel :
  forall hostname,
    keeps (family_only f) (fun l => forallb (closures_use f) l = true)
      (resolveSPF lib dns_resolve options fuel hostname f).
Proof.
  induction fuel as [ | fuel IH]; intro hostname.
  - apply keeps_out_of_fuel. apply family_only_refl.
  - cbn [resolveSPF]. unfold resolveSPF_body, resolve_policy.
    eapply keeps_bind; try apply family_only_trans;
      [ apply keeps_of_preserves, family_resolveDNS_txt | intros txt _ ].
    destruct (filter _ txt) as [ | record [ | ? ?]];
      try (apply keeps_raise; apply family_only_raised).
    destruct (has_non_ascii record);
      [ apply keeps_raise; apply family_only_raised | ].
    destruct (negb (valid (spfParse lib record)));
      [ apply keeps_raise; apply family_only_raised | ].
    eapply keeps_bind; try apply family_only_trans.
    + apply keeps_of_preserves.
      destruct (parse_messages (spfParse lib record)) as [msgs | ].
      * destruct (filter (is_message "error") msgs).
        -- intro st. apply family_only_warned.
        -- intro st. apply family_only_raised.
      * intro st. apply family_only_refl.
    + intros _ _. now apply family_resolve_loop.
Qed.

Lemma family_getMechanisms domain :
  keeps (family_only f) (fun l => forallb (closures_use f) l = true)
    (getMechanisms lib dns_resolve options domain f).
Proof.
  unfold getMechanisms.
  eapply keeps_bind; try apply family_only_trans.
  - apply keeps_try_catch; try apply family_only_trans.
    + apply family_resolveSPF.
    + intros [e | msg];
        [ apply keeps_throw; apply family_only_refl
        | apply keeps_raise; apply family_only_raised ].
  - intros [ | m l] Hl;
      [ apply keeps_raise; apply family_only_raised | ].
    now apply keeps_ret; [ apply family_only_refl | ].
Qed.

Lemma family_resolve_lazily (m : Mechanism (Cidr lib)) :
  closures_use f m = true ->
  keeps (family_only f) (fun m' => closures_use f m' = true)
    (resolve_lazily lib dns_resolve options m).
Proof.
  intro Hm. unfold resolve_lazily.
  destruct (m_resolve m) as [r | ] eqn:Er;
    [ | now apply keeps_ret; [ apply family_only_refl | ] ].
  destruct (negb (prefetch options));
    [ | now apply keeps_ret; [ apply family_only_refl | ] ].
  eapply keeps_bind; try apply family_only_trans.
  - apply family_run_resolver; [ intro; apply family_resolveSPF | ].
    rewrite closures_use_eq, Er in Hm.
    apply andb_true_iff in Hm. destruct Hm as [Hm _].
    now apply AddrType_eqb_eq.
  - intros res Hres. cbv beta in Hres. apply keeps_ret; [ apply family_only_refl | ].
    now apply closures_use_assign.
Qed.

Lemma family_evaluate fuel :
  forall l addr,
    match l with
    | Some l' => forallb (closures_use f) l' = true
    | None => True
    end ->
    preserves (family_only f) (evaluate lib dns_resolve options fuel l addr).
Proof.
  induction fuel as [ | fuel IH]; intros l addr Hl; simpl.
  - intro st. apply family_only_refl.
  - destruct l as [l | ]; [ | intro st; apply family_only_raised ].
    induction l as [ | m rest IHl]; simpl.
    + intro st. apply family_only_refl.
    + simpl in Hl. apply andb_true_iff in Hl. destruct Hl as [Hm Hrest].
      intro st.
      refine (proj1 (keeps_bind (family_only f) family_only_trans _ _
                       (fun m1 => closures_use f m1 = true)
                       (fun _ => True) _ _
                       (family_resolve_lazily m Hm) _ st)).
      intros m1 Hm1. cbv beta in Hm1.
      apply keeps_bind
        with (P := fun m2 : Mechanism (Cidr lib) => True);
        try apply family_only_trans.
      * destruct (m_type m1 =? "include");
          [ | now apply keeps_ret; [ apply family_only_refl | ] ].
        eapply keeps_bind; try apply family_only_trans.
        -- apply keeps_of_preserves. apply IH.
           destruct (m_includes m1) as [l1 | ] eqn:E; [ | exact I ].
           now apply (closures_use_includes m1).
        -- intros. now apply keeps_ret; [ apply family_only_refl | ].
      * intros m2 _.
        eapply keeps_bind; try apply family_only_trans.
        -- apply keeps_of_preserves.
           apply (keep_match_ (family_only f) family_only_refl
                    family_only_raised).
        -- intros [ | ] _; apply keeps_of_preserves.
           ++ apply (keep_matched_result (family_only f) family_only_refl
                       family_only_trans family_only_raised).
           ++ now apply IHl.
Qed.

Lemma family_attempt_resolve (m : Mechanism (Cidr lib)) :
  closures_use f m = true ->
  keeps (family_only f)
    (fun a => match a with
              | Resolved _ m' => closures_use f m' = true
              | _ => True
              end)
    (attempt_resolve lib dns_resolve options m).
Proof.
  intro Hm. unfold attempt_resolve.
  destruct (m_resolve m) as [r | ] eqn:Er;
    [ | now apply keeps_ret; [ apply family_only_refl | ] ].
  destruct (negb (prefetch options));
    [ | now apply keeps_ret; [ apply family_only_refl | ] ].
  apply keeps_try_catch; try apply family_only_trans.
  - eapply keeps_bind; try apply family_only_trans.
    + apply family_run_resolver; [ intro; apply family_resolveSPF | ].
      rewrite closures_use_eq, Er in Hm.
      apply andb_true_iff in Hm. destruct Hm as [Hm _].
      now apply AddrType_eqb_eq.
    + intros res Hres. cbv beta in Hres. apply keeps_ret; [ apply family_only_refl | ].
      now apply closures_use_assign.
  - intros [e | msg].
    + destruct (ResultName_eqb (result e) RNone);
        [ now apply keeps_ret; [ apply family_only_refl | ]
        | apply keeps_throw; apply family_only_refl ].
    + now apply keeps_ret; [ apply family_only_refl | ].
Qed.
End Family.

Lemma family_evaluateInclude lib dns_resolve options f requiredDomain fuel :
  (forall l rest,
      match l with
      | Some l' => forallb (closures_use f) l' = true
      | None => True
      end ->
      forallb (closures_use f) (match rest with Some r => r | None => [] end)
      = true ->
      preserves (family_only f)
        (evaluateInclude lib dns_resolve options fuel l requiredDomain rest))
  /\ (forall arr i,
         forallb (closures_use f) arr = true ->
         preserves (family_only f)
           (include_loop lib dns_resolve options fuel requiredDomain arr i)).
Proof.
  induction fuel as [ | fuel [IHe IHl]]; split; intros;
    try (intro st; apply family_only_refl).
  - rewrite evaluateInclude_S.
    destruct l as [l | ]; [ | intro st; apply family_only_raised ].
    cbv zeta.
    assert (Harr : forallb (closures_use f)
                     (match rest with Some r => r | None => [] end
                      ++ included lib l)%list = true).
    { rewrite forallb_app, H0. simpl. unfold included.
      now apply forallb_filter. }
    destruct (_ ++ _)%list as [ | x arr];
      [ intro st; apply family_only_refl | ].
    destruct (existsb _ _); [ intro st; apply family_only_refl | ].
    now apply IHl.
  - rewrite include_loop_S.
    destruct (nth_error arr i) as [m | ] eqn:Enth;
      [ | intro st; apply family_only_refl ].
    assert (Hm : closures_use f m = true)
      by (eapply forallb_nth_error; eassumption).
    assert (Hgo :
      forall m0 : Mechanism (Cidr lib),
        closures_use f m0 = true ->
        preserves (family_only f)
          (state <-
             (if m_type m0 =? "include" then
                evaluated <- evaluateInclude lib dns_resolve options fuel
                               (m_includes m0) requiredDomain
                               (Some (slice_from lib (S i) arr)) ;;
                ret (set_evaluated m0 evaluated,
                     (slice_from lib (S i) arr
                      ++ included lib (match m_includes m0 with
                                       | Some l => l
                                       | None => []
                                       end))%list)
              else ret (m0, arr)) ;;
           let (m1, arr0) := state in
           match m_evaluated m1 with
           | None => raise (ThrownError (err_undefined "result"))
           | Some evaluated =>
               if ResultName_eqb (result evaluated) RNone then
                 throw_result PermError (validation_missed (m_value m1))
               else
                 hit <- match_ lib options m1 None ;;
                 if hit then matched_result lib m1
                 else include_loop lib dns_resolve options fuel
                                   requiredDomain arr0 (S i)
           end)).
    { intros m0 Hm0 st.
      assert (Hslice : forallb (closures_use f) (slice_from lib (S i) arr)
                       = true) by (now apply forallb_skipn).
      assert (Hinc : match m_includes m0 with
                     | Some l' => forallb (closures_use f) l' = true
                     | None => True
                     end)
        by (destruct (m_includes m0) eqn:E; [ | exact I ];
            now apply (closures_use_includes lib f m0)).
      refine (proj1 (keeps_bind (family_only f) (family_only_trans f) _ _
                       (fun s : Mechanism (Cidr lib)
                                * list (Mechanism (Cidr lib)) =>
                          forallb (closures_use f) (snd s) = true)
                       (fun _ => True) _ _ _ _ st)).
      - destruct (m_type m0 =? "include");
          [ | now apply keeps_ret; [ apply family_only_refl | ] ].
        eapply keeps_bind; try apply family_only_trans.
        + apply keeps_of_preserves. now apply IHe.
        + intros ev _. apply keeps_ret; [ apply family_only_refl | ].
          cbn [snd]. rewrite forallb_app, Hslice. simpl. unfold included.
          apply forallb_filter.
          destruct (m_includes m0); [ exact Hinc | reflexivity ].
      - intros [m1 arr0] Harr0. cbn [snd] in Harr0.
        apply keeps_of_preserves.
        destruct (m_evaluated m1) as [ev | ];
          [ | intro st'; apply family_only_raised ].
        destruct (ResultName_eqb (result ev) RNone);
          [ intro st'; apply family_only_raised | ].
        intro st'.
        refine (proj1 (keeps_bind (family_only f) (family_only_trans f) _ _
                         (fun _ => True) (fun _ => True) _ _ _ _ st')).
        + apply keeps_of_preserves.
          apply (keep_match_ (family_only f) (family_only_refl f)
                   (family_only_raised f)).
        + intros [ | ] _; apply keeps_of_preserves.
          * apply (keep_matched_result (family_only f) (family_only_refl f)
                     (family_only_trans f) (family_only_raised f)).
          * now apply IHl. }
    intro st.
    refine (proj1 (keeps_bind (family_only f) (family_only_trans f) _ _ _
                     (fun _ => True) _ _
                     (family_attempt_resolve lib dns_resolve options f m Hm)
                     _ st)).
    intros a Ha. apply keeps_of_preserves.
    destruct a as [m' | | ]; cbv zeta.
    + now apply Hgo.
    + now apply IHl.
    + now apply Hgo.
Qed.

(** X19: a check looks addresses up in one family only. Every A or AAAA
    lookup issued by [check], for [a] and [mx] mechanisms at any depth of
    includes and redirects and with or without [prefetch], is of the record
    type chosen from the client address (A for an IPv4 address, AAAA
    otherwise); every address lookup issued by [checkInclude] is an A
    lookup. *)
Theorem one_address_family lib dns_resolve options domain fuel :
  (forall ip st,
      family_only (rrtype_of (addr_kind lib (ipaddr_parse lib ip))) st
        (snd (check lib dns_resolve options domain fuel ip st)))
  /\ (forall requiredDomain st,
         family_only A st
           (snd (checkInclude lib dns_resolve options domain fuel
                   requiredDomain st))).
Proof.
  split.
  - intros ip st. unfold check.
    destruct (negb (ipaddr_isValid lib ip)); [ apply family_only_refl | ].
    destruct (negb (tldjs_isValid lib domain)); [ apply family_only_refl | ].
    cbv zeta.
    set (f := rrtype_of (addr_kind lib (ipaddr_parse lib ip))).
    refine (proj1 (keeps_try_catch (family_only f) (family_only_trans f) _
                     (fun _ => True) _ _ _ _ st)).
    + eapply keeps_bind; try apply family_only_trans.
      * apply family_getMechanisms.
      * intros l Hl. apply keeps_of_preserves.
        now apply family_evaluate.
    + intros [e | msg]; now apply keeps_ret; [ apply family_only_refl | ].
  - intros requiredDomain st. unfold checkInclude.
    destruct (negb (tldjs_isValid lib domain)); [ apply family_only_refl | ].
    refine (proj1 (keeps_try_catch (family_only A) (family_only_trans A) _
                     (fun _ => True) _ _ _ _ st)).
    + eapply keeps_bind; try apply family_only_trans.
      * apply family_getMechanisms.
      * intros l Hl. apply keeps_of_preserves.
        now apply (proj1 (family_evaluateInclude lib dns_resolve options A
                            requiredDomain fuel)).
    + intros [e | msg]; now apply keeps_ret; [ apply family_only_refl | ].
Qed.

(** ** What [getMechanisms] hands to the evaluation *)


(** ** A lookup the gateway leaves unsettled *)


